(** * SafeWalk backend: a shallow embedding and its verification

    The development embeds the safety-weighted routing core of the backend
    and the code around it:

    - [engines/dijkstra.py]: [build_adjacency_list] and [compute_route]
      (Dijkstra with lazy deletion, early exit and ADA edge filtering);
    - [app/services/dijkstra.py]: the sibling [build_adjacency_list] and
      [dijkstra] without the accessibility filter;
    - [app/services/gemini.py]: [_update_danger_scores], the hazard blend;
    - the two functions of Python's [heapq] the solver calls, [heappush] and
      [heappop], with their helpers [_siftdown] and [_siftup];
    - [main.py] and [app/routers/routing.py]: the route endpoints
      [route_safewalk] and [get_safe_route];
    - [app/services/gemini.py] and [app/routers/incidents.py]:
      [parse_incident], [ingest_incident] and [report_incident];
    - [engines/ai_triage.py]: [_parse_json_response], [triage_vision] and
      [triage_voice], with their handlers in [main.py];
    - [engines/blockchain.py]: [_compute_hash], [_get_prev_hash] and
      [log_entry];
    - [seed.py]: [seed].

    Modelling conventions.  Python floats are modelled by exact rationals
    ([Q], compared with [Qeq]); a [dict] is a [gmap]; a MongoDB collection is
    the list of its documents in natural order; an exception is a value of
    [PyError]; a [while] loop is a fixpoint on a step budget, and the budget
    chosen by the model is proved sufficient.  What a library or a remote
    service returns (the answer of the language model, [json.loads], the
    clock, SHA-256, the ids the store gives) is an input or a parameter. *)

From Stdlib Require Import QArith Qround Lqa Lia ZArith ZifyNat Ascii.
From stdpp Require Import gmap strings list fin_maps.

Open Scope Q_scope.

#[local] Set Warnings "-clear-no-such-hyp".

(** ** Numbers *)

(** [x < y] on floats, as a boolean. *)
Definition Qltb (x y : Q) : bool :=
  (Qnum x * QDen y <? Qnum y * QDen x)%Z.

(** Python's [max(a, b)]: the first argument unless the second is greater. *)
Definition py_max (a b : Q) : Q := if Qltb a b then b else a.

(** Python's [min(a, b)]: the first argument unless the second is smaller. *)
Definition py_min (a b : Q) : Q := if Qltb b a then b else a.

(** Rounding of an exact value to the nearest integer, ties to even. *)
Definition round_half_even (x : Q) : Z :=
  let n := Qfloor x in
  let twice_frac := 2 * (x - inject_Z n) in
  if Qltb twice_frac 1 then n
  else if Qltb 1 twice_frac then (n + 1)%Z
  else if Z.even n then n else (n + 1)%Z.

(** Python's [round(x, ndigits)] for a non-negative [ndigits]. *)
Definition py_round (x : Q) (ndigits : nat) : Q :=
  let scale := Pos.pow 10 (Pos.of_nat ndigits) in
  match ndigits with
  | O => inject_Z (round_half_even x)
  | S _ => Qmake (round_half_even (x * inject_Z (Zpos scale))) scale
  end.

(** ** Exceptions *)

(** The three messages of the [ValueError]s of the solver: the origin is
    not in the graph (NodeNotFound), the destination is not in the graph
    (NodeNotFound), there is no path between the two (NoPathExists). *)
Inductive Message :=
| OriginNotFound (origin : string)
| DestinationNotFound (destination : string)
| NoPath (origin destination : string).

Inductive PyError :=
| ValueError (msg : Message)
| KeyError (key : string).

(** The outcome of a call: a value, an exception, or an exhausted step
    budget. *)
Inductive Outcome (A : Type) :=
| Returns (a : A)
| Raises (e : PyError)
| OutOfFuel.
Arguments Returns {A} a.
Arguments Raises {A} e.
Arguments OutOfFuel {A}.

(** Sequencing: an exception or an exhausted budget ends the call. *)
Definition outcome_bind {A B : Type} (k : A -> Outcome B) (c : Outcome A) : Outcome B :=
  match c with
  | Returns a => k a
  | Raises e => Raises e
  | OutOfFuel => OutOfFuel
  end.

#[export] Instance outcome_mbind : MBind Outcome := @outcome_bind.

(** [d[key]]: raises [KeyError] on a missing key. *)
Definition getitem {A : Type} (d : gmap string A) (key : string) : Outcome A :=
  match d !! key with
  | Some v => Returns v
  | None => Raises (KeyError key)
  end.

(** ** Documents of the store *)

(** An intersection document: [str(doc["_id"])] and
    [doc["location"]["coordinates"]]. *)
Record Intersection := {
  intersection_id : string;
  location_coordinates : list Q
}.

(** A street document, with the fields the core reads.  [is_accessible] and
    [bidirectional] are read with [edge.get(..., True)] and may be absent;
    the builder reads [danger_score] and [distance_m] with [edge[...]], so
    they are present (the blender's [edge.get("danger_score", 0.0)] then
    never takes its default). *)
Record Street := {
  street_id : string;
  name : string;
  start_intersection_id : string;
  end_intersection_id : string;
  distance_m : Q;
  danger_score : Q;
  is_accessible : option bool;
  bidirectional : option bool
}.

Record Store := {
  intersections : list Intersection;
  streets : list Street
}.

(** [Literal["safest", "shortest"]] *)
Inductive Mode := safest | shortest.

(** [edge.get(key, True)] used as a condition. *)
Definition get_flag (flag : option bool) : bool := default true flag.

(** ** heapq *)

(** [@dataclass(order=True) class _QueueItem]: [node_id] is excluded from
    comparison, so [a < b] compares the costs only. *)
Record _QueueItem := {
  cost : Q;
  node_id : string
}.

Definition item_lt (a b : _QueueItem) : bool := Qltb (cost a) (cost b).

Module heapq.

(** The [while pos > startpos] loop of [_siftdown]; [pos] strictly
    decreases, so a budget of [pos] steps is exact. *)
Fixpoint _siftdown_loop (fuel : nat) (heap : list _QueueItem)
    (startpos pos : nat) (newitem : _QueueItem) : list _QueueItem :=
  match fuel with
  | O => <[pos := newitem]> heap
  | S fuel =>
      if decide (startpos < pos)%nat then
        let parentpos := ((pos - 1) / 2)%nat in
        match heap !! parentpos with
        | Some parent =>
            if item_lt newitem parent
            then _siftdown_loop fuel (<[pos := parent]> heap) startpos parentpos newitem
            else <[pos := newitem]> heap
        | None => heap
        end
      else <[pos := newitem]> heap
  end.

Definition _siftdown (heap : list _QueueItem) (startpos pos : nat) : list _QueueItem :=
  match heap !! pos with
  | Some newitem => _siftdown_loop pos heap startpos pos newitem
  | None => heap
  end.

(** The [while childpos < endpos] loop of [_siftup]: the smaller child
    moves up until a leaf is reached; returns the heap and the leaf. *)
Fixpoint _siftup_loop (fuel : nat) (heap : list _QueueItem)
    (endpos pos : nat) : list _QueueItem * nat :=
  match fuel with
  | O => (heap, pos)
  | S fuel =>
      let childpos := (2 * pos + 1)%nat in
      if decide (childpos < endpos)%nat then
        let rightpos := (childpos + 1)%nat in
        let childpos :=
          if decide (rightpos < endpos)%nat then
            match heap !! childpos, heap !! rightpos with
            | Some l, Some r => if item_lt l r then childpos else rightpos
            | _, _ => childpos
            end
          else childpos in
        match heap !! childpos with
        | Some child => _siftup_loop fuel (<[pos := child]> heap) endpos childpos
        | None => (heap, pos)
        end
      else (heap, pos)
  end.

Definition _siftup (heap : list _QueueItem) (pos : nat) : list _QueueItem :=
  let endpos := length heap in
  let startpos := pos in
  match heap !! pos with
  | Some newitem =>
      let '(heap, pos) := _siftup_loop endpos heap endpos pos in
      _siftdown (<[pos := newitem]> heap) startpos pos
  | None => heap
  end.

Definition heappush (heap : list _QueueItem) (item : _QueueItem) : list _QueueItem :=
  _siftdown (heap ++ [item]) 0 (length heap).

(** [heappop] on an empty list raises [IndexError]; the solver pops only
    under [while pq], so the empty case is [None]. *)
Definition heappop (heap : list _QueueItem) : option (_QueueItem * list _QueueItem) :=
  match last heap with
  | None => None
  | Some lastelt =>
      match removelast heap with
      | [] => Some (lastelt, [])
      | returnitem :: rest => Some (returnitem, _siftup (lastelt :: rest) 0)
      end
  end.

End heapq.

(** ** The adjacency snapshot *)

(** One outgoing arc: [(neighbour_id, weight, street_doc)]. *)
Definition Arc : Type := string * Q * Street.

Definition arc_neighbour (a : Arc) : string := a.1.1.
Definition arc_weight (a : Arc) : Q := a.1.2.
Definition arc_edge (a : Arc) : Street := a.2.

(** [adj.setdefault(k, [])] for its effect on [adj]. *)
Definition adj_setdefault (adj : gmap string (list Arc)) (k : string)
    : gmap string (list Arc) :=
  match adj !! k with
  | Some _ => adj
  | None => <[k := []]> adj
  end.

(** [adj.setdefault(k, []).append(arc)]. *)
Definition adj_append (adj : gmap string (list Arc)) (k : string) (arc : Arc)
    : gmap string (list Arc) :=
  <[k := default [] (adj !! k) ++ [arc]]> adj.

(** [adj.get(u, [])]. *)
Definition adj_get (adj : gmap string (list Arc)) (u : string) : list Arc :=
  default [] (adj !! u).

(** The body of [async for doc in intersections_col().find()]. *)
Definition add_intersection
    (acc : gmap string (list Arc) * gmap string (list Q)) (doc : Intersection)
    : gmap string (list Arc) * gmap string (list Q) :=
  let nid := intersection_id doc in
  (adj_setdefault acc.1 nid, <[nid := location_coordinates doc]> acc.2).

(** [edge["danger_score"] if mode == "safest" else edge["distance_m"]],
    then [max(weight, 0.01)]. *)
Definition edge_weight (mode : Mode) (edge : Street) : Q :=
  let weight := match mode with
                | safest => danger_score edge
                | shortest => distance_m edge
                end in
  py_max weight 0.01.

(** The arcs one street contributes: both directions unless
    [bidirectional] is false. *)
Definition add_arcs (mode : Mode) (adj : gmap string (list Arc)) (edge : Street)
    : gmap string (list Arc) :=
  let weight := edge_weight mode edge in
  let start := start_intersection_id edge in
  let end_ := end_intersection_id edge in
  let adj := adj_append adj start (end_, weight, edge) in
  if get_flag (bidirectional edge)
  then adj_append adj end_ (start, weight, edge)
  else adj.

(** ** The search, shared verbatim by [compute_route] and [dijkstra] *)

Record SearchState := {
  dist : gmap string Q;
  prev : gmap string (option string);
  pq : list _QueueItem
}.

(** [c > dist.get(u, float("inf"))]. *)
Definition gt_inf (c : Q) (d : option Q) : bool :=
  match d with
  | Some d => Qltb d c
  | None => false
  end.

(** [c < dist.get(v, float("inf"))]. *)
Definition lt_inf (c : Q) (d : option Q) : bool :=
  match d with
  | Some d => Qltb c d
  | None => true
  end.

(** [for neighbour, weight, _edge in adj.get(u, [])]: the relaxations of the
    arcs leaving [u]; [dist[u]] is read again for every arc. *)
Fixpoint relax_arcs (u : string) (arcs : list Arc) (st : SearchState)
    : Outcome SearchState :=
  match arcs with
  | [] => Returns st
  | (neighbour, weight, _edge) :: arcs =>
      du ← getitem (dist st) u;
      let new_cost := du + weight in
      if lt_inf new_cost (dist st !! neighbour) then
        relax_arcs u arcs
          {| dist := <[neighbour := new_cost]> (dist st);
             prev := <[neighbour := Some u]> (prev st);
             pq := heapq.heappush (pq st)
                     {| cost := new_cost; node_id := neighbour |} |}
      else relax_arcs u arcs st
  end.

(** [while pq: ...], one iteration per unit of budget. *)
Fixpoint search_loop (fuel : nat) (adj : gmap string (list Arc))
    (destination : string) (st : SearchState) : Outcome SearchState :=
  match fuel with
  | O => OutOfFuel
  | S fuel =>
      match heapq.heappop (pq st) with
      | None => Returns st
      | Some (item, rest) =>
          let st := {| dist := dist st; prev := prev st; pq := rest |} in
          let u := node_id item in
          if decide (u = destination) then Returns st
          else if gt_inf (cost item) (dist st !! u) then
            search_loop fuel adj destination st
          else
            st ← relax_arcs u (adj_get adj u) st;
            search_loop fuel adj destination st
      end
  end.

(** The number of arcs of the snapshot. *)
Definition arc_count (adj : gmap string (list Arc)) : nat :=
  map_fold (fun _ arcs n => (length arcs + n)%nat) 0%nat adj.

(** The budget given to [search_loop]: every arc is relaxed at most once into
    a push and the origin is pushed once. *)
Definition search_fuel (adj : gmap string (list Arc)) : nat :=
  S (S (arc_count adj)).

(** [while current is not None: path_ids.append(current);
    current = prev.get(current)]. *)
Fixpoint walk_back (fuel : nat) (prev : gmap string (option string))
    (current : option string) (path_ids : list string) : Outcome (list string) :=
  match current with
  | None => Returns path_ids
  | Some c =>
      match fuel with
      | O => OutOfFuel
      | S fuel => walk_back fuel prev (mjoin (prev !! c)) (path_ids ++ [c])
      end
  end.

(** Lines 89–123 of [compute_route] (98–132 of [dijkstra]): the membership
    checks, the search and the reconstruction of [path_ids]; returns
    [path_ids] after [reverse()] together with [dist]. *)
Definition find_path (adj : gmap string (list Arc)) (origin destination : string)
    : Outcome (list string * gmap string Q) :=
  match adj !! origin with
  | None => Raises (ValueError (OriginNotFound origin))
  | Some _ =>
      match adj !! destination with
      | None => Raises (ValueError (DestinationNotFound destination))
      | Some _ =>
          st ← search_loop (search_fuel adj) adj destination
                 {| dist := {[origin := 0]};
                    prev := {[origin := None]};
                    pq := [{| cost := 0; node_id := origin |}] |};
          match prev st !! destination with
          | None => Raises (ValueError (NoPath origin destination))
          | Some _ =>
              path_ids ← walk_back (S (size (prev st))) (prev st) (Some destination) [];
              Returns (reverse path_ids, dist st)
          end
      end
  end.

(** [[coords[nid] for nid in path_ids]]: the first missing id raises. *)
Fixpoint path_coordinates (coords : gmap string (list Q)) (path_ids : list string)
    : Outcome (list (list Q)) :=
  match path_ids with
  | [] => Returns []
  | nid :: path_ids =>
      c ← getitem coords nid;
      cs ← path_coordinates coords path_ids;
      Returns (c :: cs)
  end.

(** ** engines/dijkstra.py *)

Module engines_dijkstra.

(** The dict returned by [compute_route]. *)
Record Route := {
  path : list string;
  coordinates : list (list Q);
  total_cost : Q;
  mode : Mode;
  ada_required : bool;
  hazards_bypassed : nat
}.

(** The body of [async for edge in streets_col().find()]. *)
Definition add_street (mode : Mode) (ada_required : bool)
    (acc : gmap string (list Arc) * nat) (edge : Street)
    : gmap string (list Arc) * nat :=
  if ada_required && negb (get_flag (is_accessible edge))
  then (acc.1, S acc.2)
  else (add_arcs mode acc.1 edge, acc.2).

Definition build_adjacency_list (db : Store) (mode : Mode) (ada_required : bool)
    : gmap string (list Arc) * gmap string (list Q) * nat :=
  let '(adj, coords) := foldl add_intersection (∅, ∅) (intersections db) in
  let '(adj, hazards_bypassed) :=
    foldl (add_street mode ada_required) (adj, 0%nat) (streets db) in
  (adj, coords, hazards_bypassed).

Definition compute_route (db : Store) (origin destination : string)
    (mode : Mode) (ada_required : bool) : Outcome Route :=
  let '(adj, coords, hazards_bypassed) :=
    build_adjacency_list db mode ada_required in
'(path_ids, dist) ← find_path adj origin destination;
  path_coords ← path_coordinates coords path_ids;
  d ← getitem dist destination;
  Returns {| path := path_ids;
             coordinates := path_coords;
             total_cost := py_round d 4;
             mode := mode;
             ada_required := ada_required;
             hazards_bypassed := hazards_bypassed |}.

End engines_dijkstra.

(** ** app/services/dijkstra.py *)

Module services_dijkstra.

(** The dict returned by [dijkstra]. *)
Record Route := {
  path : list string;
  coordinates : list (list Q);
  total_cost : Q;
  mode : Mode
}.

Definition build_adjacency_list (db : Store) (mode : Mode)
    : gmap string (list Arc) * gmap string (list Q) :=
  let '(adj, coords) := foldl add_intersection (∅, ∅) (intersections db) in
  (foldl (add_arcs mode) adj (streets db), coords).

Definition dijkstra (db : Store) (start_id end_id : string) (mode : Mode)
    : Outcome Route :=
  let '(adj, coords) := build_adjacency_list db mode in
'(path_ids, dist) ← find_path adj start_id end_id;
  path_coords ← path_coordinates coords path_ids;
  d ← getitem dist end_id;
  Returns {| path := path_ids;
             coordinates := path_coords;
             total_cost := py_round d 4;
             mode := mode |}.

End services_dijkstra.

(** ** The scenario graph *)

Definition scenario_intersections : list Intersection :=
  [ {| intersection_id := "A"; location_coordinates := [-91.7713; 37.9554] |};
    {| intersection_id := "B"; location_coordinates := [-91.7743; 37.9554] |};
    {| intersection_id := "C"; location_coordinates := [-91.7713; 37.9530] |};
    {| intersection_id := "D"; location_coordinates := [-91.7743; 37.9530] |} ].

Definition scenario_edge (id a b : string) (dist danger : Q) (accessible : bool) : Street :=
  {| street_id := id; name := id;
     start_intersection_id := a; end_intersection_id := b;
     distance_m := dist; danger_score := danger;
     is_accessible := Some accessible; bidirectional := Some true |}.

(** Nodes A, B, C, D; A–B (280, 5), A–C (270, 10), B–D (270, 15),
    C–D (280, 8); [bd_accessible] is the accessibility flag of B–D. *)
Definition scenario (bd_accessible : bool) : Store :=
  {| intersections := scenario_intersections;
     streets :=
       [ scenario_edge "A-B" "A" "B" 280 5 true;
         scenario_edge "A-C" "A" "C" 270 10 true;
         scenario_edge "B-D" "B" "D" 270 15 bd_accessible;
         scenario_edge "C-D" "C" "D" 280 8 true ] |}.

(** Stores with an edge whose endpoints have no intersection document. *)

(** No intersection at all and one bidirectional street X–Y. *)
Definition dangling_store : Store :=
  {| intersections := [];
     streets := [ scenario_edge "X-Y" "X" "Y" 100 1 true ] |}.

(** One intersection D and a one-way street X→Z. *)
Definition one_way_store : Store :=
  {| intersections :=
       [ {| intersection_id := "D"; location_coordinates := [-91.7743; 37.9530] |} ];
     streets :=
       [ {| street_id := "X-Z"; name := "X-Z";
            start_intersection_id := "X"; end_intersection_id := "Z";
            distance_m := 100; danger_score := 1;
            is_accessible := Some true; bidirectional := Some false |} ] |}.

(** Intersections A and D; the direct street A–D is not accessible and the
    accessible detour A–X–D passes through X, which has no document. *)
Definition detour_store : Store :=
  {| intersections :=
       [ {| intersection_id := "A"; location_coordinates := [-91.7713; 37.9554] |};
         {| intersection_id := "D"; location_coordinates := [-91.7743; 37.9530] |} ];
     streets :=
       [ scenario_edge "A-D" "A" "D" 100 1 false;
         scenario_edge "A-X" "A" "X" 100 5 true;
         scenario_edge "X-D" "X" "D" 100 5 true ] |}.

(** ** app/services/gemini.py *)

Module services_gemini.

(** *** The query [{"name": {"$regex": street_name, "$options": "i"}}]

    The store evaluates the pattern as a regular expression.  The model
    covers the patterns without metacharacters, for which an unanchored
    case-insensitive search is a case-insensitive substring test (case
    folding is that of ASCII letters); on any other pattern the model
    gives no answer. *)

Definition lower_ascii (c : ascii) : ascii :=
  let n := nat_of_ascii c in
  if (65 <=? n)%nat && (n <=? 90)%nat then ascii_of_nat (n + 32) else c.

Fixpoint lower (s : string) : string :=
  match s with
  | String.EmptyString => String.EmptyString
  | String.String c s => String.String (lower_ascii c) (lower s)
  end.

Fixpoint starts_with (p s : string) : bool :=
  match p, s with
  | String.EmptyString, _ => true
  | String.String _ _, String.EmptyString => false
  | String.String a p, String.String b s => bool_decide (a = b) && starts_with p s
  end.

(** [p in s] *)
Fixpoint contains (p s : string) : bool :=
  starts_with p s ||
  match s with
  | String.EmptyString => false
  | String.String _ s => contains p s
  end.

Definition metacharacters : list ascii :=
  ["\"; "^"; "$"; "."; "["; "]"; "|"; "("; ")"; "?"; "*"; "+"; "{"; "}"]%char.

Fixpoint literal_pattern (p : string) : bool :=
  match p with
  | String.EmptyString => true
  | String.String c p =>
      bool_decide (c ∉ metacharacters) && (nat_of_ascii c <? 128)%nat
      && literal_pattern p
  end.

Definition regex_search_i (pattern subject : string) : option bool :=
  if literal_pattern pattern
  then Some (contains (lower pattern) (lower subject))
  else None.

(** [s_col.find({"name": {"$regex": street_name, "$options": "i"}})] *)
Definition find_by_name (col : list Street) (street_name : string)
    : option (list Street) :=
  if literal_pattern street_name
  then Some (filter (fun edge => regex_search_i street_name (name edge) = Some true) col)
  else None.

(** *** The blend *)

(** [min(100.0, round(0.6 * old_score + 0.4 * severity, 2))] *)
Definition blend (old_score : Q) (severity : Z) : Q :=
  py_min 100 (py_round (0.6 * old_score + 0.4 * inject_Z severity) 2).

Definition set_danger_score (edge : Street) (new_score : Q) : Street :=
  {| street_id := street_id edge; name := name edge;
     start_intersection_id := start_intersection_id edge;
     end_intersection_id := end_intersection_id edge;
     distance_m := distance_m edge; danger_score := new_score;
     is_accessible := is_accessible edge; bidirectional := bidirectional edge |}.

(** [s_col.update_one({"_id": id}, {"$set": {"danger_score": new_score}})]:
    the first document with that [_id] is updated. *)
Fixpoint update_one (col : list Street) (id : string) (new_score : Q) : list Street :=
  match col with
  | [] => []
  | edge :: col =>
      if decide (street_id edge = id)
      then set_danger_score edge new_score :: col
      else edge :: update_one col id new_score
  end.

(** The body of [async for edge in cursor]. *)
Definition update_edge (severity : Z) (acc : list Street * nat) (edge : Street)
    : list Street * nat :=
  let old_score := danger_score edge in
  let new_score := blend old_score severity in
  (update_one acc.1 (street_id edge) new_score, S acc.2).

(** Returns the collection after the updates and the number of edges
    updated. *)
Definition _update_danger_scores (col : list Street) (street_name : string)
    (severity : Z) : option (list Street * nat) :=
  match find_by_name col street_name with
  | Some cursor => Some (foldl (update_edge severity) (col, 0%nat) cursor)
  | None => None
  end.

End services_gemini.




(** ** The vocabulary of the statements *)

(** [route adj origin p v W]: [p] lists the nodes of a walk from [origin] to
    [v] along arcs of [adj] whose weights add up to [W]. *)
Inductive route (adj : gmap string (list Arc)) (origin : string)
    : list string -> string -> Q -> Prop :=
| route_origin : route adj origin [origin] origin 0
| route_arc p u a W :
    route adj origin p u W -> a ∈ adj_get adj u ->
    route adj origin (p ++ [arc_neighbour a]) (arc_neighbour a) (W + arc_weight a).

(** The street is read by the builder: it is not skipped by the
    accessibility filter. *)
Definition included (ada_required : bool) (edge : Street) : bool :=
  negb (ada_required && negb (get_flag (is_accessible edge))).

(** The arcs a street contributes to the list of node [u]. *)
Definition arcs_from (mode : Mode) (u : string) (edge : Street) : list Arc :=
  (if decide (start_intersection_id edge = u)
   then [(end_intersection_id edge, edge_weight mode edge, edge)] else [])
  ++ (if get_flag (bidirectional edge)
      then if decide (end_intersection_id edge = u)
           then [(start_intersection_id edge, edge_weight mode edge, edge)] else []
      else []).

(** The streets the builder reads, in order. *)
Definition included_streets (db : Store) (ada_required : bool) : list Street :=
  filter (fun edge => included ada_required edge = true) (streets db).

Definition is_node (db : Store) (u : string) : Prop :=
  exists doc, doc ∈ intersections db /\ intersection_id doc = u.

(** The three components of the snapshot of [engines/dijkstra.py]. *)
Definition adjacency (db : Store) (mode : Mode) (ada_required : bool)
    : gmap string (list Arc) :=
  (engines_dijkstra.build_adjacency_list db mode ada_required).1.1.

Definition coords_of (db : Store) : gmap string (list Q) :=
  (foldl add_intersection (∅, ∅) (intersections db)).2.

Definition excluded_count (db : Store) (ada_required : bool) : nat :=
  length (filter (fun edge => included ada_required edge = false) (streets db)).

(** The result of [dijkstra] read off a result of [compute_route]. *)
Definition to_services_route (r : engines_dijkstra.Route) : services_dijkstra.Route :=
  {| services_dijkstra.path := engines_dijkstra.path r;
     services_dijkstra.coordinates := engines_dijkstra.coordinates r;
     services_dijkstra.total_cost := engines_dijkstra.total_cost r;
     services_dijkstra.mode := engines_dijkstra.mode r |}.

(** [p] is a cheapest route from [origin] to [destination] in [adj]: it
    starts at [origin], ends at [destination], follows arcs of total weight
    [W], no route between the two has a smaller total weight, and [c] is
    [W] rounded to four decimal places. *)
Definition cheapest_route (adj : gmap string (list Arc)) (origin destination : string)
    (p : list string) (c : Q) : Prop :=
  exists W, route adj origin p destination W
    /\ head p = Some origin /\ last p = Some destination
    /\ (forall p' W', route adj origin p' destination W' -> W <= W')
    /\ c == py_round W 4.

(** The street name contains the pattern, case-insensitively. *)
Definition name_matches (pattern : string) (edge : Street) : bool :=
  services_gemini.contains (services_gemini.lower pattern)
    (services_gemini.lower (name edge)).

(** What [_update_danger_scores] does to one street. *)
Definition blend_if_matching (pattern : string) (severity : Z) (edge : Street) : Street :=
  if name_matches pattern edge
  then services_gemini.set_danger_score edge
         (services_gemini.blend (danger_score edge) severity)
  else edge.

(** The score after [n] observations of the same severity. *)
Fixpoint blend_n (n : nat) (old : Q) (severity : Z) : Q :=
  match n with
  | O => old
  | S n => services_gemini.blend (blend_n n old severity) severity
  end.

(** The score has at most two decimal places. *)
Definition on_grid (x : Q) : Prop := exists k : Z, x == k # 100.

(** ** The route endpoints *)

(** [HTTPException(status_code, detail)] *)
Record HTTPException := {
  status_code : nat;
  detail : string
}.

(** How a request handler ends: with a response body, with an
    [HTTPException], with an exception it does not catch; or the model
    gives no answer (an exhausted step budget, a store query outside the
    model). *)
Inductive Reply (E A : Type) :=
| Responds (body : A)
| Fails (exc : HTTPException)
| Propagates (e : E)
| NoAnswer.
Arguments Responds {E A} body.
Arguments Fails {E A} exc.
Arguments Propagates {E A} e.
Arguments NoAnswer {E A}.

(** *** main.py *)

Module main.

(** [str(exc)] for the [ValueError]s of [engines/dijkstra.py]. *)
Definition str (msg : Message) : string :=
  match msg with
  | OriginNotFound origin => "Origin node '" +:+ origin +:+ "' not found in graph"
  | DestinationNotFound destination =>
      "Destination node '" +:+ destination +:+ "' not found in graph"
  | NoPath origin destination =>
      "No path between '" +:+ origin +:+ "' and '" +:+ destination +:+ "'"
  end.

(** [RouteRequest.mode] is a [str]: the engine receives any string, tests
    it with [mode == "safest"] only and puts it in its result unchanged. *)
Definition mode_of_str (mode : string) : Mode :=
  if decide (mode = "safest") then safest else shortest.

(** [RouteResponse], filled from the dict of [compute_route]. *)
Record RouteResponse := {
  path : list string;
  coordinates : list (list Q);
  total_cost : Q;
  mode : string;
  ada_required : bool;
  hazards_bypassed : nat
}.

(** [POST /api/route/safewalk]: [ValueError] becomes 404 with the message
    as detail, every other exception 500. *)
Definition route_safewalk (db : Store) (origin destination mode : string)
    (ada_required : bool) : Reply PyError RouteResponse :=
  match engines_dijkstra.compute_route db origin destination
          (mode_of_str mode) ada_required with
  | Returns result =>
      Responds {| path := engines_dijkstra.path result;
                  coordinates := engines_dijkstra.coordinates result;
                  total_cost := engines_dijkstra.total_cost result;
                  mode := mode;
                  ada_required := engines_dijkstra.ada_required result;
                  hazards_bypassed := engines_dijkstra.hazards_bypassed result |}
  | Raises (ValueError msg) => Fails {| status_code := 404; detail := str msg |}
  | Raises (KeyError _) =>
      Fails {| status_code := 500; detail := "Route computation failed" |}
  | OutOfFuel => NoAnswer
  end.

End main.

(** *** app/routers/routing.py *)

Module routers_routing.

(** [str(exc)] for the [ValueError]s of [app/services/dijkstra.py]. *)
Definition str (msg : Message) : string :=
  match msg with
  | OriginNotFound start_id => "Start node " +:+ start_id +:+ " not found in graph"
  | DestinationNotFound end_id => "End node " +:+ end_id +:+ " not found in graph"
  | NoPath start_id end_id =>
      "No path exists between " +:+ start_id +:+ " and " +:+ end_id
  end.

Section get_safe_route.

(** [ObjectId.is_valid] of the [bson] package. *)
Variable is_valid : string -> bool.

(** [GET /api/route]: the ids are checked first; [ValueError] becomes 404;
    no other exception is caught. *)
Definition get_safe_route (db : Store) (start end_ : string) (mode : Mode)
    : Reply PyError services_dijkstra.Route :=
  if negb (is_valid start) || negb (is_valid end_) then
    Fails {| status_code := 400; detail := "Invalid ObjectId format" |}
  else
    match services_dijkstra.dijkstra db start end_ mode with
    | Returns result => Responds result
    | Raises (ValueError msg) => Fails {| status_code := 404; detail := str msg |}
    | Raises (KeyError key) => Propagates (KeyError key)
    | OutOfFuel => NoAnswer
    end.

End get_safe_route.

End routers_routing.

(** The string of a mode, [Literal["safest", "shortest"]]. *)
Definition str_of_mode (mode : Mode) : string :=
  match mode with
  | safest => "safest"
  | shortest => "shortest"
  end.

(** Every street starts and ends at an intersection of the store. *)
Definition endpoints_exist (db : Store) : Prop :=
  forall edge, edge ∈ streets db ->
    is_node db (start_intersection_id edge) /\ is_node db (end_intersection_id edge).

(** ** Answers of the language model

    The text of an answer is a Python [str]; the model covers the strings
    whose code points are below 256, one character each. *)

Module py_str.

(** ["\n"] *)
Definition newline : string := String "010"%char EmptyString.

(** [c.isspace()]: the white space among the code points below 256. *)
Definition isspace (c : ascii) : bool :=
  let n := nat_of_ascii c in
  ((9 <=? n)%nat && (n <=? 13)%nat) || ((28 <=? n)%nat && (n <=? 32)%nat)
  || (n =? 133)%nat || (n =? 160)%nat.

Fixpoint lstrip (s : string) : string :=
  match s with
  | EmptyString => EmptyString
  | String c s' => if isspace c then lstrip s' else s
  end.

Fixpoint rstrip (s : string) : string :=
  match s with
  | EmptyString => EmptyString
  | String c s' =>
      match rstrip s' with
      | EmptyString => if isspace c then EmptyString else String c EmptyString
      | r => String c r
      end
  end.

(** [s.strip()] *)
Definition strip (s : string) : string := rstrip (lstrip s).

(** [s[n:]] *)
Fixpoint drop (n : nat) (s : string) : string :=
  match n, s with
  | O, _ => s
  | S _, EmptyString => EmptyString
  | S n, String _ s' => drop n s'
  end.

(** [s.split(sep, 1)] for a non-empty [sep]: [s] is cut at the first
    occurrence of [sep]. *)
Fixpoint split1 (sep s : string) : list string :=
  if services_gemini.starts_with sep s
  then [EmptyString; drop (String.length sep) s]
  else match s with
       | EmptyString => [EmptyString]
       | String c s' =>
           match split1 sep s' with
           | head :: rest => String c head :: rest
           | [] => []
           end
       end.

(** [s.rsplit(sep, 1)] for a non-empty [sep]: [s] is cut at the last
    occurrence of [sep]. *)
Fixpoint rsplit1 (sep s : string) : list string :=
  match s with
  | EmptyString => [EmptyString]
  | String c s' =>
      if services_gemini.contains sep s' then
        match rsplit1 sep s' with
        | head :: rest => String c head :: rest
        | [] => []
        end
      else if services_gemini.starts_with sep s
      then [EmptyString; drop (String.length sep) s]
      else [s]
  end.

End py_str.

(** The three lines that [parse_incident] of [app/services/gemini.py] and
    [_parse_json_response] of [engines/ai_triage.py] share: the answer is
    stripped, and when it starts with a fence the text after its first
    line and before its last fence is taken and stripped.  [None] is the
    [IndexError] of [split("\n", 1)[1]]. *)
Definition strip_fences (text : string) : option string :=
  let text := py_str.strip text in
  if services_gemini.starts_with "```" text then
    rest ← py_str.split1 py_str.newline text !! 1%nat;
    inner ← py_str.rsplit1 "```" rest !! 0%nat;
    Some (py_str.strip inner)
  else Some text.

#[local] Set Warnings "-register-all".

(** A value returned by [json.loads]; a float is [nan], an infinity or
    an exact value. *)
Inductive Json :=
| JNull
| JBool (b : bool)
| JInt (n : Z)
| JFloat (x : Q)
| JNaN
| JInfinity (negative : bool)
| JString (s : string)
| JArray (items : list Json)
| JObject (members : list (string * Json)).

(** [members.get(key, default)] on a dict given by its items. *)
Fixpoint dict_get (members : list (string * Json)) (key : string) (default : Json)
    : Json :=
  match members with
  | [] => default
  | (k, v) :: members => if decide (k = key) then v else dict_get members key default
  end.

(** The truth value of [v] in a condition. *)
Definition truthy (v : Json) : bool :=
  match v with
  | JNull => false
  | JBool b => b
  | JInt n => negb (n =? 0)%Z
  | JFloat x => negb (Qeq_bool x 0)
  | JNaN | JInfinity _ => true
  | JString s => negb (bool_decide (s = EmptyString))
  | JArray items => match items with [] => false | _ => true end
  | JObject members => match members with [] => false | _ => true end
  end.

(** *** engines/ai_triage.py *)

Module engines_ai_triage.

Inductive ParseError :=
| JSONDecodeError (message : string)
| IndexError.

(** [_parse_json_response(text)]; [json_loads] is [json.loads], which
    returns a value or the message of its [JSONDecodeError]. *)
Definition _parse_json_response (json_loads : string -> Json + string) (text : string)
    : Json + ParseError :=
  match strip_fences text with
  | None => inr IndexError
  | Some cleaned =>
      match json_loads cleaned with
      | inl parsed => inl parsed
      | inr message => inr (JSONDecodeError message)
      end
  end.

End engines_ai_triage.

(** *** app/services/gemini.py: parsing and ingestion *)

Module incidents.

Inductive Exception :=
| RuntimeError (message : string)
| ValueError (message : string)
| TypeError
| OverflowError
| AttributeError.

(** The outcome of a call: a value, an exception; or the model gives no
    answer (a [$regex] outside the patterns the model covers). *)
Inductive Result (A : Type) :=
| Ok (a : A)
| Raise (e : Exception)
| Unmodelled.
Arguments Ok {A} a.
Arguments Raise {A} e.
Arguments Unmodelled {A}.

Definition result_bind {A B : Type} (k : A -> Result B) (c : Result A) : Result B :=
  match c with
  | Ok a => k a
  | Raise e => Raise e
  | Unmodelled => Unmodelled
  end.

#[export] Instance result_mbind : MBind Result := @result_bind.

(** An incident document. *)
Record Incident := {
  incident_id : string;
  raw_text : string;
  parsed_street : Json;
  severity : Z;
  category : Json;
  location : option (list Q);
  reported_at : Z;
  resolved : bool
}.

Section gemini.

(** [json.loads]: a value, or the message of a [JSONDecodeError]. *)
Variable json_loads : string -> Json + string.

(** [int(s)] on a [str]: a value, or the message of a [ValueError]. *)
Variable int_of_str : string -> Z + string.

(** [int(v)] *)
Definition int (v : Json) : Result Z :=
  match v with
  | JBool b => Ok (if b then 1 else 0)%Z
  | JInt n => Ok n
  | JFloat x => Ok (Z.quot (Qnum x) (Zpos (Qden x)))
  | JNaN => Raise (ValueError "cannot convert float NaN to integer")
  | JInfinity _ => Raise OverflowError
  | JString s =>
      match int_of_str s with
      | inl n => Ok n
      | inr message => Raise (ValueError message)
      end
  | JNull | JArray _ | JObject _ => Raise TypeError
  end.

(** [parsed.get(...)] needs a dict. *)
Definition as_dict (parsed : Json) : Result (list (string * Json)) :=
  match parsed with
  | JObject members => Ok members
  | _ => Raise AttributeError
  end.

(** [parse_incident(raw_text)]; [response_text] is the text of the answer
    of the language model.  Returns [street], [severity] and [category]. *)
Definition parse_incident (gemini_api_key response_text : string)
    : Result (Json * Z * Json) :=
  if decide (gemini_api_key = EmptyString)
  then Raise (RuntimeError "GEMINI_API_KEY is not set")
  else
    match strip_fences response_text with
    | None =>
        Raise (ValueError ("Failed to parse Gemini response: "
                           +:+ "list index out of range"))
    | Some text =>
        match json_loads text with
        | inr message =>
            Raise (ValueError ("Failed to parse Gemini response: " +:+ message))
        | inl parsed =>
            members ← as_dict parsed;
            n ← int (dict_get members "severity" (JInt 50));
            let severity := Z.max 1 (Z.min 100 n) in
            Ok (dict_get members "street" JNull, severity,
                dict_get members "category" (JString "other"))
        end
    end.

(** [ingest_incident(raw_text, location)] on the incidents and streets
    collections; [now] is the clock and [inserted_id] the id the store
    gives the new document.  Returns the collections with the outcome. *)
Definition ingest_incident (gemini_api_key response_text : string)
    (now : Z) (inserted_id : string)
    (incidents : list Incident) (streets : list Street)
    (raw_text : string) (location : option (list Q))
    : list Incident * list Street * Result Incident :=
  match parse_incident gemini_api_key response_text with
  | Raise e => (incidents, streets, Raise e)
  | Unmodelled => (incidents, streets, Unmodelled)
  | Ok (street, severity, category) =>
      let doc := {| incident_id := inserted_id;
                    raw_text := raw_text;
                    parsed_street := street;
                    severity := severity;
                    category := category;
                    location := location;
                    reported_at := now;
                    resolved := false |} in
      let incidents := incidents ++ [doc] in
      if truthy street then
        match street with
        | JString street_name =>
            match services_gemini._update_danger_scores streets street_name severity with
            | Some (streets, _) => (incidents, streets, Ok doc)
            | None => (incidents, streets, Unmodelled)
            end
        | _ => (incidents, streets, Unmodelled)
        end
      else (incidents, streets, Ok doc)
  end.

(** [POST /api/incidents] of [app/routers/incidents.py]: the location is
    kept when both coordinates are given; [RuntimeError] becomes 503 and
    [ValueError] 502, each with its message. *)
Definition report_incident (gemini_api_key response_text : string)
    (now : Z) (inserted_id : string)
    (incidents : list Incident) (streets : list Street)
    (raw_text : string) (longitude latitude : option Q)
    : list Incident * list Street * Reply Exception Incident :=
  let location :=
    match longitude, latitude with
    | Some lng, Some lat => Some [lng; lat]
    | _, _ => None
    end in
  let '(incidents, streets, outcome) :=
    ingest_incident gemini_api_key response_text now inserted_id
      incidents streets raw_text location in
  (incidents, streets,
   match outcome with
   | Ok doc => Responds doc
   | Raise (RuntimeError message) =>
       Fails {| status_code := 503; detail := message |}
   | Raise (ValueError message) =>
       Fails {| status_code := 502; detail := message |}
   | Raise e => Propagates e
   | Unmodelled => NoAnswer
   end).

End gemini.

End incidents.

(** Every character of [s] is white space. *)
Fixpoint all_space (s : string) : bool :=
  match s with
  | EmptyString => true
  | String c s' => py_str.isspace c && all_space s'
  end.

(** Two street documents that differ in [danger_score] at most. *)
Definition same_but_score (e e' : Street) : Prop :=
  street_id e' = street_id e /\ name e' = name e
  /\ start_intersection_id e' = start_intersection_id e
  /\ end_intersection_id e' = end_intersection_id e
  /\ distance_m e' = distance_m e
  /\ is_accessible e' = is_accessible e
  /\ bidirectional e' = bidirectional e.


(** ** engines/blockchain.py

    The ledger collection is the list of its documents in insertion
    order.  A datetime is the instant it denotes, an integer count of
    clock ticks; the collection orders documents by it. *)

Module engines_blockchain.

(** A document of the ledger; one written by other code may lack
    ["tx_hash"]. *)
Record LedgerDoc := {
  _id : string;
  timestamp : Z;
  entry_type : string;
  description : string;
  source_module : string;
  data : list (string * Json);
  tx_hash : option string;
  prev_hash : string }.

(** [s * n] *)
Fixpoint repeat_str (s : string) (n : nat) : string :=
  match n with
  | O => EmptyString
  | S n => s +:+ repeat_str s n
  end.

(** [col.find_one(sort=[("timestamp", -1)])]: a document of the greatest
    timestamp, [None] on an empty collection.  Among documents of equal
    timestamps the model takes the first inserted. *)
Fixpoint find_newest (col : list LedgerDoc) : option LedgerDoc :=
  match col with
  | [] => None
  | doc :: col =>
      match find_newest col with
      | Some doc' => if (timestamp doc <? timestamp doc')%Z then Some doc' else Some doc
      | None => Some doc
      end
  end.

(** [_get_prev_hash()] *)
Definition _get_prev_hash (col : list LedgerDoc) : string :=
  match find_newest col with
  | Some last =>
      match tx_hash last with
      | Some h => h
      | None => repeat_str "0" 64
      end
  | None => repeat_str "0" 64
  end.

Section hashing.

(** [hashlib.sha256(payload.encode()).hexdigest()] *)
Variable sha256_hex : string -> string.
(** [now.isoformat()] of a reading of the clock. *)
Variable isoformat : Z -> string.
(** The datetime the collection keeps of a reading of the clock. *)
Variable stored : Z -> Z.

(** [_compute_hash(entry_type, description, prev_hash, ts)] *)
Definition _compute_hash (entry_type description prev_hash ts : string) : string :=
  sha256_hex (entry_type +:+ "|" +:+ description +:+ "|" +:+ prev_hash +:+ "|" +:+ ts).

(** [log_entry(entry_type, description, source_module, data)] on the
    collection [col]; [now] is the reading of the clock and [inserted_id]
    the id the collection gives the document.  Returns the collection
    afterwards and the record. *)
Definition log_entry (col : list LedgerDoc) (now : Z) (inserted_id : string)
    (entry_type description source_module : string)
    (data : option (list (string * Json))) : list LedgerDoc * LedgerDoc :=
  let prev_hash := _get_prev_hash col in
  let tx_hash := _compute_hash entry_type description prev_hash (isoformat now) in
  let record now :=
    {| _id := inserted_id;
       timestamp := now;
       entry_type := entry_type;
       description := description;
       source_module := source_module;
       data := default [] data;
       tx_hash := Some tx_hash;
       prev_hash := prev_hash |} in
  (col ++ [record (stored now)], record now).

End hashing.


(** A ledger of one document, written at instant 10. *)
Definition one_entry_ledger : list LedgerDoc :=
  [ {| _id := "id0"; timestamp := 10; entry_type := "RECORD_LOGGED";
       description := "first"; source_module := "Test"; data := [];
       tx_hash := Some "h0"; prev_hash := repeat_str "0" 64 |} ].

End engines_blockchain.

(** ** seed.py

    [insert_many] gives one id per document: [ids] are the ids of the
    intersections and [street_ids] those of the streets, in order. *)

Module seed_py.

(** [INTERSECTIONS]: the name and the coordinates of each document. *)
Definition INTERSECTIONS : list (string * list Q) :=
  [ ("Havener Center", [-91.7713; 37.9554]);
    ("Curtis Laws Wilson Library", [-91.7743; 37.9554]);
    ("10th & Pine St", [-91.7713; 37.9530]);
    ("10th & State St", [-91.7743; 37.9530]);
    ("12th & Pine St", [-91.7713; 37.9505]);
    ("Innovation Lab", [-91.7743; 37.9505]) ].

(** [_edge(name, a, b, dist, danger, accessible)]: the document, to be
    completed with the id it is inserted under; [None] is the
    [IndexError] of an index out of range. *)
Definition _edge (ids : list string) (name : string) (a b : nat) (dist danger : Q)
    (accessible : bool) : option (string -> Street) :=
  start ← ids !! a;
  end_ ← ids !! b;
  _ ← INTERSECTIONS !! a;
  _ ← INTERSECTIONS !! b;
  Some (fun inserted_id =>
          {| street_id := inserted_id; name := name;
             start_intersection_id := start; end_intersection_id := end_;
             distance_m := dist; danger_score := danger;
             is_accessible := Some accessible; bidirectional := Some true |}).

(** [seed()]: the store after the two [insert_many]. *)
Definition seed (ids street_ids : list string) : option Store :=
  streets ← mapM (fun edge : option (string -> Street) => edge)
    [ _edge ids "Pine St (Havener→Library)" 0 1 280 5 true;
      _edge ids "Rolla St (Pine→10th)" 0 2 270 10 true;
      _edge ids "State St (Pine→10th)" 1 3 270 15 false;
      _edge ids "10th St (Rolla→State)" 2 3 280 8 true;
      _edge ids "Rolla St (10th→12th)" 2 4 280 20 true;
      _edge ids "State St (10th→12th)" 3 5 280 65 false;
      _edge ids "12th St (Pine→Innovation)" 4 5 280 40 true ];
  Some {| intersections :=
            zip_with (fun inserted_id doc =>
                        {| intersection_id := inserted_id;
                           location_coordinates := doc.2 |})
              ids INTERSECTIONS;
          streets := zip_with (fun edge inserted_id => edge inserted_id)
                       streets street_ids |}.

End seed_py.

(** ** The triage endpoints

    [engines/ai_triage.py] and the two handlers of [main.py] that call
    it.  The text of the answer of the language model is an input. *)

(** [members[key] = v] on a dict given by its items. *)
Fixpoint dict_set (members : list (string * Json)) (key : string) (v : Json)
    : list (string * Json) :=
  match members with
  | [] => [(key, v)]
  | (k, x) :: members =>
      if decide (k = key) then (k, v) :: members else (k, x) :: dict_set members key v
  end.

Module triage.
Import incidents.

(** [sam3_segment(image_url)] *)
Definition sam3_segment (image_url : string) : Json :=
  JObject
    [ ("model", JString "SAM3 (stub)");
      ("segments",
       JArray
         [ JObject
             [ ("label", JString "ADA_OBSTRUCTION");
               ("confidence", JFloat 0.984);
               ("bbox", JObject [ ("x", JInt 120); ("y", JInt 80);
                                  ("width", JInt 192); ("height", JInt 128) ]) ] ]);
      ("processing_time_ms", JInt 340) ].

Section gemini.

(** [json.loads]: a value, or the message of a [JSONDecodeError]. *)
Variable json_loads : string -> Json + string.

(** The [try] block around [_parse_json_response(response.text)]. *)
Definition parse_answer (response_text : string) : Result Json :=
  match engines_ai_triage._parse_json_response json_loads response_text with
  | inl parsed => Ok parsed
  | inr (engines_ai_triage.JSONDecodeError message) =>
      Raise (ValueError ("Failed to parse Gemini response: " +:+ message))
  | inr engines_ai_triage.IndexError =>
      Raise (ValueError ("Failed to parse Gemini response: "
                         +:+ "list index out of range"))
  end.

(** [triage_vision(description)]; the log line reads
    [parsed.get("hazard_type")], which needs a dict. *)
Definition triage_vision (gemini_api_key response_text : string) : Result Json :=
  if decide (gemini_api_key = EmptyString)
  then Raise (RuntimeError "GEMINI_API_KEY is not set")
  else
    parsed ← parse_answer response_text;
    _ ← as_dict parsed;
    Ok parsed.

(** [triage_voice(transcript, location)]; the log line reads
    [parsed.get("incident_type")]. *)
Definition triage_voice (gemini_api_key response_text : string) : Result Json :=
  if decide (gemini_api_key = EmptyString)
  then Raise (RuntimeError "GEMINI_API_KEY is not set")
  else
    parsed ← parse_answer response_text;
    _ ← as_dict parsed;
    Ok parsed.

(** The two [except] clauses of the handlers. *)
Definition http_errors (outcome : Result Json) : Reply Exception Json :=
  match outcome with
  | Ok body => Responds body
  | Raise (RuntimeError message) => Fails {| status_code := 503; detail := message |}
  | Raise (ValueError message) => Fails {| status_code := 502; detail := message |}
  | Raise e => Propagates e
  | Unmodelled => NoAnswer
  end.

(** [POST /api/vision/analyze]: the value the handler returns. *)
Definition vision_analyze (gemini_api_key response_text : string)
    (image_url : option string) : Reply Exception Json :=
  http_errors
    (triage ← triage_vision gemini_api_key response_text;
     match image_url with
     | Some (String _ _ as url) =>
         match triage with
         | JObject members => Ok (JObject (dict_set members "sam3_result" (sam3_segment url)))
         | _ => Raise TypeError
         end
     | _ => Ok triage
     end).

(** [POST /api/voice/intake]: the value the handler returns. *)
Definition voice_intake (gemini_api_key response_text : string)
    : Reply Exception Json :=
  http_errors (triage_voice gemini_api_key response_text).

End gemini.

End triage.

(** ** More vocabulary of the statements *)






(** A store with other streets and the same intersections. *)
Definition with_streets (db : Store) (streets' : list Street) : Store :=
  {| intersections := intersections db; streets := streets' |}.

(** The streets of [col'] are those of [col] with scores that are no
    lower. *)
Definition scores_raised (col col' : list Street) : Prop :=
  Forall2 (fun e e' => same_but_score e e' /\ danger_score e <= danger_score e') col col'.

(** An arc to the same neighbour that weighs no less. *)
Definition arc_le (a a' : Arc) : Prop :=
  arc_neighbour a = arc_neighbour a' /\ arc_weight a <= arc_weight a'.

(** * Verification *)

(** ** Arithmetic on costs *)

Ltac dlia := zify; Z.to_euclidean_division_equations; lia.

(** ** Sequencing *)

Lemma getitem_Some {A} (d : gmap string A) key v :
  d !! key = Some v -> getitem d key = Returns v.
Proof. unfold getitem. now intros ->. Qed.

Lemma getitem_None {A} (d : gmap string A) key :
  d !! key = None -> getitem d key = Raises (KeyError key).
Proof. unfold getitem. now intros ->. Qed.

(** Unfolds one sequencing step whose first call has been evaluated. *)
Ltac outcome_simpl := cbn [mbind outcome_mbind outcome_bind].

Lemma Qltb_lt (x y : Q) : Qltb x y = true <-> x < y.
Proof. unfold Qltb, Qlt. apply Z.ltb_lt. Qed.

Lemma Qltb_ge (x y : Q) : Qltb x y = false <-> y <= x.
Proof. unfold Qltb, Qle. apply Z.ltb_ge. Qed.

Lemma py_max_floor (a b : Q) : b <= py_max a b.
Proof.
  unfold py_max. destruct (Qltb a b) eqn:E.
  - lra.
  - now apply Qltb_ge.
Qed.

Lemma py_max_ge (a b : Q) : a <= py_max a b.
Proof.
  unfold py_max. destruct (Qltb a b) eqn:E.
  - apply Qltb_lt in E. lra.
  - lra.
Qed.

Lemma py_min_le_r (a b : Q) : py_min a b <= a.
Proof.
  unfold py_min. destruct (Qltb b a) eqn:E.
  - apply Qltb_lt in E. lra.
  - lra.
Qed.

Lemma py_min_le_l (a b : Q) : py_min a b <= b.
Proof.
  unfold py_min. destruct (Qltb b a) eqn:E.
  - lra.
  - now apply Qltb_ge.
Qed.

Lemma Qltb_proper (x x' y y' : Q) :
  x == x' -> y == y' -> Qltb x y = Qltb x' y'.
Proof.
  intros Hx Hy. destruct (Qltb x' y') eqn:E.
  - apply Qltb_lt in E. apply Qltb_lt. lra.
  - apply Qltb_ge in E. apply Qltb_ge. lra.
Qed.

(** *** Rounding *)

Lemma round_half_even_proper (x y : Q) :
  x == y -> round_half_even x = round_half_even y.
Proof.
  intros H. unfold round_half_even. rewrite (Qfloor_comp _ _ H).
  rewrite (Qltb_proper (2 * (x - inject_Z (Qfloor y))) (2 * (y - inject_Z (Qfloor y))) 1 1),
    (Qltb_proper 1 1 (2 * (x - inject_Z (Qfloor y))) (2 * (y - inject_Z (Qfloor y))));
    try reflexivity; lra.
Qed.

(** The rounded value is within one half of the exact value. *)
Lemma round_half_even_near (x : Q) :
  inject_Z (round_half_even x) - (1 # 2) <= x
  /\ x <= inject_Z (round_half_even x) + (1 # 2).
Proof.
  unfold round_half_even.
  pose proof (Qfloor_le x) as Hlo. pose proof (Qlt_floor x) as Hhi.
  rewrite inject_Z_plus in Hhi. change (inject_Z 1) with 1 in Hhi.
  destruct (Qltb (2 * (x - inject_Z (Qfloor x))) 1) eqn:E1.
  { apply Qltb_lt in E1. lra. }
  apply Qltb_ge in E1.
  assert (Hup : inject_Z (Qfloor x + 1) - (1 # 2) <= x
                /\ x <= inject_Z (Qfloor x + 1) + (1 # 2)).
  { rewrite inject_Z_plus. change (inject_Z 1) with 1. lra. }
  destruct (Qltb 1 (2 * (x - inject_Z (Qfloor x)))) eqn:E2; [done|].
  apply Qltb_ge in E2. destruct (Z.even (Qfloor x)); [lra|done].
Qed.

Lemma round_half_even_mono (x y : Q) :
  x <= y -> (round_half_even x <= round_half_even y)%Z.
Proof.
  intros Hxy.
  destruct (Z_le_gt_dec (round_half_even x) (round_half_even y)) as [|Hgt]; [done|].
  exfalso.
  destruct (round_half_even_near x) as [Hx _].
  destruct (round_half_even_near y) as [_ Hy].
  assert (Hz : inject_Z (round_half_even y) + 1 <= inject_Z (round_half_even x)).
  { change 1 with (inject_Z 1). rewrite <- inject_Z_plus, <- Zle_Qle. lia. }
  assert (Heq : x == y) by lra.
  apply round_half_even_proper in Heq. lia.
Qed.

Lemma round_half_even_Z (k : Z) : round_half_even (inject_Z k) = k.
Proof.
  unfold round_half_even. rewrite Qfloor_Z.
  replace (Qltb (2 * (inject_Z k - inject_Z k)) 1) with true; [done|].
  symmetry. apply Qltb_lt. lra.
Qed.

Lemma py_round_proper (x y : Q) (n : nat) : x == y -> py_round x n = py_round y n.
Proof.
  intros H. unfold py_round. destruct n.
  - now rewrite (round_half_even_proper _ _ H).
  - f_equal. apply round_half_even_proper. now rewrite H.
Qed.

Lemma py_round_mono (x y : Q) (n : nat) : x <= y -> py_round x n <= py_round y n.
Proof.
  intros H. unfold py_round. destruct n.
  - rewrite <- Zle_Qle. now apply round_half_even_mono.
  - set (scale := (10 ^ Pos.of_nat (S n))%positive).
    unfold Qle. simpl. apply Z.mul_le_mono_nonneg_r; [lia|].
    apply round_half_even_mono.
    assert (0 < inject_Z (Z.pos scale)) by (unfold Qlt; simpl; lia).
    nra.
Qed.

(** A value with at most [n] decimals is its own rounding. *)
Lemma py_round_grid (k : Z) (n : nat) :
  py_round (k # Pos.pow 10 (Pos.of_nat (S n))) (S n) == k # Pos.pow 10 (Pos.of_nat (S n)).
Proof.
  unfold py_round. set (scale := (10 ^ Pos.of_nat (S n))%positive).
  rewrite (round_half_even_proper _ (inject_Z k)), round_half_even_Z; [reflexivity|].
  unfold Qeq. simpl. lia.
Qed.

(** ** heapq keeps the smallest cost at the root *)

Module heapq_facts.
Import heapq.

(** The heap invariant of [heapq]: [heap[(i-1)>>1] <= heap[i]]. *)
Definition heap_ordered (h : list _QueueItem) : Prop :=
  forall i x p, (0 < i)%nat -> h !! i = Some x ->
    h !! ((i - 1) / 2)%nat = Some p -> cost p <= cost x.

(** The invariant while an item travels: position [pos] is a hole; every
    parent-child pair away from the hole is in order, and so is the
    hole's parent with the hole's children. *)
Definition hole_ordered (h : list _QueueItem) (pos : nat) : Prop :=
  (forall i x p, (0 < i)%nat -> i <> pos -> ((i - 1) / 2)%nat <> pos ->
     h !! i = Some x -> h !! ((i - 1) / 2)%nat = Some p -> cost p <= cost x)
  /\ (forall c x g, (0 < pos)%nat -> (0 < c)%nat -> ((c - 1) / 2)%nat = pos ->
        h !! c = Some x -> h !! ((pos - 1) / 2)%nat = Some g -> cost g <= cost x).

(** The travelling item is no greater than the children of the hole. *)
Definition below_hole (h : list _QueueItem) (pos : nat) (newitem : _QueueItem) : Prop :=
  forall c x, (0 < c)%nat -> ((c - 1) / 2)%nat = pos -> h !! c = Some x ->
    cost newitem <= cost x.

Lemma heap_ordered_nil : heap_ordered [].
Proof. intros i x p _ H. rewrite lookup_nil in H. discriminate. Qed.

Lemma heap_ordered_singleton x : heap_ordered [x].
Proof.
  intros i y p Hi H _. destruct i; [lia|].
  simpl in H. rewrite lookup_nil in H. discriminate.
Qed.

Lemma heap_ordered_prefix (h k : list _QueueItem) :
  heap_ordered (h ++ k) -> heap_ordered h.
Proof.
  intros Hok i x p Hi Hx Hp.
  apply (Hok i x p Hi); now apply lookup_app_l_Some.
Qed.

Lemma heap_ordered_root (h : list _QueueItem) (r : _QueueItem) :
  heap_ordered h -> h !! 0%nat = Some r ->
  forall i x, h !! i = Some x -> cost r <= cost x.
Proof.
  intros Hok Hr i. induction i as [i IH] using lt_wf_ind. intros x Hx.
  destruct (decide (i = 0%nat)) as [->|Hne].
  - rewrite Hr in Hx. injection Hx as <-. lra.
  - assert (Hlt : ((i - 1) / 2 < i)%nat) by dlia.
    destruct (lookup_lt_is_Some_2 h ((i - 1) / 2)%nat) as [p Hp].
    { apply lookup_lt_Some in Hx. lia. }
    specialize (IH _ Hlt p Hp).
    assert (cost p <= cost x) by (apply (Hok i x p); [lia|done..]).
    lra.
Qed.

Lemma fill_ordered (h : list _QueueItem) (pos : nat) (newitem : _QueueItem) :
  (pos < length h)%nat ->
  hole_ordered h pos -> below_hole h pos newitem ->
  (forall p, (0 < pos)%nat -> h !! ((pos - 1) / 2)%nat = Some p ->
     cost p <= cost newitem) ->
  heap_ordered (<[pos := newitem]> h).
Proof.
  intros Hlen [Ha _] Hb Hp i x p Hi Hx Hpar.
  destruct (decide (i = pos)) as [->|Hne].
  - rewrite list_lookup_insert_eq in Hx by done. injection Hx as <-.
    rewrite list_lookup_insert_ne in Hpar by dlia. now apply Hp.
  - rewrite list_lookup_insert_ne in Hx by done.
    destruct (decide (((i - 1) / 2)%nat = pos)) as [He|Hne'].
    + rewrite He, list_lookup_insert_eq in Hpar by done. injection Hpar as <-.
      now apply (Hb i).
    + rewrite list_lookup_insert_ne in Hpar by done. now apply (Ha i).
Qed.

Lemma hole_ordered_insert (h : list _QueueItem) (pos : nat) (x : _QueueItem) :
  hole_ordered (<[pos := x]> h) pos <-> hole_ordered h pos.
Proof.
  unfold hole_ordered. split; intros [Ha Hb]; split.
  - intros i y p Hi Hne Hne' Hy Hp. apply (Ha i); try done;
      now rewrite list_lookup_insert_ne.
  - intros c y g Hpos Hc He Hy Hg. apply (Hb c); try done;
      rewrite list_lookup_insert_ne; try done; dlia.
  - intros i y p Hi Hne Hne' Hy Hp.
    rewrite list_lookup_insert_ne in Hy, Hp by done. now apply (Ha i).
  - intros c y g Hpos Hc He Hy Hg.
    rewrite list_lookup_insert_ne in Hy, Hg by dlia. now apply (Hb c).
Qed.

Lemma below_hole_insert (h : list _QueueItem) (pos : nat) (x newitem : _QueueItem) :
  below_hole (<[pos := x]> h) pos newitem <-> below_hole h pos newitem.
Proof.
  unfold below_hole. split; intros Hb c y Hc He Hy.
  - apply (Hb c); try done. rewrite list_lookup_insert_ne; [done|dlia].
  - rewrite list_lookup_insert_ne in Hy by dlia. now apply (Hb c).
Qed.

(** One step of [_siftdown]: the parent drops into the hole. *)
Lemma hole_ordered_up (h : list _QueueItem) (pos : nat) (newitem parent : _QueueItem) :
  (0 < pos)%nat -> (pos < length h)%nat ->
  h !! ((pos - 1) / 2)%nat = Some parent ->
  cost newitem < cost parent ->
  hole_ordered h pos -> below_hole h pos newitem ->
  hole_ordered (<[pos := parent]> h) ((pos - 1) / 2)
  /\ below_hole (<[pos := parent]> h) ((pos - 1) / 2) newitem.
Proof.
  intros Hpos Hlen Hpar Hlt [Ha Hb] Hbelow.
  set (q := ((pos - 1) / 2)%nat) in *.
  assert (Hq : (q < pos)%nat) by (subst q; dlia).
  assert (Hqp : forall x, h !! q = Some x -> x = parent) by (intros; congruence).
  split; [split|].
  - intros i x p Hi Hne Hne' Hx Hp.
    destruct (decide (i = pos)) as [->|Hip]; [done|].
    rewrite list_lookup_insert_ne in Hx by done.
    destruct (decide (((i - 1) / 2)%nat = pos)) as [He|Hne2].
    + rewrite He, list_lookup_insert_eq in Hp by done. injection Hp as <-.
      now apply (Hb i).
    + rewrite list_lookup_insert_ne in Hp by done. now apply (Ha i).
  - intros c x g Hq0 Hc He Hx Hg.
    rewrite list_lookup_insert_ne in Hg by dlia.
    assert (cost g <= cost parent) by (apply (Ha q); [done|lia|dlia|done..]).
    destruct (decide (c = pos)) as [->|Hcp].
    + rewrite list_lookup_insert_eq in Hx by done. now injection Hx as <-.
    + rewrite list_lookup_insert_ne in Hx by done.
      assert (cost parent <= cost x).
      { apply (Ha c); [done|done|lia|done|]. now rewrite He. }
      lra.
  - intros c x Hc He Hx.
    destruct (decide (c = pos)) as [->|Hcp].
    + rewrite list_lookup_insert_eq in Hx by done. injection Hx as <-. lra.
    + rewrite list_lookup_insert_ne in Hx by done.
      assert (cost parent <= cost x).
      { apply (Ha c); [done|done|lia|done|]. now rewrite He. }
      lra.
Qed.

Lemma siftdown_loop_ordered (fuel : nat) :
  forall (h : list _QueueItem) (pos : nat) (newitem : _QueueItem),
    (pos <= fuel)%nat -> (pos < length h)%nat ->
    hole_ordered h pos -> below_hole h pos newitem ->
    heap_ordered (_siftdown_loop fuel h 0 pos newitem).
Proof.
  induction fuel as [|fuel IH]; intros h pos newitem Hfuel Hlen Hh Hb;
    cbn [_siftdown_loop].
  - apply fill_ordered; try done; intros p Hpos; lia.
  - destruct (decide (0 < pos)%nat) as [Hpos|Hpos].
    + destruct (lookup_lt_is_Some_2 h ((pos - 1) / 2)%nat) as [parent Hpar]; [dlia|].
      rewrite Hpar. unfold item_lt. destruct (Qltb (cost newitem) (cost parent)) eqn:E.
      * apply Qltb_lt in E.
        destruct (hole_ordered_up h pos newitem parent) as [Hh' Hb']; try done.
        apply IH; try done; [dlia|]. rewrite length_insert. dlia.
      * apply Qltb_ge in E. apply fill_ordered; try done.
        intros p _ Hp. congruence.
    + apply fill_ordered; try done; intros p Hp; lia.
Qed.

(** Writing [y], the content of [j], over [i] and then [x] over [j]
    rearranges the list with [x] written over [i]. *)
Lemma insert_move_Permutation (h : list _QueueItem) (i j : nat) (x y : _QueueItem) :
  i <> j -> (i < length h)%nat -> h !! j = Some y ->
  <[j := x]> (<[i := y]> h) ≡ₚ <[i := x]> h.
Proof.
  intros Hne Hi Hj.
  destruct (lookup_lt_is_Some_2 h i Hi) as [z Hz].
  assert (Hperm : forall (l : list _QueueItem) k a b, l !! k = Some a ->
            a :: <[k := b]> l ≡ₚ b :: l).
  { induction l as [|c l IHl]; intros [|k] a b Hk; simplify_eq/=.
    - apply perm_swap.
    - rewrite (perm_swap c a), (IHl k a b Hk). apply perm_swap. }
  assert (Hj' : <[i := y]> h !! j = Some y) by now rewrite list_lookup_insert_ne.
  apply (Permutation_cons_inv (a := z)), (Permutation_cons_inv (a := y)).
  transitivity (x :: y :: h).
  - rewrite (perm_swap z y), (Hperm _ j y x Hj'), (perm_swap x z).
    now rewrite (Hperm _ i z y Hz).
  - rewrite (Hperm _ i z x Hz). apply perm_swap.
Qed.

Lemma siftdown_loop_Permutation (fuel : nat) :
  forall (h : list _QueueItem) (pos : nat) (newitem : _QueueItem),
    (pos < length h)%nat ->
    _siftdown_loop fuel h 0 pos newitem ≡ₚ <[pos := newitem]> h.
Proof.
  induction fuel as [|fuel IH]; intros h pos newitem Hlen;
    cbn [_siftdown_loop]; [done|].
  destruct (decide (0 < pos)%nat) as [Hpos|Hpos]; [|done].
  destruct (lookup_lt_is_Some_2 h ((pos - 1) / 2)%nat) as [parent Hpar]; [dlia|].
  rewrite Hpar. destruct (item_lt newitem parent); [|done].
  rewrite IH by (rewrite length_insert; dlia).
  apply insert_move_Permutation; [dlia|done..].
Qed.

Lemma siftdown_ordered (h : list _QueueItem) (pos : nat) (newitem : _QueueItem) :
  (pos < length h)%nat ->
  hole_ordered h pos -> below_hole h pos newitem ->
  heap_ordered (_siftdown (<[pos := newitem]> h) 0 pos).
Proof.
  intros Hlen Hh Hb. unfold _siftdown.
  rewrite list_lookup_insert_eq by done.
  apply siftdown_loop_ordered; [done|by rewrite length_insert|..].
  - now apply hole_ordered_insert.
  - now apply below_hole_insert.
Qed.

Lemma siftdown_Permutation (h : list _QueueItem) (pos : nat) :
  _siftdown h 0 pos ≡ₚ h.
Proof.
  unfold _siftdown. destruct (h !! pos) as [newitem|] eqn:E; [|done].
  rewrite siftdown_loop_Permutation by (now apply lookup_lt_Some in E).
  now rewrite list_insert_id.
Qed.

(** [heappush] *)

Lemma heappush_Permutation (h : list _QueueItem) (x : _QueueItem) :
  heappush h x ≡ₚ x :: h.
Proof.
  unfold heappush. rewrite siftdown_Permutation.
  symmetry. apply Permutation_cons_append.
Qed.

Lemma heappush_ordered (h : list _QueueItem) (x : _QueueItem) :
  heap_ordered h -> heap_ordered (heappush h x).
Proof.
  intros Hok. unfold heappush.
  replace (h ++ [x]) with (<[length h := x]> (h ++ [x])).
  2:{ apply list_insert_id. now rewrite lookup_app_r, Nat.sub_diag by lia. }
  assert (Hlook : forall i y, (i <> length h)%nat ->
            (h ++ [x]) !! i = Some y -> h !! i = Some y).
  { intros i y Hne Hy. rewrite lookup_app_l in Hy; [done|].
    apply lookup_lt_Some in Hy. rewrite length_app in Hy. simpl in Hy. lia. }
  apply siftdown_ordered.
  - rewrite length_app. simpl. lia.
  - split.
    + intros i y p Hi Hne Hne' Hy Hp. apply (Hok i); auto.
    + intros c y g _ Hc He Hy _. apply lookup_lt_Some in Hy.
      rewrite length_app in Hy. simpl in Hy. dlia.
  - intros c y Hc He Hy. apply lookup_lt_Some in Hy.
    rewrite length_app in Hy. simpl in Hy. dlia.
Qed.

(** One step of [_siftup]: the smaller child rises into the hole. *)
Lemma hole_ordered_down (h : list _QueueItem) (pos c : nat) (child : _QueueItem) :
  (pos < length h)%nat -> (0 < c)%nat -> ((c - 1) / 2)%nat = pos ->
  h !! c = Some child ->
  (forall s y, (0 < s)%nat -> ((s - 1) / 2)%nat = pos -> h !! s = Some y ->
     cost child <= cost y) ->
  hole_ordered h pos ->
  hole_ordered (<[pos := child]> h) c.
Proof.
  intros Hlen Hc Hcp Hchild Hmin [Ha Hb]. split.
  - intros i x p Hi Hne Hne' Hx Hp.
    destruct (decide (i = pos)) as [->|Hip].
    + rewrite list_lookup_insert_eq in Hx by done. injection Hx as <-.
      rewrite list_lookup_insert_ne in Hp by dlia. now apply (Hb c).
    + rewrite list_lookup_insert_ne in Hx by done.
      destruct (decide (((i - 1) / 2)%nat = pos)) as [He|Hne2].
      * rewrite He, list_lookup_insert_eq in Hp by done. injection Hp as <-.
        now apply (Hmin i).
      * rewrite list_lookup_insert_ne in Hp by done. now apply (Ha i).
  - intros d x g _ Hd He Hx Hg.
    rewrite Hcp, list_lookup_insert_eq in Hg by done. injection Hg as <-.
    rewrite list_lookup_insert_ne in Hx by dlia.
    apply (Ha d); [done|dlia|dlia|done|]. now rewrite He.
Qed.

Lemma siftup_loop_spec (fuel : nat) :
  forall (h h' : list _QueueItem) (pos pos' : nat),
    (pos < length h)%nat -> (length h <= fuel + pos)%nat ->
    hole_ordered h pos ->
    _siftup_loop fuel h (length h) pos = (h', pos') ->
    length h' = length h /\ (pos' < length h)%nat
    /\ hole_ordered h' pos' /\ (length h <= 2 * pos' + 1)%nat
    /\ forall x, <[pos' := x]> h' ≡ₚ <[pos := x]> h.
Proof.
  induction fuel as [|fuel IH]; intros h h' pos pos' Hlen Hfuel Hh;
    cbn [_siftup_loop]; [lia|].
  destruct (decide (2 * pos + 1 < length h)%nat) as [Hleft|Hleaf].
  2:{ intros [= <- <-]. split_and!; try done; lia. }
  set (c := if decide (2 * pos + 1 + 1 < length h)%nat
            then match h !! (2 * pos + 1)%nat, h !! (2 * pos + 1 + 1)%nat with
                 | Some l, Some r =>
                     if item_lt l r then (2 * pos + 1)%nat else (2 * pos + 1 + 1)%nat
                 | _, _ => (2 * pos + 1)%nat
                 end
            else (2 * pos + 1)%nat).
  destruct (lookup_lt_is_Some_2 h (2 * pos + 1)%nat Hleft) as [l Hl].
  assert (Hc : (c < length h)%nat /\ (0 < c)%nat /\ ((c - 1) / 2)%nat = pos
               /\ forall child, h !! c = Some child ->
                  forall s y, (0 < s)%nat -> ((s - 1) / 2)%nat = pos ->
                    h !! s = Some y -> cost child <= cost y).
  { subst c. destruct (decide (2 * pos + 1 + 1 < length h)%nat) as [Hright|Hright].
    - destruct (lookup_lt_is_Some_2 h (2 * pos + 1 + 1)%nat Hright) as [r Hr].
      rewrite Hl, Hr. unfold item_lt. destruct (Qltb (cost l) (cost r)) eqn:E.
      + apply Qltb_lt in E. repeat split; [done|lia|dlia|].
        intros child Hch s y Hs Hsp Hy.
        assert (s = 2 * pos + 1 \/ s = 2 * pos + 1 + 1)%nat as [->| ->] by dlia;
          simplify_eq; lra.
      + apply Qltb_ge in E. repeat split; [done|lia|dlia|].
        intros child Hch s y Hs Hsp Hy.
        assert (s = 2 * pos + 1 \/ s = 2 * pos + 1 + 1)%nat as [->| ->] by dlia;
          simplify_eq; lra.
    - repeat split; [done|lia|dlia|].
      intros child Hch s y Hs Hsp Hy.
      assert (s = 2 * pos + 1)%nat as -> by (apply lookup_lt_Some in Hy; dlia).
      simplify_eq. lra. }
  destruct Hc as (Hclen & Hc0 & Hcp & Hmin).
  destruct (lookup_lt_is_Some_2 h c Hclen) as [child Hchild]. rewrite Hchild.
  intros Hloop.
  assert (Hlen' : length (<[pos := child]> h) = length h) by apply length_insert.
  rewrite <- Hlen' in Hloop.
  apply IH in Hloop; [| rewrite Hlen'; dlia.. |
                      apply hole_ordered_down; eauto].
  rewrite Hlen' in Hloop. destruct Hloop as (? & ? & ? & ? & Hperm).
  split_and!; try done.
  intros x. rewrite Hperm. apply insert_move_Permutation; [dlia|done..].
Qed.

Lemma siftup_root_spec (h : list _QueueItem) (newitem : _QueueItem) :
  hole_ordered (newitem :: h) 0 ->
  heap_ordered (_siftup (newitem :: h) 0) /\ _siftup (newitem :: h) 0 ≡ₚ newitem :: h.
Proof.
  intros Hh. unfold _siftup. cbn [lookup list_lookup].
  destruct (_siftup_loop _ _ _ _) as [h' pos'] eqn:Hloop.
  apply siftup_loop_spec in Hloop; [|simpl; lia..|done].
  destruct Hloop as (Hlen & Hpos & Hh' & Hleaf & Hperm). split.
  - apply siftdown_ordered; [lia|done|].
    intros c x Hc He Hx. apply lookup_lt_Some in Hx. dlia.
  - now rewrite siftdown_Permutation, Hperm.
Qed.

(** [heappop] *)

Lemma heappop_None (h : list _QueueItem) : heappop h = None <-> h = [].
Proof.
  unfold heappop. split; [|now intros ->].
  destruct (last h) eqn:E; [|now apply last_None in E].
  now destruct (removelast h).
Qed.

Lemma heappop_spec (h h' : list _QueueItem) (x : _QueueItem) :
  heap_ordered h -> heappop h = Some (x, h') ->
  h ≡ₚ x :: h' /\ heap_ordered h' /\ forall y, y ∈ h -> cost x <= cost y.
Proof.
  intros Hok. unfold heappop. destruct (last h) as [lastelt|] eqn:E; [|done].
  apply last_Some in E as [k ->]. rewrite removelast_last.
  destruct k as [|returnitem rest].
  - intros [= <- <-]. split; [done|]. split; [apply heap_ordered_nil|].
    intros y ->%list_elem_of_singleton. lra.
  - intros [= <- <-].
    destruct (siftup_root_spec rest lastelt) as [Hord Hperm].
    { apply heap_ordered_prefix in Hok as Hok'. split; [|lia].
      intros i y p Hi Hne Hne' Hy Hp. apply (Hok' i); [done|..].
      - now destruct i.
      - destruct ((i - 1) / 2)%nat; [done|]. apply Hp. }
    split; [|split; [done|]].
    + rewrite Hperm. simpl. apply perm_skip.
      symmetry. apply Permutation_cons_append.
    + intros y [i Hy]%list_elem_of_lookup.
      now apply (heap_ordered_root _ returnitem Hok eq_refl i).
Qed.

Lemma heappush_length (h : list _QueueItem) (x : _QueueItem) :
  length (heappush h x) = S (length h).
Proof. now rewrite heappush_Permutation. Qed.

End heapq_facts.

(** ** The search computes shortest routes *)

Lemma heappop_nil : heapq.heappop [] = None.
Proof. reflexivity. Qed.

(** One iteration of the [for] loop, [dist[u]] being recorded. *)
Lemma relax_arcs_cons u v w e arcs st du :
  dist st !! u = Some du ->
  relax_arcs u ((v, w, e) :: arcs) st
  = if lt_inf (du + w) (dist st !! v)
    then relax_arcs u arcs
           {| dist := <[v := du + w]> (dist st);
              prev := <[v := Some u]> (prev st);
              pq := heapq.heappush (pq st) {| cost := du + w; node_id := v |} |}
    else relax_arcs u arcs st.
Proof. intros Hu. cbn [relax_arcs]. now rewrite (getitem_Some _ _ _ Hu). Qed.

Section search.
Import heapq_facts.

Variable adj : gmap string (list Arc).
Variables origin destination : string.
Hypothesis weights_pos : forall u a, a ∈ adj_get adj u -> 0 < arc_weight a.

Lemma route_nonneg p v W : route adj origin p v W -> 0 <= W.
Proof.
  induction 1 as [|p u a W _ IH Ha]; [lra|].
  apply weights_pos in Ha. lra.
Qed.

(** What [dist] and [prev] satisfy throughout the search. *)
Record path_inv (st : SearchState) : Prop := {
  inv_origin : dist st !! origin = Some 0;
  inv_route : forall v dv, dist st !! v = Some dv ->
    exists p W, route adj origin p v W /\ W == dv;
  inv_prev_dom : forall v, is_Some (prev st !! v) <-> is_Some (dist st !! v);
  inv_prev_origin : forall v, prev st !! v = Some None <-> v = origin;
  inv_prev_arc : forall v u, prev st !! v = Some (Some u) ->
    exists du dv a, dist st !! u = Some du /\ dist st !! v = Some dv
      /\ a ∈ adj_get adj u /\ arc_neighbour a = v /\ du + arc_weight a <= dv
}.

(** What the queue satisfies between two iterations ([pending = None]) and
    between two relaxations of the arcs of [u] ([pending = Some (u, todo)],
    [todo] being the arcs still to relax).  [S] is the set of expanded
    nodes. *)
Record queue_inv (S : gset string) (pending : option (string * list Arc))
    (st : SearchState) : Prop := {
  inv_heap : heap_ordered (pq st);
  inv_items : forall it, it ∈ pq st ->
    exists dv, dist st !! node_id it = Some dv /\ dv <= cost it;
  inv_queued : forall v dv, dist st !! v = Some dv ->
    v ∈ S \/ exists it, it ∈ pq st /\ node_id it = v /\ cost it == dv;
  inv_settled : forall u, u ∈ S -> is_Some (dist st !! u);
  inv_closed : forall u du a, u ∈ S -> dist st !! u = Some du ->
    a ∈ adj_get adj u ->
    (exists todo, pending = Some (u, todo) /\ a ∈ todo)
    \/ exists dv, dist st !! arc_neighbour a = Some dv /\ dv <= du + arc_weight a;
  inv_below : forall u du it, u ∈ S -> dist st !! u = Some du ->
    it ∈ pq st -> du <= cost it;
  inv_pending : forall u todo, pending = Some (u, todo) ->
    u ∈ S /\ (forall a, a ∈ todo -> a ∈ adj_get adj u)
    /\ exists du, dist st !! u = Some du
         /\ forall s ds, s ∈ S -> dist st !! s = Some ds -> ds <= du;
  inv_dest : destination ∉ S
}.

Definition initial_state : SearchState :=
  {| dist := {[origin := 0]};
     prev := {[origin := None]};
     pq := [{| cost := 0; node_id := origin |}] |}.

Lemma initial_path_inv : path_inv initial_state.
Proof.
  split; simpl.
  - apply lookup_singleton_eq.
  - intros v dv [<- <-]%lookup_singleton_Some.
    exists [origin], 0. split; [constructor|reflexivity].
  - intros v. rewrite !lookup_singleton_is_Some. done.
  - intros v. rewrite lookup_singleton_Some. naive_solver.
  - intros v u [_ [=]]%lookup_singleton_Some.
Qed.

Lemma initial_queue_inv : queue_inv ∅ None initial_state.
Proof.
clear weights_pos.
  split; simpl; try set_solver.
  - apply heap_ordered_singleton.
  - intros it ->%list_elem_of_singleton. simpl.
    exists 0. rewrite lookup_singleton_eq. split; [done|lra].
  - intros v dv [<- <-]%lookup_singleton_Some. right.
    eexists. split; [apply list_elem_of_singleton; reflexivity|]. done.
Qed.

Lemma dist_nonneg st v dv : path_inv st -> dist st !! v = Some dv -> 0 <= dv.
Proof.
  intros Hp Hv. destruct (inv_route st Hp v dv Hv) as (p & W & Hr & HW).
  apply route_nonneg in Hr. lra.
Qed.

(** Every route leaves the expanded set through a node whose recorded
    cost is at most the cost of the route. *)
Lemma route_frontier S st p v W :
  path_inv st -> queue_inv S None st -> route adj origin p v W ->
  exists x dx, dist st !! x = Some dx /\ dx <= W /\ (x ∉ S \/ x = v).
Proof.
  intros Hp Hq. induction 1 as [|p u a W _ IH Ha].
  - exists origin, 0. split; [apply Hp|]. split; [lra|now right].
  - destruct IH as (x & dx & Hx & Hle & Hcase).
    pose proof (weights_pos _ _ Ha) as Hw.
    destruct (decide (x ∈ S)) as [Hin|Hout].
    2:{ exists x, dx. split_and!; [done|lra|now left]. }
    destruct Hcase as [ | -> ]; [done|].
    destruct (inv_closed S None st Hq u dx a Hin Hx Ha)
      as [(? & [=] & _)|(dv & Hv & Hdv)].
    exists (arc_neighbour a), dv. split_and!; [done|lra|now right].
Qed.

(** *** Popping *)

Lemma pop_discard S st it rest :
  path_inv st -> queue_inv S None st ->
  heapq.heappop (pq st) = Some (it, rest) ->
  gt_inf (cost it) (dist st !! node_id it) = true \/ node_id it ∈ S ->
  queue_inv S None {| dist := dist st; prev := prev st; pq := rest |}.
Proof.
  intros Hp Hq Hpop Hstale.
  destruct (heappop_spec _ _ _ (inv_heap _ _ _ Hq) Hpop) as (Hperm & Hord & Hmin).
  assert (Hsub : forall x, x ∈ rest -> x ∈ pq st).
  { intros x Hx. rewrite Hperm. now right. }
  split; simpl; try apply Hq; try done.
  - intros x Hx. apply Hq; auto.
  - intros v dv Hv. destruct (inv_queued _ _ _ Hq v dv Hv) as [|(x & Hx & Hn & Hc)];
      [now left|].
    rewrite Hperm in Hx. apply elem_of_cons in Hx as [->|]; [|right; eauto].
    destruct Hstale as [Hstale|Hin]; [|left; congruence].
    rewrite Hn, Hv in Hstale. simpl in Hstale. apply Qltb_lt in Hstale. lra.
  - intros u du x Hu Hdu Hx. apply (inv_below _ _ _ Hq u); auto.
Qed.

Lemma pop_expand S st it rest :
  path_inv st -> queue_inv S None st ->
  heapq.heappop (pq st) = Some (it, rest) ->
  node_id it <> destination ->
  gt_inf (cost it) (dist st !! node_id it) = false ->
  queue_inv ({[node_id it]} ∪ S) (Some (node_id it, adj_get adj (node_id it)))
    {| dist := dist st; prev := prev st; pq := rest |}.
Proof.
  intros Hp Hq Hpop Hne Hfresh.
  destruct (heappop_spec _ _ _ (inv_heap _ _ _ Hq) Hpop) as (Hperm & Hord & Hmin).
  assert (Hsub : forall x, x ∈ rest -> x ∈ pq st).
  { intros x Hx. rewrite Hperm. now right. }
  assert (Hit : it ∈ pq st) by (rewrite Hperm; now left).
  destruct (inv_items _ _ _ Hq it Hit) as (du & Hdu & Hle).
  rewrite Hdu in Hfresh. simpl in Hfresh. apply Qltb_ge in Hfresh.
  assert (Hbelow : forall s ds, s ∈ {[node_id it]} ∪ S ->
            dist st !! s = Some ds -> ds <= du).
  { intros s ds [->%elem_of_singleton|Hs]%elem_of_union Hds.
    - simplify_eq. lra.
    - pose proof (inv_below _ _ _ Hq s ds it Hs Hds Hit). lra. }
  split; simpl.
  - done.
  - intros x Hx. apply Hq; auto.
  - intros v dv Hv. destruct (decide (v = node_id it)) as [->|Hv'].
    { left. set_solver. }
    destruct (inv_queued _ _ _ Hq v dv Hv) as [|(x & Hx & Hn & Hc)];
      [left; set_solver|right].
    exists x. split; [|done]. rewrite Hperm in Hx.
    apply elem_of_cons in Hx as [->|]; [congruence|done].
  - intros u [->%elem_of_singleton|Hu]%elem_of_union; [eauto|now apply Hq].
  - intros u du' a Hu Hdu' Ha.
    destruct (decide (u = node_id it)) as [->|Hu'].
    { left. eauto. }
    right. assert (Hin : u ∈ S) by set_solver.
    destruct (inv_closed _ _ _ Hq u du' a Hin Hdu' Ha) as [(? & [=] & _)|]; done.
  - intros u du' x Hu Hdu' Hx.
    pose proof (Hbelow u du' Hu Hdu'). pose proof (Hmin x (Hsub x Hx)). lra.
  - intros u todo [= <- <-]. split_and!; [set_solver|done|eauto].
  - pose proof (inv_dest _ _ _ Hq). set_solver.
Qed.

(** *** Relaxing one arc *)

Lemma lt_inf_false c d :
  lt_inf c d = false -> exists dv, d = Some dv /\ dv <= c.
Proof.
  destruct d as [dv|]; simpl; [|done].
  intros H%Qltb_ge. eauto.
Qed.

Lemma lt_inf_true c d dv : lt_inf c d = true -> d = Some dv -> c < dv.
Proof. intros H ->. now apply Qltb_lt. Qed.

Lemma relax_keep S u a todo st du :
  queue_inv S (Some (u, a :: todo)) st ->
  dist st !! u = Some du ->
  lt_inf (du + arc_weight a) (dist st !! arc_neighbour a) = false ->
  queue_inv S (Some (u, todo)) st.
Proof.
  intros Hq Hdu (dv & Hdv & Hle)%lt_inf_false.
  split; try apply Hq.
  - intros s ds a' Hs Hds Ha'.
    destruct (inv_closed _ _ _ Hq s ds a' Hs Hds Ha')
      as [(todo' & [= <- <-] & Hin)|]; [|now right].
    apply elem_of_cons in Hin as [->|Hin]; [right|left; eauto].
    simplify_eq. eauto.
  - intros u' todo' [= <- <-].
    destruct (inv_pending _ _ _ Hq u (a :: todo) eq_refl) as (Hu & Hsub & Hmax).
    split_and!; [done| |done]. intros a' Ha'. apply Hsub. now right.
Qed.

Lemma relax_update S u a todo st du :
  path_inv st -> queue_inv S (Some (u, a :: todo)) st ->
  dist st !! u = Some du ->
  lt_inf (du + arc_weight a) (dist st !! arc_neighbour a) = true ->
  let st' := {| dist := <[arc_neighbour a := du + arc_weight a]> (dist st);
                prev := <[arc_neighbour a := Some u]> (prev st);
                pq := heapq.heappush (pq st)
                        {| cost := du + arc_weight a;
                           node_id := arc_neighbour a |} |} in
  path_inv st' /\ queue_inv S (Some (u, todo)) st'.
Proof.
  intros Hp Hq Hdu Hlt.
  destruct (inv_pending _ _ _ Hq u (a :: todo) eq_refl) as (Hu & Hsub & Hmax).
  destruct Hmax as (du' & Hdu' & Hmax). simplify_eq.
  assert (Ha : a ∈ adj_get adj u) by (apply Hsub; now left).
  pose proof (weights_pos _ _ Ha) as Hw.
  pose proof (dist_nonneg _ _ _ Hp Hdu) as Hdu0.
  set (v := arc_neighbour a) in *. set (nc := du + arc_weight a) in *.
  assert (Hold : forall dv, dist st !! v = Some dv -> nc < dv).
  { intros dv Hdv. now apply (lt_inf_true _ _ _ Hlt). }
  assert (HvS : v ∉ S).
  { intros Hv. destruct (inv_settled _ _ _ Hq v Hv) as [dv Hdv].
    pose proof (Hold dv Hdv). pose proof (Hmax v dv Hv Hdv). subst nc. lra. }
  assert (Hvu : v <> u) by (intros ->; done).
  assert (Hvo : v <> origin).
  { intros Heq. pose proof (inv_origin _ Hp) as Ho. rewrite <- Heq in Ho.
    pose proof (Hold 0 Ho). subst nc. lra. }
  assert (Hpush : forall it, it ∈ heapq.heappush (pq st) {| cost := nc; node_id := v |}
            <-> it = {| cost := nc; node_id := v |} \/ it ∈ pq st).
  { intros it. rewrite heappush_Permutation. apply elem_of_cons. }
  split; split; simpl.
  - rewrite lookup_insert_ne by done. apply Hp.
  - intros x dx. destruct (decide (x = v)) as [->|Hx].
    + rewrite lookup_insert_eq. intros [= <-].
      destruct (inv_route _ Hp u du Hdu) as (p & W & Hr & HW).
      exists (p ++ [v]), (W + arc_weight a).
      split; [exact (route_arc _ _ p u a W Hr Ha)|].
      subst nc. lra.
    + rewrite lookup_insert_ne by done. apply Hp.
  - intros x. destruct (decide (x = v)) as [->|Hx].
    + rewrite !lookup_insert_eq. split; eauto.
    + rewrite !lookup_insert_ne by done. apply Hp.
  - intros x. destruct (decide (x = v)) as [->|Hx].
    + rewrite lookup_insert_eq. split; [intros [=]|done].
    + rewrite lookup_insert_ne by done. apply Hp.
  - intros x y. destruct (decide (x = v)) as [->|Hx].
    + rewrite lookup_insert_eq. intros [= <-].
      exists du, nc, a. rewrite lookup_insert_ne, lookup_insert_eq by done.
      split_and!; try done. subst nc. lra.
    + rewrite lookup_insert_ne by done. intros Hprev.
      destruct (inv_prev_arc _ Hp x y Hprev) as (dy & dx & a' & Hy & Hdx & Ha' & Hn & Hle).
      rewrite (lookup_insert_ne _ v x) by done.
      destruct (decide (y = v)) as [->|Hy'].
      * exists nc, dx, a'. rewrite lookup_insert_eq.
        pose proof (Hold dy Hy). split_and!; try done. lra.
      * exists dy, dx, a'. rewrite lookup_insert_ne by done. done.
  - apply heappush_ordered, Hq.
  - intros it [->|Hit]%Hpush; simpl.
    + exists nc. rewrite lookup_insert_eq. split; [done|lra].
    + destruct (inv_items _ _ _ Hq it Hit) as (dv & Hdv & Hle).
      destruct (decide (node_id it = v)) as [Heq|Hne].
      * rewrite Heq, lookup_insert_eq. exists nc. split; [done|].
        rewrite Heq in Hdv. pose proof (Hold dv Hdv). lra.
      * rewrite lookup_insert_ne by done. eauto.
  - intros x dx. destruct (decide (x = v)) as [->|Hx].
    + rewrite lookup_insert_eq. intros [= <-]. right.
      eexists. split; [apply Hpush; left; reflexivity|]. simpl. done.
    + rewrite lookup_insert_ne by done. intros Hdx.
      destruct (inv_queued _ _ _ Hq x dx Hdx) as [|(it & Hit & Hn & Hc)];
        [now left|right].
      exists it. split; [apply Hpush; now right|done].
  - intros s Hs. rewrite lookup_insert_ne by (intros ->; done). now apply Hq.
  - intros s ds a' Hs. rewrite lookup_insert_ne by (intros ->; done).
    intros Hds Ha'.
    destruct (inv_closed _ _ _ Hq s ds a' Hs Hds Ha')
      as [(todo' & [= <- <-] & Hin)|(dn & Hdn & Hle)].
    + apply elem_of_cons in Hin as [->|Hin]; [right|left; eauto].
      simplify_eq. fold v. rewrite lookup_insert_eq. exists nc. split; [done|].
      subst nc. lra.
    + right. destruct (decide (arc_neighbour a' = v)) as [Heq|Hne].
      * rewrite Heq, lookup_insert_eq. exists nc. split; [done|].
        rewrite Heq in Hdn. pose proof (Hold dn Hdn). lra.
      * rewrite lookup_insert_ne by done. eauto.
  - intros s ds it Hs. rewrite lookup_insert_ne by (intros ->; done).
    intros Hds [->|Hit]%Hpush; simpl.
    + pose proof (Hmax s ds Hs Hds). subst nc. lra.
    + now apply (inv_below _ _ _ Hq s).
  - intros u' todo' [= <- <-]. split_and!; [done|..].
    + intros a' Ha'. apply Hsub. now right.
    + exists du. rewrite lookup_insert_ne by done. split; [done|].
      intros s ds Hs. rewrite lookup_insert_ne by (intros ->; done).
      now apply Hmax.
  - apply Hq.
Qed.

(** *** Relaxing the arcs of a node *)

Lemma queue_inv_done S u st :
  queue_inv S (Some (u, [])) st -> queue_inv S None st.
Proof.
  intros Hq. split; try apply Hq; [|done].
  intros s ds a Hs Hds Ha.
  destruct (inv_closed _ _ _ Hq s ds a Hs Hds Ha)
    as [(todo' & [= <- <-] & Hin)|]; [|now right].
  now apply elem_of_nil in Hin.
Qed.

Lemma relax_arcs_spec todo :
  forall st S u, path_inv st -> queue_inv S (Some (u, todo)) st ->
    exists st', relax_arcs u todo st = Returns st'
      /\ path_inv st' /\ queue_inv S None st'
      /\ (length (pq st') <= length (pq st) + length todo)%nat.
Proof.
  induction todo as [|a todo IH]; intros st S u Hp Hq.
  - exists st. split_and!; [done|done| |simpl; lia]. now apply queue_inv_done with u.
  - destruct (inv_pending _ _ _ Hq u (a :: todo) eq_refl) as (_ & _ & du & Hdu & _).
    destruct a as [[v w] e]. rewrite (relax_arcs_cons _ _ _ _ _ _ _ Hdu).
    destruct (lt_inf (du + w) (dist st !! v)) eqn:Hlt.
    + destruct (relax_update S u (v, w, e) todo st du Hp Hq Hdu Hlt) as [Hp' Hq'].
      destruct (IH _ S u Hp' Hq') as (st' & Hrun & ? & ? & Hlen).
      exists st'. split_and!; try done.
      simpl in Hlen. rewrite heappush_length in Hlen. simpl. lia.
    + pose proof (relax_keep S u (v, w, e) todo st du Hq Hdu Hlt) as Hq'.
      destruct (IH _ S u Hp Hq') as (st' & Hrun & ? & ? & Hlen).
      exists st'. split_and!; try done. simpl. lia.
Qed.

(** Relaxing the arcs of an expanded node again changes nothing. *)
Lemma relax_arcs_noop arcs :
  forall st S u, queue_inv S None st -> u ∈ S ->
    (forall a, a ∈ arcs -> a ∈ adj_get adj u) ->
    relax_arcs u arcs st = Returns st.
Proof.
  induction arcs as [|a arcs IH]; intros st S u Hq Hu Hsub; [done|].
  destruct (inv_settled _ _ _ Hq u Hu) as [du Hdu].
  destruct a as [[v w] e].
  destruct (inv_closed _ _ _ Hq u du (v, w, e) Hu Hdu)
    as [(? & [=] & _)|(dv & Hdv & Hle)].
  { apply Hsub. now left. }
  rewrite (relax_arcs_cons _ _ _ _ _ _ _ Hdu).
  change (arc_neighbour (v, w, e)) with v in Hdv.
  change (arc_weight (v, w, e)) with w in Hle.
  rewrite Hdv. simpl. apply Qltb_ge in Hle. rewrite Hle.
  apply (IH st S u Hq Hu). intros a Ha. apply Hsub. now right.
Qed.

(** *** The budget *)

(** The arcs leaving the nodes that are not yet expanded. *)
Definition arcs_outside (S : gset string) : nat :=
  arc_count (filter (fun kv => kv.1 ∉ S) adj).

Lemma arc_count_insert (m : gmap string (list Arc)) u arcs :
  m !! u = None -> arc_count (<[u := arcs]> m) = (length arcs + arc_count m)%nat.
Proof.
  intros Hu. unfold arc_count.
  rewrite map_fold_insert_L; [done| |done]. intros. lia.
Qed.

Lemma arcs_outside_empty : arcs_outside ∅ = arc_count adj.
Proof.
clear weights_pos.
  unfold arcs_outside. f_equal. apply map_filter_id. intros. set_solver.
Qed.

Lemma arcs_outside_add S u :
  u ∉ S ->
  arcs_outside S = (length (adj_get adj u) + arcs_outside ({[u]} ∪ S))%nat.
Proof.
clear weights_pos.
  intros Hu. unfold arcs_outside, adj_get.
  destruct (adj !! u) as [arcs|] eqn:E; simpl.
  - rewrite <- (arc_count_insert _ u arcs).
    2:{ apply map_lookup_filter_None. right. intros x _. simpl. set_solver. }
    f_equal. apply map_eq. intros k.
    destruct (decide (k = u)) as [->|Hk].
    + rewrite lookup_insert_eq. now apply map_lookup_filter_Some.
    + rewrite lookup_insert_ne by done. apply option_eq. intros x.
      rewrite !map_lookup_filter_Some. simpl. set_solver.
  - f_equal. apply map_eq. intros k. apply option_eq. intros x.
    rewrite !map_lookup_filter_Some. simpl.
    split; intros [Hk ?]; (split; [done|]);
      (assert (k <> u) by congruence); set_solver.
Qed.

(** *** The loop *)

(** What holds when the loop is left: [dist[destination]], when recorded,
    is a lower bound on the cost of every route to the destination; when
    it is not recorded the destination cannot be reached. *)
Definition search_post (st : SearchState) : Prop :=
  path_inv st
  /\ match dist st !! destination with
     | Some dd => forall p W, route adj origin p destination W -> dd <= W
     | None => forall p W, ~ route adj origin p destination W
     end.

Lemma path_inv_pq st rest :
  path_inv st -> path_inv {| dist := dist st; prev := prev st; pq := rest |}.
Proof. intros Hp. split; simpl; apply Hp. Qed.

Lemma search_loop_spec fuel :
  forall st S, path_inv st -> queue_inv S None st ->
    (length (pq st) + arcs_outside S < fuel)%nat ->
    exists st', search_loop fuel adj destination st = Returns st'
      /\ search_post st'.
Proof.
  induction fuel as [|fuel IH]; intros st S Hp Hq Hfuel; [lia|].
  cbn [search_loop].
  destruct (heapq.heappop (pq st)) as [[it rest]|] eqn:Hpop.
  2:{ apply heappop_None in Hpop. exists st. split; [done|]. split; [done|].
      assert (Hall : forall x dx, dist st !! x = Some dx -> x ∈ S).
      { intros x dx Hx. destruct (inv_queued _ _ _ Hq x dx Hx) as [|(y & Hy & _)];
          [done|]. rewrite Hpop in Hy. now apply elem_of_nil in Hy. }
      pose proof (inv_dest _ _ _ Hq) as Hd.
      destruct (dist st !! destination) as [dd|] eqn:Hdd.
      - exfalso. eauto.
      - intros p W Hr.
        destruct (route_frontier S st p destination W Hp Hq Hr)
          as (x & dx & Hx & _ & [Hout| ->]); [eauto|congruence]. }
  destruct (heappop_spec _ _ _ (inv_heap _ _ _ Hq) Hpop) as (Hperm & Hord & Hmin).
  assert (Hlen : length (pq st) = Datatypes.S (length rest)) by now rewrite Hperm.
  assert (Hit : it ∈ pq st) by (rewrite Hperm; now left).
  destruct (inv_items _ _ _ Hq it Hit) as (du & Hdu & Hle).
  pose proof (path_inv_pq st rest Hp) as Hp1.
  destruct (decide (node_id it = destination)) as [Hdest|Hdest].
  { eexists. split; [done|]. split; [done|]. simpl.
    rewrite <- Hdest, Hdu. intros p W Hr. rewrite Hdest in Hr.
    destruct (route_frontier S st p destination W Hp Hq Hr)
      as (x & dx & Hx & Hdx & Hout).
    assert (Hx' : x ∉ S).
    { destruct Hout as [ | -> ]; [done|]. apply Hq. }
    destruct (inv_queued _ _ _ Hq x dx Hx) as [|(y & Hy & _ & Hc)]; [done|].
    pose proof (Hmin y Hy). lra. }
  cbn [dist prev pq].
  destruct (gt_inf (cost it) (dist st !! node_id it)) eqn:Hstale.
  { apply (IH _ S Hp1); [|simpl; lia].
    apply (pop_discard S st it rest Hp Hq Hpop). now left. }
  destruct (decide (node_id it ∈ S)) as [Hin|Hout].
  - assert (Hq1 : queue_inv S None {| dist := dist st; prev := prev st; pq := rest |}).
    { apply (pop_discard S st it rest Hp Hq Hpop). now right. }
    rewrite (relax_arcs_noop _ _ S (node_id it) Hq1 Hin) by done.
    apply (IH _ S Hp1 Hq1). simpl. lia.
  - pose proof (pop_expand S st it rest Hp Hq Hpop Hdest Hstale) as Hq1.
    destruct (relax_arcs_spec _ _ _ _ Hp1 Hq1) as (st2 & -> & Hp2 & Hq2 & Hlen2).
    apply (IH _ _ Hp2 Hq2). simpl in Hlen2.
    rewrite (arcs_outside_add S (node_id it) Hout) in Hfuel. lia.
Qed.

(** *** Walking back along [prev] *)

(** The recorded costs strictly below [d]. *)
Definition closer (st : SearchState) (d : Q) : gmap string Q :=
  filter (fun kv => Qltb kv.2 d = true) (dist st).

Lemma closer_decreases st u du dv :
  dist st !! u = Some du -> du < dv ->
  (size (closer st du) < size (closer st dv))%nat.
Proof.
  intros Hu Hlt. apply map_subset_size. split.
  - apply map_subseteq_spec. intros k x [Hk Hx]%map_lookup_filter_Some.
    apply map_lookup_filter_Some. split; [done|]. simpl in *.
    apply Qltb_lt in Hx. apply Qltb_lt. lra.
  - intros Hsub.
    assert (Hin : closer st dv !! u = Some du).
    { apply map_lookup_filter_Some. split; [done|]. now apply Qltb_lt. }
    eapply map_subseteq_spec in Hin; [|exact Hsub].
    apply map_lookup_filter_Some in Hin as [_ Hin]. simpl in Hin.
    apply Qltb_lt in Hin. lra.
Qed.

Lemma walk_back_spec st fuel :
  path_inv st ->
  forall v dv acc, dist st !! v = Some dv ->
    (size (closer st dv) < fuel)%nat ->
    exists p W, walk_back fuel (prev st) (Some v) acc = Returns (acc ++ reverse p)
      /\ route adj origin p v W /\ W <= dv.
Proof.
  intros Hp. induction fuel as [|fuel IH]; intros v dv acc Hv Hfuel; [lia|].
  cbn [walk_back].
  destruct (proj2 (inv_prev_dom _ Hp v)) as [[u|] Hprev]; [eauto|..];
    rewrite Hprev; simpl.
  - destruct (inv_prev_arc _ Hp v u Hprev) as (du & dv' & a & Hu & Hv' & Ha & Hn & Hle).
    simplify_eq. pose proof (weights_pos _ _ Ha) as Hw.
    destruct (IH u du (acc ++ [arc_neighbour a]) Hu) as (p & W & Hwalk & Hr & HW).
    { assert (Hlt : du < dv) by lra.
      pose proof (closer_decreases st u du dv Hu Hlt). lia. }
    exists (p ++ [arc_neighbour a]), (W + arc_weight a).
    split_and!; [|exact (route_arc _ _ p u a W Hr Ha)|lra].
    rewrite Hwalk, reverse_app, <- app_assoc. done.
  - apply (inv_prev_origin _ Hp) in Hprev as ->.
    pose proof (inv_origin _ Hp). simplify_eq.
    exists [origin], 0. split_and!; [|constructor|lra].
    destruct fuel; done.
Qed.

(** *** Lines 89–123 of [compute_route] *)

Lemma prev_size st : path_inv st -> size (prev st) = size (dist st).
Proof.
  intros Hp. rewrite <- (size_dom (prev st)), <- (size_dom (dist st)).
  f_equal. apply set_eq. intros v. rewrite !elem_of_dom. apply Hp.
Qed.

(** The search neither runs out of budget nor fails on a key; it finds a
    cheapest route, or reports that the destination cannot be reached. *)
Lemma find_path_spec :
  match find_path adj origin destination with
  | Returns (p, d) =>
      is_Some (adj !! origin) /\ is_Some (adj !! destination)
      /\ exists W dd, d !! destination = Some dd
           /\ route adj origin p destination W /\ W == dd
           /\ forall p' W', route adj origin p' destination W' -> dd <= W'
  | Raises (ValueError (OriginNotFound o)) =>
      o = origin /\ adj !! origin = None
  | Raises (ValueError (DestinationNotFound d)) =>
      d = destination /\ is_Some (adj !! origin) /\ adj !! destination = None
  | Raises (ValueError (NoPath o d)) =>
      o = origin /\ d = destination
      /\ is_Some (adj !! origin) /\ is_Some (adj !! destination)
      /\ forall p W, ~ route adj origin p destination W
  | Raises (KeyError _) => False
  | OutOfFuel => False
  end.
Proof.
  unfold find_path.
  destruct (adj !! origin) as [arcs_o|] eqn:Ho; [|done].
  destruct (adj !! destination) as [arcs_d|] eqn:Hd; [|eauto].
  destruct (search_loop_spec (search_fuel adj) initial_state ∅
              initial_path_inv initial_queue_inv) as (st & Hrun & Hp & Hpost).
  { rewrite arcs_outside_empty. unfold search_fuel. simpl. lia. }
  fold initial_state. rewrite Hrun. outcome_simpl.
  destruct (prev st !! destination) as [pd|] eqn:Hprev.
  - destruct (proj1 (inv_prev_dom _ Hp destination)) as [dd Hdd]; [eauto|].
    rewrite Hdd in Hpost.
    destruct (walk_back_spec st (Datatypes.S (size (prev st))) Hp destination dd [] Hdd)
      as (p & W & Hwalk & Hr & HW).
    { rewrite (prev_size st Hp).
      pose proof (map_size_filter (fun kv : string * Q => Qltb kv.2 dd = true) (dist st)).
      unfold closer. lia. }
    rewrite Hwalk. outcome_simpl. simpl. rewrite reverse_involutive.
    split_and!; [eauto..|]. exists W, dd. split_and!; try done.
    pose proof (Hpost p W Hr). lra.
  - assert (Hdd : dist st !! destination = None).
    { destruct (dist st !! destination) eqn:E; [|done].
      destruct (proj2 (inv_prev_dom _ Hp destination)); [eauto|congruence]. }
    rewrite Hdd in Hpost. split_and!; eauto.
Qed.

End search.

(** ** The snapshot builder *)

Lemma edge_weight_floor (mode : Mode) (edge : Street) : 0.01 <= edge_weight mode edge.
Proof. apply py_max_floor. Qed.

Lemma adj_get_setdefault adj k u : adj_get (adj_setdefault adj k) u = adj_get adj u.
Proof.
  unfold adj_setdefault, adj_get. destruct (adj !! k) eqn:E; [done|].
  destruct (decide (k = u)) as [->|Hne].
  - now rewrite lookup_insert_eq, E.
  - now rewrite lookup_insert_ne.
Qed.

Lemma adj_setdefault_is_Some adj k u :
  is_Some (adj_setdefault adj k !! u) <-> is_Some (adj !! u) \/ k = u.
Proof.
  unfold adj_setdefault. destruct (adj !! k) eqn:E.
  - split; [now left|]. intros [|<-]; [done|eauto].
  - rewrite lookup_insert_is_Some. destruct (decide (k = u)); naive_solver.
Qed.

Lemma adj_get_append adj k arc u :
  adj_get (adj_append adj k arc) u
  = adj_get adj u ++ (if decide (k = u) then [arc] else []).
Proof.
  unfold adj_append, adj_get. destruct (decide (k = u)) as [->|Hne].
  - now rewrite lookup_insert_eq.
  - rewrite lookup_insert_ne by done. now rewrite app_nil_r.
Qed.

Lemma adj_append_is_Some adj k arc u :
  is_Some (adj_append adj k arc !! u) <-> is_Some (adj !! u) \/ k = u.
Proof.
  unfold adj_append. rewrite lookup_insert_is_Some.
  destruct (decide (k = u)); naive_solver.
Qed.

Lemma adj_get_add_arcs mode adj edge u :
  adj_get (add_arcs mode adj edge) u = adj_get adj u ++ arcs_from mode u edge.
Proof.
  unfold add_arcs, arcs_from. destruct (get_flag (bidirectional edge)).
  - now rewrite !adj_get_append, <- app_assoc.
  - now rewrite adj_get_append, app_nil_r.
Qed.

Lemma add_arcs_is_Some mode adj edge u :
  is_Some (add_arcs mode adj edge !! u)
  <-> is_Some (adj !! u) \/ arcs_from mode u edge <> [].
Proof.
  unfold add_arcs, arcs_from. destruct (get_flag (bidirectional edge)).
  - rewrite !adj_append_is_Some.
    destruct (decide (start_intersection_id edge = u)),
      (decide (end_intersection_id edge = u)); naive_solver.
  - rewrite adj_append_is_Some.
    destruct (decide (start_intersection_id edge = u)); naive_solver.
Qed.

Lemma fold_intersections docs :
  forall acc,
    let r := foldl add_intersection acc docs in
    (forall u, adj_get r.1 u = adj_get acc.1 u)
    /\ (forall u, is_Some (r.1 !! u) <->
          is_Some (acc.1 !! u) \/ exists doc, doc ∈ docs /\ intersection_id doc = u)
    /\ (forall u, is_Some (r.2 !! u) <->
          is_Some (acc.2 !! u) \/ exists doc, doc ∈ docs /\ intersection_id doc = u).
Proof.
  induction docs as [|doc docs IH]; intros acc; simpl.
  - split_and!; [done|..]; intros u; split; [now left| |now left|];
      intros [|(? & []%elem_of_nil & _)]; done.
  - destruct (IH (add_intersection acc doc)) as (Hget & Hadj & Hcoords).
    split_and!; intros u.
    + rewrite Hget. apply adj_get_setdefault.
    + rewrite Hadj. simpl. rewrite adj_setdefault_is_Some.
      setoid_rewrite elem_of_cons. naive_solver.
    + rewrite Hcoords. simpl. rewrite lookup_insert_is_Some.
      setoid_rewrite elem_of_cons.
      destruct (decide (intersection_id doc = u)); naive_solver.
Qed.

Lemma add_street_included mode ada_required acc edge :
  engines_dijkstra.add_street mode ada_required acc edge
  = if included ada_required edge
    then (add_arcs mode acc.1 edge, acc.2)
    else (acc.1, S acc.2).
Proof.
  unfold engines_dijkstra.add_street, included.
  now destruct (ada_required && negb (get_flag (is_accessible edge))).
Qed.

Lemma fold_streets mode ada_required es :
  forall adj n,
    let r := foldl (engines_dijkstra.add_street mode ada_required) (adj, n) es in
    (forall u, adj_get r.1 u
       = adj_get adj u
         ++ flat_map (arcs_from mode u)
              (filter (fun edge => included ada_required edge = true) es))
    /\ (forall u, is_Some (r.1 !! u) <->
          is_Some (adj !! u)
          \/ exists edge, edge ∈ es /\ included ada_required edge = true
               /\ arcs_from mode u edge <> [])
    /\ r.2 = (n + length (filter (fun edge => included ada_required edge = false) es))%nat.
Proof.
  induction es as [|e es IH]; intros adj n; simpl.
  - split_and!; [intros u; now rewrite app_nil_r| |lia].
    intros u. split; [now left|]. intros [|(? & []%elem_of_nil & _)]; done.
  - rewrite add_street_included. simpl.
    destruct (included ada_required e) eqn:E.
    + destruct (IH (add_arcs mode adj e) n) as (Hget & Hdom & Hn).
      rewrite filter_cons_True, filter_cons_False by (now rewrite E).
      split_and!; [| |done].
      * intros u. rewrite Hget, adj_get_add_arcs. simpl. now rewrite app_assoc.
      * intros u. rewrite Hdom, add_arcs_is_Some. setoid_rewrite elem_of_cons.
        naive_solver.
    + destruct (IH adj (S n)) as (Hget & Hdom & Hn).
      rewrite filter_cons_False, filter_cons_True by (now rewrite E).
      split_and!; [intros u; now rewrite Hget| |rewrite Hn; simpl; lia].
      intros u. rewrite Hdom. setoid_rewrite elem_of_cons.
      split; [naive_solver|].
      intros [|(edge & [->|] & Hinc & ?)]; [naive_solver|congruence|naive_solver].
Qed.

Lemma arcs_from_weight mode u edge a :
  a ∈ arcs_from mode u edge ->
  arc_edge a = edge /\ arc_weight a = edge_weight mode edge
  /\ ((start_intersection_id edge = u /\ arc_neighbour a = end_intersection_id edge)
      \/ (end_intersection_id edge = u /\ arc_neighbour a = start_intersection_id edge
          /\ get_flag (bidirectional edge) = true)).
Proof.
  unfold arcs_from. intros [Ha|Ha]%elem_of_app.
  - destruct (decide _); [|by apply elem_of_nil in Ha].
    apply list_elem_of_singleton in Ha as ->. naive_solver.
  - destruct (get_flag _); [|by apply elem_of_nil in Ha].
    destruct (decide _); [|by apply elem_of_nil in Ha].
    apply list_elem_of_singleton in Ha as ->. naive_solver.
Qed.

Lemma build_adjacency_list_eq db mode ada_required :
  engines_dijkstra.build_adjacency_list db mode ada_required
  = (adjacency db mode ada_required, coords_of db, excluded_count db ada_required).
Proof.
  unfold adjacency, coords_of, excluded_count, engines_dijkstra.build_adjacency_list.
  destruct (foldl add_intersection _ _) as [adj0 coords] eqn:E0.
  pose proof (fold_streets mode ada_required (streets db) adj0 0) as (_ & _ & Hn).
  destruct (foldl (engines_dijkstra.add_street _ _) _ _) as [adj hb].
  simpl in *. now subst.
Qed.

(** The adjacency list of a node holds exactly the arcs of the streets
    read, in the order of the streets. *)
Lemma adjacency_get db mode ada_required u :
  adj_get (adjacency db mode ada_required) u
  = flat_map (arcs_from mode u) (included_streets db ada_required).
Proof.
  unfold adjacency, engines_dijkstra.build_adjacency_list, included_streets.
  destruct (foldl add_intersection _ _) as [adj0 coords] eqn:E0.
  pose proof (fold_intersections (intersections db) (∅, ∅)) as (Hget0 & _).
  rewrite E0 in Hget0. simpl in Hget0.
  pose proof (fold_streets mode ada_required (streets db) adj0 0) as (Hget & _).
  destruct (foldl (engines_dijkstra.add_street _ _) _ _) as [adj hb].
  simpl in *. rewrite Hget, Hget0. unfold adj_get. now rewrite lookup_empty.
Qed.

Lemma adjacency_arc db mode ada_required u a :
  a ∈ adj_get (adjacency db mode ada_required) u ->
  exists edge, edge ∈ streets db /\ included ada_required edge = true
    /\ a ∈ arcs_from mode u edge.
Proof.
  rewrite adjacency_get. intros (edge & Hin & Ha)%list_elem_of_In%in_flat_map.
  exists edge. apply list_elem_of_In in Hin, Ha.
  unfold included_streets in Hin. apply list_elem_of_filter in Hin as [? ?]. done.
Qed.

Lemma adjacency_is_Some db mode ada_required u :
  is_Some (adjacency db mode ada_required !! u)
  <-> is_node db u
      \/ exists edge, edge ∈ streets db /\ included ada_required edge = true
           /\ arcs_from mode u edge <> [].
Proof.
  unfold adjacency, engines_dijkstra.build_adjacency_list, is_node.
  destruct (foldl add_intersection _ _) as [adj0 coords] eqn:E0.
  pose proof (fold_intersections (intersections db) (∅, ∅)) as (_ & Hdom0 & _).
  rewrite E0 in Hdom0. simpl in Hdom0.
  pose proof (fold_streets mode ada_required (streets db) adj0 0) as (_ & Hdom & _).
  destruct (foldl (engines_dijkstra.add_street _ _) _ _) as [adj hb].
  simpl in *. rewrite Hdom, Hdom0, lookup_empty.
  split; [intros [[[? [=]]|]|]|]; tauto.
Qed.

Lemma coords_of_is_Some db u : is_Some (coords_of db !! u) <-> is_node db u.
Proof.
  unfold coords_of, is_node.
  pose proof (fold_intersections (intersections db) (∅, ∅)) as (_ & _ & Hc).
  simpl in Hc. rewrite Hc, lookup_empty.
  split; [intros [[? [=]]|]|]; tauto.
Qed.

Lemma adjacency_weights_pos db mode ada_required u a :
  a ∈ adj_get (adjacency db mode ada_required) u -> 0 < arc_weight a.
Proof.
  intros (edge & _ & _ & Ha)%adjacency_arc.
  apply arcs_from_weight in Ha as (_ & -> & _).
  pose proof (edge_weight_floor mode edge). lra.
Qed.

(** [app/services/dijkstra.py] builds the snapshot of
    [engines/dijkstra.py] with the filter off. *)
Lemma services_build_adjacency_list db mode :
  services_dijkstra.build_adjacency_list db mode
  = (adjacency db mode false, coords_of db).
Proof.
  unfold services_dijkstra.build_adjacency_list, adjacency, coords_of,
    engines_dijkstra.build_adjacency_list.
  destruct (foldl add_intersection _ _) as [adj0 coords].
  assert (H : forall es adj n,
            foldl (engines_dijkstra.add_street mode false) (adj, n) es
            = (foldl (add_arcs mode) adj es, n)).
  { induction es as [|e es IH]; intros adj n; [done|]. simpl. apply IH. }
  now rewrite H.
Qed.

(** ** compute_route and dijkstra *)

Lemma path_coordinates_spec coords p :
  match path_coordinates coords p with
  | Returns cs => Forall2 (fun nid c => coords !! nid = Some c) p cs
  | Raises (KeyError k) => k ∈ p /\ coords !! k = None
  | _ => False
  end.
Proof.
  induction p as [|nid p IH]; cbn [path_coordinates]; [constructor|].
  unfold getitem. destruct (coords !! nid) as [c|] eqn:E; outcome_simpl.
  - destruct (path_coordinates coords p) as [cs|[|k]|]; outcome_simpl; try done.
    + now constructor.
    + destruct IH. split; [now right|done].
  - split; [now left|done].
Qed.

Lemma compute_route_eq db origin destination mode ada_required :
  engines_dijkstra.compute_route db origin destination mode ada_required
  = match find_path (adjacency db mode ada_required) origin destination with
    | Returns (path_ids, dist) =>
        match path_coordinates (coords_of db) path_ids with
        | Returns path_coords =>
            match dist !! destination with
            | Some d =>
                Returns {| engines_dijkstra.path := path_ids;
                           engines_dijkstra.coordinates := path_coords;
                           engines_dijkstra.total_cost := py_round d 4;
                           engines_dijkstra.mode := mode;
                           engines_dijkstra.ada_required := ada_required;
                           engines_dijkstra.hazards_bypassed :=
                             excluded_count db ada_required |}
            | None => Raises (KeyError destination)
            end
        | Raises e => Raises e
        | OutOfFuel => OutOfFuel
        end
    | Raises e => Raises e
    | OutOfFuel => OutOfFuel
    end.
Proof.
  unfold engines_dijkstra.compute_route. rewrite build_adjacency_list_eq.
  destruct (find_path _ _ _) as [[p d]|e|]; [|done..]. outcome_simpl.
  destruct (path_coordinates _ _) as [cs|e|]; [|done..]. outcome_simpl.
  unfold getitem. now destruct (d !! destination).
Qed.

(** [dijkstra] is [compute_route] with the filter off. *)
Lemma dijkstra_compute_route db start_id end_id mode :
  services_dijkstra.dijkstra db start_id end_id mode
  = match engines_dijkstra.compute_route db start_id end_id mode false with
    | Returns r => Returns (to_services_route r)
    | Raises e => Raises e
    | OutOfFuel => OutOfFuel
    end.
Proof.
  unfold services_dijkstra.dijkstra.
  rewrite services_build_adjacency_list, compute_route_eq.
  destruct (find_path _ _ _) as [[p d]|e|]; [|done..]. outcome_simpl.
  destruct (path_coordinates _ _) as [cs|e|]; [|done..]. outcome_simpl.
  unfold getitem. now destruct (d !! end_id).
Qed.

Lemma route_head_last adj origin p v W :
  route adj origin p v W -> head p = Some origin /\ last p = Some v.
Proof.
  induction 1 as [|p u a W _ [Hh Hl] Ha]; [done|]. split.
  - destruct p; [done|]. exact Hh.
  - apply last_snoc.
Qed.

Lemma compute_route_cheapest db origin destination mode ada_required r :
  engines_dijkstra.compute_route db origin destination mode ada_required = Returns r ->
  cheapest_route (adjacency db mode ada_required) origin destination
    (engines_dijkstra.path r) (engines_dijkstra.total_cost r).
Proof.
  rewrite compute_route_eq.
  pose proof (find_path_spec (adjacency db mode ada_required) origin destination
                (adjacency_weights_pos db mode ada_required)) as Hspec.
  destruct (find_path _ _ _) as [[p d]|e|]; try done.
  destruct Hspec as (_ & _ & W & dd & Hdd & Hr & HW & Hmin).
  destruct (path_coordinates _ _) as [cs|e|]; try done.
  rewrite Hdd. intros [= <-]. simpl. exists W.
  destruct (route_head_last _ _ _ _ _ Hr) as [Hh Hl].
  split_and!; [done|done|done| |].
  - intros p' W' Hr'. pose proof (Hmin p' W' Hr'). lra.
  - now rewrite (py_round_proper W dd 4 HW).
Qed.



(** ** The scenario graph *)

(** Relaxing an arc that does not strictly improve the recorded cost of its
    head changes neither [dist], [prev] nor the queue. *)
Lemma relax_arcs_no_overwrite u v w e arcs st du dv :
  dist st !! u = Some du -> dist st !! v = Some dv -> dv <= du + w ->
  relax_arcs u ((v, w, e) :: arcs) st = relax_arcs u arcs st.
Proof.
  intros Hu Hv Hle. rewrite (relax_arcs_cons _ _ _ _ _ _ _ Hu), Hv. simpl.
  apply Qltb_ge in Hle. now rewrite Hle.
Qed.

(** C2. On the scenario graph the safest route from A to D is [A,C,D] with
    total 18 and the shortest one has total 550; [A,B,D] and [A,C,D] tie at
    550, C is expanded first and records D with predecessor C, and when B is
    expanded the arc B–D of equal cumulative cost leaves the state as it is;
    in general an arc whose cumulative cost is not strictly smaller never
    overwrites. *)
Theorem scenario_safest_and_shortest :
  (exists r, engines_dijkstra.compute_route (scenario true) "A" "D" safest false = Returns r
     /\ engines_dijkstra.path r = ["A"; "C"; "D"]
     /\ engines_dijkstra.total_cost r == 18)
  /\ (exists r, engines_dijkstra.compute_route (scenario true) "A" "D" shortest false = Returns r
        /\ engines_dijkstra.path r = ["A"; "C"; "D"]
        /\ engines_dijkstra.total_cost r == 550)
  /\ (let adj := adjacency (scenario true) shortest false in
      (exists W, route adj "A" ["A"; "B"; "D"] "D" W /\ W == 550)
      /\ (exists W, route adj "A" ["A"; "C"; "D"] "D" W /\ W == 550)
      /\ exists stA itC restC stC itB restB,
           relax_arcs "A" (adj_get adj "A")
             {| dist := {["A" := 0]}; prev := {["A" := None]}; pq := [] |} = Returns stA
           /\ heapq.heappop (pq stA) = Some (itC, restC) /\ node_id itC = "C"
           /\ relax_arcs "C" (adj_get adj "C")
                {| dist := dist stA; prev := prev stA; pq := restC |} = Returns stC
           /\ prev stC !! "D" = Some (Some "C")
           /\ heapq.heappop (pq stC) = Some (itB, restB) /\ node_id itB = "B"
           /\ relax_arcs "B" (adj_get adj "B")
                {| dist := dist stC; prev := prev stC; pq := restB |}
              = Returns {| dist := dist stC; prev := prev stC; pq := restB |})
  /\ (forall u v w e arcs st du dv,
        dist st !! u = Some du -> dist st !! v = Some dv -> du + w == dv ->
        relax_arcs u ((v, w, e) :: arcs) st = relax_arcs u arcs st).
Proof.
  split_and!.
  - eexists. split; [vm_compute; reflexivity|]. split; [reflexivity|]. vm_compute. reflexivity.
  - eexists. split; [vm_compute; reflexivity|]. split; [reflexivity|]. vm_compute. reflexivity.
  - cbv zeta. split_and!.
    + eexists. split.
      * apply (route_arc _ _ ["A"; "B"] "B"
                 ("D", edge_weight shortest (scenario_edge "B-D" "B" "D" 270 15 true),
                  scenario_edge "B-D" "B" "D" 270 15 true)).
        -- apply (route_arc _ _ ["A"] "A"
                    ("B", edge_weight shortest (scenario_edge "A-B" "A" "B" 280 5 true),
                     scenario_edge "A-B" "A" "B" 280 5 true)); [constructor|].
           rewrite adjacency_get. vm_compute. apply list_elem_of_here.
        -- rewrite adjacency_get. vm_compute. apply list_elem_of_further, list_elem_of_here.
      * vm_compute. reflexivity.
    + eexists. split.
      * apply (route_arc _ _ ["A"; "C"] "C"
                 ("D", edge_weight shortest (scenario_edge "C-D" "C" "D" 280 8 true),
                  scenario_edge "C-D" "C" "D" 280 8 true)).
        -- apply (route_arc _ _ ["A"] "A"
                    ("C", edge_weight shortest (scenario_edge "A-C" "A" "C" 270 10 true),
                     scenario_edge "A-C" "A" "C" 270 10 true)); [constructor|].
           rewrite adjacency_get. vm_compute. apply list_elem_of_further, list_elem_of_here.
        -- rewrite adjacency_get. vm_compute. apply list_elem_of_further, list_elem_of_here.
      * vm_compute. reflexivity.
    + do 6 eexists.
      split; [vm_compute; reflexivity|]. split; [vm_compute; reflexivity|].
      split; [reflexivity|]. split; [vm_compute; reflexivity|].
      split; [vm_compute; reflexivity|]. split; [vm_compute; reflexivity|].
      split; [reflexivity|]. vm_compute. reflexivity.
  - intros u v w e arcs st du dv Hu Hv Heq.
    apply (relax_arcs_no_overwrite u v w e arcs st du dv Hu Hv). lra.
Qed.

(** ** The accessibility filter and the weight floor *)

Lemma included_true edge : included true edge = false <-> is_accessible edge = Some false.
Proof.
  unfold included, get_flag. destruct (is_accessible edge) as [[]|]; simpl; naive_solver.
Qed.

Lemma included_false edge : included false edge = true.
Proof. reflexivity. Qed.

Lemma excluded_count_true db :
  excluded_count db true
  = length (filter (fun edge => is_accessible edge = Some false) (streets db)).
Proof.
  unfold excluded_count. f_equal. apply list_filter_iff. intros edge.
  apply included_true.
Qed.

Lemma excluded_count_false db : excluded_count db false = 0%nat.
Proof.
  unfold excluded_count. induction (streets db) as [|e es IH]; [done|].
  now rewrite filter_cons_False.
Qed.

(** C5. With [ada_required] every street whose accessibility flag is false
    contributes no arc to the snapshot and counts once in the exclusion
    counter, so [hazards_bypassed] never exceeds the number of such streets;
    on the scenario graph with B–D inaccessible the safest accessible route
    from A to D is [A,C,D] with total 18 and one edge bypassed. *)
Theorem ada_filter_excludes_inaccessible (db : Store) (mode : Mode) :
  (forall edge u a, edge ∈ streets db -> is_accessible edge = Some false ->
     a ∈ adj_get (adjacency db mode true) u -> arc_edge a <> edge)
  /\ (engines_dijkstra.build_adjacency_list db mode true).2
     = length (filter (fun edge => is_accessible edge = Some false) (streets db))
  /\ (forall origin destination ada_required r,
        engines_dijkstra.compute_route db origin destination mode ada_required = Returns r ->
        (engines_dijkstra.hazards_bypassed r
         <= length (filter (fun edge => is_accessible edge = Some false) (streets db)))%nat)
  /\ exists r, engines_dijkstra.compute_route (scenario false) "A" "D" safest true = Returns r
       /\ engines_dijkstra.path r = ["A"; "C"; "D"]
       /\ engines_dijkstra.total_cost r == 18
       /\ engines_dijkstra.hazards_bypassed r = 1%nat.
Proof.
  split_and!.
  - intros edge u a _ Hacc (edge' & _ & Hinc & Ha)%adjacency_arc.
    apply arcs_from_weight in Ha as (-> & _). intros ->.
    apply included_true in Hacc. congruence.
  - rewrite build_adjacency_list_eq. simpl. apply excluded_count_true.
  - intros origin destination ada_required r. rewrite compute_route_eq.
    destruct (find_path _ _ _) as [[p d]|e|]; try done.
    destruct (path_coordinates _ _) as [cs|e|]; try done.
    destruct (d !! destination); [|done]. intros [= <-]. simpl.
    destruct ada_required.
    + now rewrite excluded_count_true.
    + rewrite excluded_count_false. lia.
  - eexists. split; [vm_compute; reflexivity|]. split; [reflexivity|].
    split; [vm_compute; reflexivity|reflexivity].
Qed.

(** C7. After snapshot construction every arc weight is at least the floor
    0.01, hence strictly positive, in both modes and in both builders; the
    weight of a street is its danger score or distance when that is at least
    0.01 and the floor otherwise, so a zero or negative source value gives
    0.01. *)
Theorem arc_weights_positive (db : Store) (mode : Mode) :
  (forall ada_required u a,
     a ∈ adj_get (engines_dijkstra.build_adjacency_list db mode ada_required).1.1 u ->
     0 < arc_weight a /\ 0.01 <= arc_weight a)
  /\ (forall u a,
        a ∈ adj_get (services_dijkstra.build_adjacency_list db mode).1 u ->
        0 < arc_weight a /\ 0.01 <= arc_weight a)
  /\ (forall edge,
        let source := match mode with
                      | safest => danger_score edge
                      | shortest => distance_m edge
                      end in
        0.01 <= edge_weight mode edge
        /\ (source <= 0.01 -> edge_weight mode edge == 0.01)
        /\ (0.01 <= source -> edge_weight mode edge == source)).
Proof.
  assert (H : forall ada_required u a,
            a ∈ adj_get (adjacency db mode ada_required) u ->
            0 < arc_weight a /\ 0.01 <= arc_weight a).
  { intros ada_required u a (edge & _ & _ & Ha)%adjacency_arc.
    apply arcs_from_weight in Ha as (_ & -> & _).
    pose proof (edge_weight_floor mode edge). split; lra. }
  split_and!.
  - apply H.
  - rewrite services_build_adjacency_list. apply H.
  - intros edge source. split; [apply edge_weight_floor|].
    unfold edge_weight, py_max. fold source.
    destruct (Qltb source 0.01) eqn:E.
    + apply Qltb_lt in E. split; intros; lra.
    + apply Qltb_ge in E. split; intros; lra.
Qed.

(** ** Ids without an intersection document *)

Lemma path_coordinates_missing coords p :
  (exists nid, nid ∈ p /\ coords !! nid = None) ->
  exists k, k ∈ p /\ coords !! k = None
    /\ path_coordinates coords p = Raises (KeyError k).
Proof.
  intros (nid & Hin & Hnone).
  pose proof (path_coordinates_spec coords p) as Hspec.
  destruct (path_coordinates coords p) as [cs|[|k]|]; try done.
  - exfalso. apply list_elem_of_lookup in Hin as [i Hi].
    destruct (Forall2_lookup_l _ _ _ _ _ Hspec Hi) as (c & _ & Hc). congruence.
  - exists k. now destruct Hspec.
Qed.

Lemma coords_of_None db u : coords_of db !! u = None <-> ~ is_node db u.
Proof.
  rewrite <- coords_of_is_Some, eq_None_not_Some. done.
Qed.

(** C10. A street creates an adjacency entry for its start id (and for its
    end id when bidirectional) whether or not the id has an intersection
    document; and whenever the reconstructed path visits an id without a
    document, collecting the coordinates raises [KeyError] on such an id:
    the call returns no result and raises neither of the [ValueError]s. *)
Theorem missing_node_raises_KeyError (db : Store) (mode : Mode) (ada_required : bool) :
  (forall edge, edge ∈ streets db -> included ada_required edge = true ->
     is_Some (adjacency db mode ada_required !! start_intersection_id edge)
     /\ (get_flag (bidirectional edge) = true ->
         is_Some (adjacency db mode ada_required !! end_intersection_id edge)))
  /\ (forall origin destination path_ids dist,
        find_path (adjacency db mode ada_required) origin destination
          = Returns (path_ids, dist) ->
        (exists nid, nid ∈ path_ids /\ ~ is_node db nid) ->
        exists k, k ∈ path_ids /\ ~ is_node db k
          /\ engines_dijkstra.compute_route db origin destination mode ada_required
             = Raises (KeyError k)
          /\ (ada_required = false ->
              services_dijkstra.dijkstra db origin destination mode
              = Raises (KeyError k))).
Proof.
  split.
  - intros edge Hin Hinc. split; [|intros Hbi];
      apply adjacency_is_Some; right; exists edge; split_and!; try done;
      unfold arcs_from.
    + now rewrite decide_True.
    + rewrite Hbi, (decide_True (P := end_intersection_id edge = _)) by done.
      now destruct (decide _).
  - intros origin destination path_ids dist Hfind (nid & Hin & Hnode).
    destruct (path_coordinates_missing (coords_of db) path_ids) as (k & Hk & Hnone & Hraise).
    { exists nid. split; [done|]. now apply coords_of_None. }
    exists k. split_and!; [done|now apply coords_of_None| |].
    + now rewrite compute_route_eq, Hfind, Hraise.
    + intros ->. now rewrite dijkstra_compute_route, compute_route_eq, Hfind, Hraise.
Qed.

Lemma missing_node_raises_KeyError_witness :
  exists k, k ∈ ["X"; "Y"] /\ ~ is_node dangling_store k
    /\ engines_dijkstra.compute_route dangling_store "X" "Y" safest false
       = Raises (KeyError k)
    /\ (false = false ->
        services_dijkstra.dijkstra dangling_store "X" "Y" safest = Raises (KeyError k)).
Proof.
  apply (proj2 (missing_node_raises_KeyError dangling_store safest false)
           "X" "Y" ["X"; "Y"] {["X" := 0; "Y" := 0 + edge_weight safest (scenario_edge "X-Y" "X" "Y" 100 1 true)]}).
  - vm_compute. reflexivity.
  - exists "X". split; [apply list_elem_of_here|].
    intros (doc & Hdoc & _). simpl in Hdoc. now apply elem_of_nil in Hdoc.
Defined.

(** Every node of a route other than the origin is the head of an arc. *)
Lemma route_nodes adj origin p v W :
  route adj origin p v W ->
  origin ∈ p /\ v ∈ p
  /\ forall x, x ∈ p -> x = origin \/ exists u a, a ∈ adj_get adj u /\ arc_neighbour a = x.
Proof.
  induction 1 as [|p u a W _ (Ho & Hu & Hall) Ha].
  - split_and!; [apply list_elem_of_here..|]. intros x ->%list_elem_of_singleton. now left.
  - split_and!.
    + apply elem_of_app. now left.
    + apply elem_of_app. right. apply list_elem_of_here.
    + intros x [Hx| ->%list_elem_of_singleton]%elem_of_app; [auto|]. right. eauto.
Qed.

(** ** Node not found *)

(** C4, as the code has it.  The origin is looked up in the adjacency map,
    which holds the intersection ids and the arc-bearing endpoints of the
    streets read: a request whose origin is neither fails with the
    origin-not-found [ValueError], and so does every request on the empty
    store. *)
Theorem origin_absent_from_adjacency_not_found
    (db : Store) (origin destination : string) (mode : Mode) (ada_required : bool) :
  ~ is_node db origin ->
  (forall edge, edge ∈ streets db -> included ada_required edge = true ->
     start_intersection_id edge <> origin
     /\ (get_flag (bidirectional edge) = true -> end_intersection_id edge <> origin)) ->
  engines_dijkstra.compute_route db origin destination mode ada_required
    = Raises (ValueError (OriginNotFound origin))
  /\ engines_dijkstra.compute_route {| intersections := []; streets := [] |}
       origin destination mode ada_required
     = Raises (ValueError (OriginNotFound origin)).
Proof.
  intros Hnode Hedges. split; [|reflexivity].
  rewrite compute_route_eq. unfold find_path.
  destruct (adjacency db mode ada_required !! origin) as [arcs|] eqn:E; [|done].
  exfalso. assert (His : is_Some (adjacency db mode ada_required !! origin)) by eauto.
  apply adjacency_is_Some in His as [|(edge & Hin & Hinc & Harcs)]; [done|].
  destruct (Hedges edge Hin Hinc) as [Hs He]. apply Harcs. unfold arcs_from.
  rewrite decide_False by done. destruct (get_flag (bidirectional edge)); [|done].
  rewrite decide_False; [done|]. now apply He.
Qed.

Lemma origin_absent_from_adjacency_not_found_witness :
  engines_dijkstra.compute_route (scenario true) "Z" "D" safest false
    = Raises (ValueError (OriginNotFound "Z"))
  /\ engines_dijkstra.compute_route {| intersections := []; streets := [] |}
       "Z" "D" safest false
     = Raises (ValueError (OriginNotFound "Z")).
Proof.
  apply (origin_absent_from_adjacency_not_found (scenario true) "Z" "D" safest false).
  - intros (doc & Hdoc & Hid). simpl in Hdoc.
    repeat (apply elem_of_cons in Hdoc as [->|Hdoc]; [discriminate Hid|]).
    now apply elem_of_nil in Hdoc.
  - intros edge Hin _. simpl in Hin.
    repeat (apply elem_of_cons in Hin as [->|Hin]; [split; [discriminate|intros _; discriminate]|]).
    now apply elem_of_nil in Hin.
Defined.

(** C4 as the specification words it fails where the origin has no
    intersection document but is the start of a street: the origin is in the
    adjacency map and the request ends with the no-path [ValueError]. *)
Lemma origin_only_edge_endpoint_no_path :
  engines_dijkstra.compute_route one_way_store "X" "D" safest false
    = Raises (ValueError (NoPath "X" "D"))
  /\ ~ is_node one_way_store "X".
Proof.
  split; [vm_compute; reflexivity|].
  intros (doc & Hdoc & Hid). simpl in Hdoc.
  apply list_elem_of_singleton in Hdoc as ->. discriminate Hid.
Qed.

(** ** Origin equal to destination *)

Lemma walk_back_None fuel prev path_ids :
  walk_back fuel prev None path_ids = Returns path_ids.
Proof. now destruct fuel. Qed.





(** ** The filter never lowers the cost *)

Lemma adjacency_filter_sub db mode u a :
  a ∈ adj_get (adjacency db mode true) u -> a ∈ adj_get (adjacency db mode false) u.
Proof.
  intros (edge & Hin & _ & Ha)%adjacency_arc.
  rewrite adjacency_get. apply list_elem_of_In, in_flat_map. exists edge.
  split; apply list_elem_of_In; [|done].
  unfold included_streets. now apply list_elem_of_filter.
Qed.

Lemma route_filter_sub db mode origin p v W :
  route (adjacency db mode true) origin p v W ->
  route (adjacency db mode false) origin p v W.
Proof.
  induction 1 as [|p u a W _ IH Ha]; [constructor|].
  apply (route_arc _ _ p u a W IH). now apply adjacency_filter_sub.
Qed.

(** C6, as the code has it.  When the request with the filter off returns
    a result and the request with the filter on does not fail on a missing
    coordinate record, the latter returns a total cost that is no smaller,
    or raises the no-path [ValueError]. *)
Theorem ada_never_lowers_cost (db : Store) (origin destination : string) (mode : Mode)
    (r_off : engines_dijkstra.Route) :
  engines_dijkstra.compute_route db origin destination mode false = Returns r_off ->
  (forall k, engines_dijkstra.compute_route db origin destination mode true
             <> Raises (KeyError k)) ->
  (exists r_on,
     engines_dijkstra.compute_route db origin destination mode true = Returns r_on
     /\ engines_dijkstra.total_cost r_off <= engines_dijkstra.total_cost r_on)
  \/ engines_dijkstra.compute_route db origin destination mode true
     = Raises (ValueError (NoPath origin destination)).
Proof.
  intros Hoff Hkey.
  pose proof (compute_route_cheapest _ _ _ _ _ _ Hoff) as (W0 & Hr0 & _ & _ & Hmin0 & Hc0).
  rewrite compute_route_eq in Hoff.
  destruct (find_path (adjacency db mode false) _ _) as [[p0 d0]|e|] eqn:Hf0; try done.
  pose proof (path_coordinates_spec (coords_of db) p0) as Hcs0.
  destruct (path_coordinates _ p0) as [cs0|e|]; try done.
  destruct (d0 !! destination) as [dd0|]; [|done].
  injection Hoff as <-.
  cbn [engines_dijkstra.total_cost engines_dijkstra.path] in Hr0, Hc0 |- *.
  assert (Hnodes : is_node db origin /\ is_node db destination).
  { destruct (route_nodes _ _ _ _ _ Hr0) as (Ho & Hd & _).
    split; apply coords_of_is_Some.
    - apply list_elem_of_lookup in Ho as [i Hi].
      destruct (Forall2_lookup_l _ _ _ _ _ Hcs0 Hi) as (c & _ & Hc). eauto.
    - apply list_elem_of_lookup in Hd as [i Hi].
      destruct (Forall2_lookup_l _ _ _ _ _ Hcs0 Hi) as (c & _ & Hc). eauto. }
  destruct Hnodes as [Hno Hnd].
  rewrite compute_route_eq in Hkey |- *.
  pose proof (find_path_spec (adjacency db mode true) origin destination
                (adjacency_weights_pos db mode true)) as Hspec.
  assert (Hio : is_Some (adjacency db mode true !! origin))
    by (apply adjacency_is_Some; now left).
  assert (Hid : is_Some (adjacency db mode true !! destination))
    by (apply adjacency_is_Some; now left).
  destruct (find_path (adjacency db mode true) _ _) as [[p1 d1]|[[o|d|o d]|k]|]; try done.
  - destruct Hspec as (_ & _ & W1 & dd1 & Hdd1 & Hr1 & HW1 & _).
    pose proof (path_coordinates_spec (coords_of db) p1) as Hcs1.
    destruct (path_coordinates _ p1) as [cs1|[m|k]|]; try done.
    + rewrite Hdd1. left. eexists. split; [reflexivity|].
      cbn [engines_dijkstra.total_cost].
      pose proof (Hmin0 p1 W1 (route_filter_sub _ _ _ _ _ _ Hr1)) as Hle.
      rewrite Hc0. apply (py_round_mono W0 dd1 4). lra.
    + now destruct (Hkey k).
  - destruct Hspec as (_ & Hnone). rewrite Hnone in Hio. now destruct Hio.
  - destruct Hspec as (_ & _ & Hnone). rewrite Hnone in Hid. now destruct Hid.
  - destruct Hspec as (-> & -> & _). now right.
Qed.

Lemma ada_never_lowers_cost_witness :
  (exists r_on,
     engines_dijkstra.compute_route (scenario false) "A" "D" safest true = Returns r_on
     /\ py_round 18 4 <= engines_dijkstra.total_cost r_on)
  \/ engines_dijkstra.compute_route (scenario false) "A" "D" safest true
     = Raises (ValueError (NoPath "A" "D")).
Proof.
  apply (ada_never_lowers_cost (scenario false) "A" "D" safest
           {| engines_dijkstra.path := ["A"; "C"; "D"];
              engines_dijkstra.coordinates :=
                [[-91.7713; 37.9554]; [-91.7713; 37.9530]; [-91.7743; 37.9530]];
              engines_dijkstra.total_cost := py_round 18 4;
              engines_dijkstra.mode := safest;
              engines_dijkstra.ada_required := false;
              engines_dijkstra.hazards_bypassed := 0 |}).
  - vm_compute. reflexivity.
  - intros k. vm_compute. discriminate.
Defined.

(** C6 as the specification words it fails where the direct street is
    inaccessible and the accessible detour passes through an id without a
    document: with the filter off the request returns a cost, with the
    filter on it raises [KeyError]. *)
Lemma ada_detour_raises_KeyError :
  (exists r_off,
     engines_dijkstra.compute_route detour_store "A" "D" safest false = Returns r_off
     /\ engines_dijkstra.total_cost r_off == 1)
  /\ engines_dijkstra.compute_route detour_store "A" "D" safest true
     = Raises (KeyError "X").
Proof.
  split; [|vm_compute; reflexivity].
  eexists. split; vm_compute; reflexivity.
Qed.

(** ** The hazard blend *)

Module gemini_facts.
Import services_gemini.

Lemma street_id_set_danger_score edge s :
  street_id (set_danger_score edge s) = street_id edge.
Proof. reflexivity. Qed.

Lemma update_one_first pre edge post s :
  street_id edge ∉ street_id <$> pre ->
  update_one (pre ++ edge :: post) (street_id edge) s
  = pre ++ set_danger_score edge s :: post.
Proof.
  induction pre as [|e pre IH]; intros Hnotin; simpl.
  - now rewrite decide_True.
  - rewrite fmap_cons, not_elem_of_cons in Hnotin. destruct Hnotin as [Hne Hnotin].
    rewrite decide_False by done. now rewrite IH.
Qed.

Lemma fold_update_edge pattern severity post :
  forall pre n,
    NoDup (street_id <$> pre ++ post) ->
    foldl (update_edge severity) (pre ++ post, n)
      (filter (fun edge => name_matches pattern edge = true) post)
    = (pre ++ map (blend_if_matching pattern severity) post,
       (n + length (filter (fun edge => name_matches pattern edge = true) post))%nat).
Proof.
  induction post as [|e post IH]; intros pre n Hnodup.
  - simpl. f_equal. lia.
  - assert (Hpre : street_id e ∉ street_id <$> pre).
    { rewrite fmap_app, fmap_cons in Hnodup.
      apply NoDup_app in Hnodup as (_ & Hdisj & _).
      intros Hin. apply (Hdisj _ Hin). apply list_elem_of_here. }
    assert (Hstep : forall col,
              update_edge severity (col, n) e
              = (update_one col (street_id e) (blend (danger_score e) severity), S n))
      by reflexivity.
    change (map (blend_if_matching pattern severity) (e :: post))
      with (blend_if_matching pattern severity e
            :: map (blend_if_matching pattern severity) post).
    unfold blend_if_matching at 1.
    destruct (name_matches pattern e) eqn:E.
    + rewrite filter_cons_True by done. cbn [foldl]. rewrite Hstep.
      rewrite update_one_first by done.
      rewrite (cons_middle _ pre post), app_assoc.
      rewrite IH.
      * rewrite <- app_assoc. simpl. f_equal. lia.
      * rewrite <- app_assoc. simpl.
        rewrite fmap_app, fmap_cons, street_id_set_danger_score,
          <- fmap_cons, <- fmap_app. done.
    + rewrite filter_cons_False by (now rewrite E).
      rewrite (cons_middle e pre post), app_assoc.
      rewrite IH by (now rewrite <- app_assoc).
      now rewrite <- app_assoc.
Qed.

Lemma update_danger_scores_eq col pattern severity :
  literal_pattern pattern = true -> NoDup (street_id <$> col) ->
  _update_danger_scores col pattern severity
  = Some (map (blend_if_matching pattern severity) col,
          length (filter (fun edge => name_matches pattern edge = true) col)).
Proof.
  intros Hlit Hnodup. unfold _update_danger_scores, find_by_name. rewrite Hlit.
  f_equal.
  rewrite (list_filter_iff _ (fun edge => name_matches pattern edge = true)).
  2:{ intros edge. unfold regex_search_i, name_matches. rewrite Hlit.
      split; [now intros [= ->]|now intros ->]. }
  apply (fold_update_edge pattern severity col [] 0%nat Hnodup).
Qed.


End gemini_facts.

Import services_gemini gemini_facts.




(** ** Repeated observations *)

Lemma py_round_on_grid x : on_grid x -> py_round x 2 == x.
Proof.
  intros [k Hk]. rewrite (py_round_proper _ _ 2 Hk), Hk. apply (py_round_grid k 1).
Qed.

Lemma on_grid_Z (s : Z) : on_grid (inject_Z s).
Proof. exists (100 * s)%Z. unfold Qeq. simpl. lia. Qed.

Lemma blend_on_grid old s : on_grid (blend old s).
Proof.
  unfold blend, py_min. destruct (Qltb _ 100).
  - eexists. unfold py_round. reflexivity.
  - apply (on_grid_Z 100).
Qed.

Lemma blend_cases old s :
  let r := py_round (0.6 * old + 0.4 * inject_Z s) 2 in
  (r < 100 /\ blend old s = r) \/ (100 <= r /\ blend old s = 100).
Proof.
  unfold blend, py_min. cbv zeta.
  destruct (Qltb _ 100) eqn:E; [left|right]; split; try done.
  - now apply Qltb_lt.
  - now apply Qltb_ge.
Qed.

Lemma blend_range old s :
  0 <= old <= 100 -> (1 <= s <= 100)%Z -> 0 <= blend old s <= 100.
Proof.
  intros Hold Hs.
  assert (1 <= inject_Z s <= 100).
  { split; [change 1 with (inject_Z 1)|change 100 with (inject_Z 100)];
      rewrite <- Zle_Qle; lia. }
  pose proof (py_round_mono 0 (0.6 * old + 0.4 * inject_Z s) 2) as Hlo.
  assert (H0 : py_round 0 2 == 0) by (vm_compute; reflexivity).
  destruct (blend_cases old s) as [[Hr ->]|[Hr ->]]; lra.
Qed.

Lemma blend_le_severity old s : old <= inject_Z s -> blend old s <= inject_Z s.
Proof.
  intros Hle.
  pose proof (py_round_mono (0.6 * old + 0.4 * inject_Z s) (inject_Z s) 2) as Hm.
  pose proof (py_round_on_grid _ (on_grid_Z s)) as Hs.
  destruct (blend_cases old s) as [[Hr ->]|[Hr ->]]; lra.
Qed.

Lemma blend_ge_severity old s :
  (s <= 100)%Z -> inject_Z s <= old -> inject_Z s <= blend old s.
Proof.
  intros Hs100 Hle.
  assert (inject_Z s <= 100) by (change 100 with (inject_Z 100); rewrite <- Zle_Qle; lia).
  pose proof (py_round_mono (inject_Z s) (0.6 * old + 0.4 * inject_Z s) 2) as Hm.
  pose proof (py_round_on_grid _ (on_grid_Z s)) as Hs.
  destruct (blend_cases old s) as [[Hr ->]|[Hr ->]]; lra.
Qed.

Lemma blend_grid_up old s :
  on_grid old -> old <= 100 -> old <= inject_Z s -> old <= blend old s.
Proof.
  intros Hgrid H100 Hle.
  pose proof (py_round_mono old (0.6 * old + 0.4 * inject_Z s) 2) as Hm.
  pose proof (py_round_on_grid _ Hgrid) as Hold.
  destruct (blend_cases old s) as [[Hr ->]|[Hr ->]]; lra.
Qed.

Lemma blend_grid_down old s :
  on_grid old -> inject_Z s <= old -> blend old s <= old.
Proof.
  intros Hgrid Hle.
  pose proof (py_round_mono (0.6 * old + 0.4 * inject_Z s) old 2) as Hm.
  pose proof (py_round_on_grid _ Hgrid) as Hold.
  destruct (blend_cases old s) as [[Hr ->]|[Hr ->]]; lra.
Qed.

(** C8, as the code has it.  From every starting score in [0,100] and for
    every severity in [1,100] the repeatedly blended score stays in [0,100]
    and on the starting side of the severity; and it moves monotonically
    toward the severity from the second observation on, and from the first
    when the starting score has at most two decimal places. *)
Theorem blend_moves_toward_severity (old : Q) (s : Z) (n : nat) :
  0 <= old <= 100 -> (1 <= s <= 100)%Z ->
  0 <= blend_n n old s <= 100
  /\ (old <= inject_Z s -> blend_n n old s <= inject_Z s)
  /\ (inject_Z s <= old -> inject_Z s <= blend_n n old s)
  /\ (on_grid old \/ (1 <= n)%nat ->
      (old <= inject_Z s -> blend_n n old s <= blend_n (S n) old s)
      /\ (inject_Z s <= old -> blend_n (S n) old s <= blend_n n old s)).
Proof.
  intros Hold Hs.
  assert (Hinv : forall m,
            0 <= blend_n m old s <= 100
            /\ (old <= inject_Z s -> blend_n m old s <= inject_Z s)
            /\ (inject_Z s <= old -> inject_Z s <= blend_n m old s)).
  { induction m as [|m (Hr & Hup & Hdown)]; [simpl; tauto|].
    cbn [blend_n]. split; [|split].
    - now apply blend_range.
    - intros H. now apply blend_le_severity, Hup.
    - intros H. apply blend_ge_severity; [lia|]. now apply Hdown. }
  destruct (Hinv n) as (Hr & Hup & Hdown).
  split; [done|]. split; [done|]. split; [done|].
  intros Hgrid.
  assert (Hg : on_grid (blend_n n old s)).
  { destruct n; [destruct Hgrid; [done|lia]|]. apply blend_on_grid. }
  cbn [blend_n]. split; intros H.
  - apply blend_grid_up; [done|lra|]. now apply Hup.
  - apply blend_grid_down; [done|]. now apply Hdown.
Qed.

Lemma blend_moves_toward_severity_witness :
  0 <= blend_n 3 45 90 <= 100
  /\ (45 <= inject_Z 90 -> blend_n 3 45 90 <= inject_Z 90)
  /\ (inject_Z 90 <= 45 -> inject_Z 90 <= blend_n 3 45 90)
  /\ (on_grid 45 \/ (1 <= 3)%nat ->
      (45 <= inject_Z 90 -> blend_n 3 45 90 <= blend_n 4 45 90)
      /\ (inject_Z 90 <= 45 -> blend_n 4 45 90 <= blend_n 3 45 90)).
Proof.
  apply (blend_moves_toward_severity 45 90 3).
  - split; vm_compute; discriminate.
  - lia.
Defined.

(** C8 as the specification words it fails on a starting score with a third
    decimal place: from 49.991 the first observation of severity 50 gives
    49.99, away from 50. *)
Lemma blend_off_grid_moves_away :
  (0 <= 49.991 /\ 49.991 <= 100)
  /\ 49.991 < inject_Z 50
  /\ blend 49.991 50 == 49.99
  /\ blend 49.991 50 < 49.991.
Proof.
  split_and!; vm_compute; reflexivity || discriminate.
Qed.

(** ** Termination and reachability *)

Lemma relax_arcs_fuel u arcs : forall st, relax_arcs u arcs st <> OutOfFuel.
Proof.
  induction arcs as [|[[v w] e] arcs IH]; intros st; [done|].
  cbn [relax_arcs]. unfold getitem. destruct (dist st !! u); [|done].
  outcome_simpl. destruct (lt_inf _ _); apply IH.
Qed.

(** A larger budget changes nothing once the loop has ended within the
    budget. *)
Lemma search_loop_more_fuel adj destination fuel :
  forall st k,
    search_loop fuel adj destination st <> OutOfFuel ->
    search_loop (fuel + k) adj destination st = search_loop fuel adj destination st.
Proof.
  induction fuel as [|fuel IH]; intros st k Hrun; [done|].
  cbn [Nat.add search_loop] in *.
  destruct (heapq.heappop (pq st)) as [[it rest]|]; [|done].
  destruct (decide (node_id it = destination)); [done|].
  cbn [dist prev pq] in *.
  destruct (gt_inf _ _); [now apply IH|].
  destruct (relax_arcs _ _ _); [now apply IH|done..].
Qed.

Lemma walk_back_more_fuel prev fuel :
  forall current path_ids k p,
    walk_back fuel prev current path_ids = Returns p ->
    walk_back (fuel + k) prev current path_ids = Returns p.
Proof.
  induction fuel as [|fuel IH]; intros [c|] path_ids k p; simpl; try done.
  - intros [= <-]. apply walk_back_None.
  - apply IH.
Qed.

(** Every call of [compute_route] ends: it returns or raises, and the
    search loop ends in the same state under every budget at least as large
    as the one the model gives it. *)
Theorem compute_route_terminates (db : Store) (origin destination : string)
    (mode : Mode) (ada_required : bool) :
  ((exists r, engines_dijkstra.compute_route db origin destination mode ada_required
              = Returns r)
   \/ exists e, engines_dijkstra.compute_route db origin destination mode ada_required
                = Raises e)
  /\ exists st, forall k,
       search_loop (search_fuel (adjacency db mode ada_required) + k)
         (adjacency db mode ada_required) destination (initial_state origin)
       = Returns st.
Proof.
  split.
  - rewrite compute_route_eq.
    pose proof (find_path_spec (adjacency db mode ada_required) origin destination
                  (adjacency_weights_pos db mode ada_required)) as Hspec.
    destruct (find_path _ _ _) as [[p d]|e|]; [|eauto|done].
    pose proof (path_coordinates_spec (coords_of db) p) as Hcs.
    destruct (path_coordinates _ _) as [cs|e|]; [|eauto|done].
    destruct (d !! destination); eauto.
  - destruct (search_loop_spec (adjacency db mode ada_required) origin destination
                (adjacency_weights_pos db mode ada_required)
                (search_fuel (adjacency db mode ada_required))
                (initial_state origin) ∅
                (initial_path_inv _ _) (initial_queue_inv _ _ _))
      as (st & Hrun & _).
    { rewrite arcs_outside_empty. unfold search_fuel. simpl. lia. }
    exists st. intros k. rewrite search_loop_more_fuel; [done|]. now rewrite Hrun.
Qed.



(** The list of a node holds, in the order of the streets read, one arc to
    the end of each street that starts at the node and, for a bidirectional
    street, one arc to the start of each street that ends at it, all with
    the floored weight of the street; a node is in the map exactly when it is
    an intersection or has such an arc. *)
Theorem snapshot_arcs (db : Store) (mode : Mode) (ada_required : bool) (u : string) :
  adj_get (adjacency db mode ada_required) u
    = flat_map (arcs_from mode u) (included_streets db ada_required)
  /\ (is_Some (adjacency db mode ada_required !! u)
      <-> is_node db u \/ adj_get (adjacency db mode ada_required) u <> []).
Proof.
  split; [apply adjacency_get|].
  rewrite adjacency_is_Some, adjacency_get. split; (intros [|H]; [now left|right]).
  - destruct H as (edge & Hin & Hinc & Hne). intros Hnil.
    apply Hne. destruct (arcs_from mode u edge) as [|a l] eqn:E; [done|].
    assert (Ha : a ∈ flat_map (arcs_from mode u) (included_streets db ada_required)).
    { apply list_elem_of_In, in_flat_map. exists edge. split; apply list_elem_of_In.
      - unfold included_streets. now apply list_elem_of_filter.
      - rewrite E. apply list_elem_of_here. }
    rewrite Hnil in Ha. now apply elem_of_nil in Ha.
  - destruct (flat_map _ _) as [|a l] eqn:E; [done|].
    assert (Ha : a ∈ flat_map (arcs_from mode u) (included_streets db ada_required))
      by (rewrite E; apply list_elem_of_here).
    apply list_elem_of_In, in_flat_map in Ha as (edge & Hin & Ha).
    apply list_elem_of_In in Hin, Ha.
    unfold included_streets in Hin. apply list_elem_of_filter in Hin as [? ?].
    exists edge. split_and!; try done. intros Hnil. rewrite Hnil in Ha.
    now apply elem_of_nil in Ha.
Qed.

(** * The rest of the backend *)

(** ** The shape of a returned route *)

(** A walk can be cut at any of its nodes: the part up to the node is a
    walk, and the rest can be appended to any other walk to that node. *)
Lemma route_split adj origin
    (Hpos : forall u a, a ∈ adj_get adj u -> 0 < arc_weight a) p x q :
  forall v W,
    route adj origin (p ++ x :: q) v W ->
    exists W1 Wq,
      route adj origin (p ++ [x]) x W1 /\ W == W1 + Wq /\ 0 <= Wq
      /\ (q <> [] -> 0 < Wq)
      /\ forall p0 W0, route adj origin (p0 ++ [x]) x W0 ->
           exists W', route adj origin (p0 ++ x :: q) v W' /\ W' == W0 + Wq.
Proof.
  induction q as [|n q IH] using rev_ind; intros v W Hr.
  - destruct (route_head_last _ _ _ _ _ Hr) as [_ Hl].
    rewrite last_snoc in Hl. injection Hl as <-.
    exists W, 0. split_and!; [done|lra|lra|done|].
    intros p0 W0 Hr0. exists W0. split; [done|lra].
  - remember (p ++ x :: q ++ [n]) as l eqn:El.
    destruct Hr as [|p' u a W' Hr' Ha].
    + apply (f_equal length) in El. rewrite length_app in El. simpl in El.
      rewrite length_app in El. simpl in El. lia.
    + change (p ++ x :: q ++ [n]) with (p ++ (x :: q) ++ [n]) in El.
      rewrite app_assoc in El. apply app_inj_tail in El as [-> Hn].
      destruct (IH _ _ Hr') as (W1 & Wq & H1 & HW & Hq0 & _ & Hre).
      pose proof (Hpos _ _ Ha) as Hw.
      exists W1, (Wq + arc_weight a). split_and!; [done|lra|lra|intros _; lra|].
      intros p0 W0 Hr0. destruct (Hre p0 W0 Hr0) as (W'' & Hr'' & HW'').
      exists (W'' + arc_weight a). split; [|lra].
      rewrite <- Hn.
      change (p0 ++ x :: q ++ [arc_neighbour a])
        with (p0 ++ (x :: q) ++ [arc_neighbour a]).
      rewrite app_assoc. now apply (route_arc _ _ _ u a W'').
Qed.

Lemma repeated_element (l : list string) :
  ~ NoDup l -> exists x l1 l2 l3, l = l1 ++ x :: l2 ++ x :: l3.
Proof.
  induction l as [|a l IH]; intros Hdup.
  - destruct Hdup. constructor.
  - destruct (decide (a ∈ l)) as [Hin|Hnotin].
    + apply list_elem_of_split in Hin as (l2 & l3 & ->). now exists a, [], l2, l3.
    + destruct IH as (x & l1 & l2 & l3 & ->).
      { intros Hnd. apply Hdup. now constructor. }
      now exists x, (a :: l1), l2, l3.
Qed.

(** A cheapest route visits no node twice. *)
Lemma cheapest_route_NoDup adj origin destination p c :
  (forall u a, a ∈ adj_get adj u -> 0 < arc_weight a) ->
  cheapest_route adj origin destination p c -> NoDup p.
Proof.
  intros Hpos (W & Hr & _ & _ & Hmin & _).
  destruct (decide (NoDup p)) as [|Hdup]; [done|exfalso].
  apply repeated_element in Hdup as (x & l1 & l2 & l3 & ->).
  change (l1 ++ x :: l2 ++ x :: l3) with (l1 ++ (x :: l2) ++ x :: l3) in Hr.
  rewrite app_assoc in Hr.
  destruct (route_split adj origin Hpos _ _ _ _ _ Hr)
    as (W2 & Wq3 & Hr2 & HW & _ & _ & Hre).
  rewrite <- app_assoc in Hr2. simpl in Hr2.
  change (l1 ++ x :: l2 ++ [x]) with (l1 ++ x :: (l2 ++ [x])) in Hr2.
  destruct (route_split adj origin Hpos _ _ _ _ _ Hr2)
    as (W1 & Wq2 & Hr1 & HW2 & _ & Hq2 & _).
  assert (0 < Wq2) by (apply Hq2; now destruct l2).
  destruct (Hre l1 W1 Hr1) as (W' & Hr' & HW').
  pose proof (Hmin _ _ Hr'). lra.
Qed.

(** Every arc costs at least 0.01, so a walk costs at least 0.01 per hop. *)
Lemma adjacency_weight_floor db mode ada_required u a :
  a ∈ adj_get (adjacency db mode ada_required) u -> 0.01 <= arc_weight a.
Proof.
  intros (edge & _ & _ & Ha)%adjacency_arc.
  apply arcs_from_weight in Ha as (_ & -> & _). apply edge_weight_floor.
Qed.

Lemma route_hops db mode ada_required origin p v W :
  route (adjacency db mode ada_required) origin p v W ->
  (1 <= length p)%nat /\ inject_Z (Z.of_nat (length p - 1)) * 0.01 <= W.
Proof.
  induction 1 as [|p u a W _ [Hlen IH] Ha]; [split; [simpl; lia|vm_compute; discriminate]|].
  apply adjacency_weight_floor in Ha. rewrite length_app. simpl. split; [lia|].
  replace (length p + 1 - 1)%nat with (S (length p - 1)) by lia.
  rewrite Nat2Z.inj_succ, <- Z.add_1_r, inject_Z_plus. change (inject_Z 1) with 1. lra.
Qed.

(** What the snapshot records for an id is the location of an intersection
    document with that id. *)
Lemma fold_intersections_coords docs u c :
  forall acc,
    (foldl add_intersection acc docs).2 !! u = Some c ->
    acc.2 !! u = Some c
    \/ exists doc, doc ∈ docs /\ intersection_id doc = u /\ location_coordinates doc = c.
Proof.
  induction docs as [|doc docs IH]; intros acc; simpl; [now left|].
  intros [H|(doc' & Hin & Hid & Hloc)]%IH.
  - simpl in H. destruct (decide (intersection_id doc = u)) as [Heq|Hne].
    + rewrite Heq, lookup_insert_eq in H. injection H as <-.
      right. exists doc. split_and!; [apply list_elem_of_here|done..].
    + rewrite lookup_insert_ne in H by done. now left.
  - right. exists doc'. split_and!; [now apply list_elem_of_further|done..].
Qed.

Lemma coords_of_Some db u c :
  coords_of db !! u = Some c ->
  exists doc, doc ∈ intersections db /\ intersection_id doc = u
    /\ location_coordinates doc = c.
Proof.
  unfold coords_of. intros [H|H]%fold_intersections_coords; [|done].
  simpl in H. now rewrite lookup_empty in H.
Qed.

(** The outcomes of [compute_route], case by case. *)
Lemma compute_route_cases db origin destination mode ada_required :
  let adj := adjacency db mode ada_required in
  match engines_dijkstra.compute_route db origin destination mode ada_required with
  | Returns r =>
      is_Some (adj !! origin) /\ is_Some (adj !! destination)
      /\ (exists W, route adj origin (engines_dijkstra.path r) destination W
            /\ (forall p' W', route adj origin p' destination W' -> W <= W')
            /\ engines_dijkstra.total_cost r = py_round W 4)
      /\ Forall2 (fun nid c => coords_of db !! nid = Some c)
           (engines_dijkstra.path r) (engines_dijkstra.coordinates r)
      /\ engines_dijkstra.mode r = mode
      /\ engines_dijkstra.ada_required r = ada_required
      /\ engines_dijkstra.hazards_bypassed r = excluded_count db ada_required
  | Raises (ValueError (OriginNotFound o)) => o = origin /\ adj !! origin = None
  | Raises (ValueError (DestinationNotFound d)) =>
      d = destination /\ is_Some (adj !! origin) /\ adj !! destination = None
  | Raises (ValueError (NoPath o d)) =>
      o = origin /\ d = destination
      /\ is_Some (adj !! origin) /\ is_Some (adj !! destination)
      /\ forall p W, ~ route adj origin p destination W
  | Raises (KeyError k) =>
      ~ is_node db k
      /\ is_Some (adj !! origin) /\ is_Some (adj !! destination)
      /\ exists p W, k ∈ p /\ route adj origin p destination W
           /\ forall p' W', route adj origin p' destination W' -> W <= W'
  | OutOfFuel => False
  end.
Proof.
  intros adj. rewrite compute_route_eq. fold adj.
  pose proof (find_path_spec adj origin destination
                (adjacency_weights_pos db mode ada_required)) as Hspec.
  destruct (find_path _ _ _) as [[p d]|[[o|dd|o dd]|k]|]; try done.
  destruct Hspec as (Ho & Hd & W & c & Hc & Hr & HW & Hmin).
  pose proof (path_coordinates_spec (coords_of db) p) as Hcs.
  destruct (path_coordinates _ _) as [cs|[m|k]|]; try done.
  - rewrite Hc.
    cbn [engines_dijkstra.path engines_dijkstra.coordinates
         engines_dijkstra.total_cost engines_dijkstra.mode
         engines_dijkstra.ada_required engines_dijkstra.hazards_bypassed].
    split_and!; try done. exists W. split_and!; [done| |].
    + intros p' W' Hr'. pose proof (Hmin p' W' Hr'). lra.
    + symmetry. now apply (py_round_proper W c 4).
  - destruct Hcs as [Hk Hnone]. split_and!; try done.
    + now apply coords_of_None.
    + exists p, W. split_and!; [done..|].
      intros p' W' Hr'. pose proof (Hmin p' W' Hr'). lra.
Qed.

(** X5. The path of a result visits no node twice, and the coordinates
    list has one entry per node of the path, in order: the location of an
    intersection document with that id. *)
Theorem returned_path_is_simple (db : Store) (origin destination : string)
    (mode : Mode) (ada_required : bool) (r : engines_dijkstra.Route) :
  engines_dijkstra.compute_route db origin destination mode ada_required = Returns r ->
  NoDup (engines_dijkstra.path r)
  /\ head (engines_dijkstra.path r) = Some origin
  /\ last (engines_dijkstra.path r) = Some destination
  /\ length (engines_dijkstra.coordinates r) = length (engines_dijkstra.path r)
  /\ forall i nid, engines_dijkstra.path r !! i = Some nid ->
       exists doc, doc ∈ intersections db /\ intersection_id doc = nid
         /\ engines_dijkstra.coordinates r !! i = Some (location_coordinates doc).
Proof.
  intros Hrun.
  pose proof (compute_route_cheapest _ _ _ _ _ _ Hrun) as Hcheap.
  pose proof (compute_route_cases db origin destination mode ada_required) as Hc.
  rewrite Hrun in Hc. destruct Hc as (_ & _ & _ & Hcs & _).
  split_and!.
  - eapply cheapest_route_NoDup; [|exact Hcheap]. apply adjacency_weights_pos.
  - now destruct Hcheap as (W & _ & Hh & _).
  - now destruct Hcheap as (W & _ & _ & Hl & _).
  - symmetry. eapply Forall2_length, Hcs.
  - intros i nid Hi. destruct (Forall2_lookup_l _ _ _ _ _ Hcs Hi) as (c & Hci & Hc).
    apply coords_of_Some in Hc as (doc & Hin & Hid & <-). eauto.
Qed.

Lemma returned_path_is_simple_witness :
  NoDup ["A"; "C"; "D"]
  /\ head ["A"; "C"; "D"] = Some "A"
  /\ last ["A"; "C"; "D"] = Some "D"
  /\ length [[-91.7713; 37.9554]; [-91.7713; 37.9530]; [-91.7743; 37.9530]]
     = length ["A"; "C"; "D"]
  /\ forall i nid, ["A"; "C"; "D"] !! i = Some nid ->
       exists doc, doc ∈ intersections (scenario true) /\ intersection_id doc = nid
         /\ [[-91.7713; 37.9554]; [-91.7713; 37.9530]; [-91.7743; 37.9530]] !! i
            = Some (location_coordinates doc).
Proof.
  apply (returned_path_is_simple (scenario true) "A" "D" safest false
           {| engines_dijkstra.path := ["A"; "C"; "D"];
              engines_dijkstra.coordinates :=
                [[-91.7713; 37.9554]; [-91.7713; 37.9530]; [-91.7743; 37.9530]];
              engines_dijkstra.total_cost := py_round 18 4;
              engines_dijkstra.mode := safest;
              engines_dijkstra.ada_required := false;
              engines_dijkstra.hazards_bypassed := 0 |}).
  vm_compute. reflexivity.
Defined.

Lemma py_round_hops (h : Z) : py_round (inject_Z h * 0.01) 4 == inject_Z h * 0.01.
Proof.
  assert (Hg : inject_Z h * 0.01 == (100 * h # Pos.pow 10 (Pos.of_nat 4))).
  { change (Pos.pow 10 (Pos.of_nat 4)) with 10000%positive.
    unfold Qeq, Qmult, inject_Z. cbn [Qnum Qden]. lia. }
  rewrite (py_round_proper _ _ 4 Hg), Hg. apply (py_round_grid (100 * h) 3).
Qed.

(** X6. The total cost is at least 0.01 per hop of the path, and it is 0
    exactly when the origin is the destination, in which case the path is
    the origin alone. *)
Theorem total_cost_per_hop (db : Store) (origin destination : string)
    (mode : Mode) (ada_required : bool) (r : engines_dijkstra.Route) :
  engines_dijkstra.compute_route db origin destination mode ada_required = Returns r ->
  inject_Z (Z.of_nat (length (engines_dijkstra.path r) - 1)) * 0.01
    <= engines_dijkstra.total_cost r
  /\ (engines_dijkstra.total_cost r == 0 <-> origin = destination)
  /\ (origin = destination -> engines_dijkstra.path r = [origin]).
Proof.
  intros Hrun.
  pose proof (compute_route_cheapest _ _ _ _ _ _ Hrun) as (W & Hr & Hh & Hl & Hmin & Hc).
  destruct (route_hops _ _ _ _ _ _ _ Hr) as [Hlen Hhops].
  set (p := engines_dijkstra.path r) in *.
  set (h := Z.of_nat (length p - 1)) in *.
  assert (Hbound : inject_Z h * 0.01 <= engines_dijkstra.total_cost r).
  { rewrite Hc, <- (py_round_hops h). now apply py_round_mono. }
  assert (Hsingle : (length p = 1)%nat -> origin = destination /\ p = [origin]).
  { intros H1. destruct p as [|a [|b p']]; simpl in H1; try lia.
    simpl in Hh, Hl. split; congruence. }
  assert (Hself : origin = destination -> W == 0 /\ (length p = 1)%nat).
  { intros <-. pose proof (Hmin _ _ (route_origin _ origin)) as Hle.
    pose proof (route_nonneg _ _ (adjacency_weights_pos db mode ada_required) _ _ _ Hr).
    split; [lra|].
    assert (Hh0 : inject_Z h <= inject_Z 0) by (change (inject_Z 0) with 0; lra).
    rewrite <- Zle_Qle in Hh0. unfold h in Hh0. lia. }
  split_and!; [done| |].
  - split.
    + intros H0. apply Hsingle.
      assert (Hh0 : inject_Z h < inject_Z 1) by (change (inject_Z 1) with 1; lra).
      rewrite <- Zlt_Qlt in Hh0. unfold h in Hh0. lia.
    + intros [HW _]%Hself. rewrite Hc, (py_round_proper _ _ 4 HW).
      vm_compute. reflexivity.
  - intros [_ H1]%Hself. now apply Hsingle.
Qed.

Lemma total_cost_per_hop_witness :
  inject_Z (Z.of_nat (length ["A"; "C"; "D"] - 1)) * 0.01 <= py_round 18 4
  /\ (py_round 18 4 == 0 <-> "A" = "D")
  /\ ("A" = "D" -> ["A"; "C"; "D"] = ["A"]).
Proof.
  apply (total_cost_per_hop (scenario true) "A" "D" safest false
           {| engines_dijkstra.path := ["A"; "C"; "D"];
              engines_dijkstra.coordinates :=
                [[-91.7713; 37.9554]; [-91.7713; 37.9530]; [-91.7743; 37.9530]];
              engines_dijkstra.total_cost := py_round 18 4;
              engines_dijkstra.mode := safest;
              engines_dijkstra.ada_required := false;
              engines_dijkstra.hazards_bypassed := 0 |}).
  vm_compute. reflexivity.
Defined.

(** ** Bidirectional stores *)

(** Two walks that meet can be joined. *)
Lemma route_app adj a p b W1 :
  route adj a p b W1 ->
  forall q c W2, route adj b q c W2 ->
    exists W, route adj a (p ++ tail q) c W /\ W == W1 + W2.
Proof.
  intros Hp q c W2 Hq. induction Hq as [|q u arc W2 Hq (W & IH & HW) Harc].
  - exists W1. simpl. rewrite app_nil_r. split; [done|lra].
  - exists (W + arc_weight arc). split; [|lra].
    destruct (route_head_last _ _ _ _ _ Hq) as [Hh _].
    destruct q as [|x q]; [done|]. simpl in *. rewrite app_assoc.
    now apply (route_arc _ _ _ u arc W).
Qed.

Lemma adjacency_elem db mode ada_required u a edge :
  edge ∈ streets db -> included ada_required edge = true ->
  a ∈ arcs_from mode u edge ->
  a ∈ adj_get (adjacency db mode ada_required) u.
Proof.
  intros Hin Hinc Ha. rewrite adjacency_get.
  apply list_elem_of_In, in_flat_map. exists edge. split; apply list_elem_of_In; [|done].
  unfold included_streets. now apply list_elem_of_filter.
Qed.

(** On a store whose streets are all bidirectional every arc has a reverse
    arc of the same weight. *)
Lemma reverse_arc db mode ada_required u a :
  (forall edge, edge ∈ streets db -> get_flag (bidirectional edge) = true) ->
  a ∈ adj_get (adjacency db mode ada_required) u ->
  exists a', a' ∈ adj_get (adjacency db mode ada_required) (arc_neighbour a)
    /\ arc_neighbour a' = u /\ arc_weight a' = arc_weight a.
Proof.
  intros Hbi Ha.
  destruct (adjacency_arc _ _ _ _ _ Ha) as (edge & Hin & Hinc & Hfrom).
  pose proof (Hbi edge Hin) as Hflag.
  destruct (arcs_from_weight _ _ _ _ Hfrom) as (_ & Hw & [[Hs Hn]|(He & Hn & _)]).
  - exists (start_intersection_id edge, edge_weight mode edge, edge).
    split_and!; [|done|done].
    apply (adjacency_elem _ _ _ _ _ edge Hin Hinc).
    unfold arcs_from. rewrite Hflag, Hn.
    rewrite (decide_True (P := end_intersection_id edge = _)) by done.
    apply elem_of_app. right. apply list_elem_of_here.
  - exists (end_intersection_id edge, edge_weight mode edge, edge).
    split_and!; [|done|done].
    apply (adjacency_elem _ _ _ _ _ edge Hin Hinc).
    unfold arcs_from. rewrite Hn.
    rewrite (decide_True (P := start_intersection_id edge = _)) by done.
    apply list_elem_of_here.
Qed.

Lemma route_reverse db mode ada_required origin p v W :
  (forall edge, edge ∈ streets db -> get_flag (bidirectional edge) = true) ->
  route (adjacency db mode ada_required) origin p v W ->
  exists W', route (adjacency db mode ada_required) v (reverse p) origin W' /\ W' == W.
Proof.
  intros Hbi. induction 1 as [|p u a W Hr (W' & IH & HW) Ha].
  - exists 0. split; [apply route_origin|lra].
  - destruct (reverse_arc _ _ _ _ _ Hbi Ha) as (a' & Ha' & Hn' & Hw').
    pose proof (route_arc _ _ _ _ a' 0 (route_origin _ (arc_neighbour a)) Ha') as Hstep.
    rewrite Hn' in Hstep.
    destruct (route_app _ _ _ _ _ Hstep _ _ _ IH) as (W'' & Hr'' & HW'').
    exists W''. split; [|rewrite Hw' in HW''; lra].
    rewrite reverse_snoc.
    destruct (route_head_last _ _ _ _ _ IH) as [Hh _].
    destruct (reverse p) as [|x q]; [done|]. simpl in Hh. injection Hh as ->.
    exact Hr''.
Qed.



(** ** The mode changes weights only *)









(** ** A store without inaccessible streets *)

(** X9. When no street is flagged inaccessible the filter changes nothing:
    the request with [ada_required] returns the path, coordinates and cost
    of the request without it, reports no bypassed hazard, and raises the
    same exceptions. *)
Theorem ada_idle_on_accessible_store (db : Store) (origin destination : string)
    (mode : Mode) :
  (forall edge, edge ∈ streets db -> is_accessible edge <> Some false) ->
  engines_dijkstra.compute_route db origin destination mode true
  = match engines_dijkstra.compute_route db origin destination mode false with
    | Returns r =>
        Returns {| engines_dijkstra.path := engines_dijkstra.path r;
                   engines_dijkstra.coordinates := engines_dijkstra.coordinates r;
                   engines_dijkstra.total_cost := engines_dijkstra.total_cost r;
                   engines_dijkstra.mode := mode;
                   engines_dijkstra.ada_required := true;
                   engines_dijkstra.hazards_bypassed := 0 |}
    | Raises e => Raises e
    | OutOfFuel => OutOfFuel
    end.
Proof.
  intros Hacc.
  assert (Hall : forall es : list Street,
            (forall edge, edge ∈ es -> is_accessible edge <> Some false) ->
            forall acc,
              foldl (engines_dijkstra.add_street mode true) acc es
              = foldl (engines_dijkstra.add_street mode false) acc es).
  { induction es as [|e es IH]; intros Hes acc; [done|]. simpl.
    rewrite <- IH by (intros edge Hin; apply Hes; now right). f_equal.
    unfold engines_dijkstra.add_street.
    assert (He : get_flag (is_accessible e) = true).
    { pose proof (Hes e (list_elem_of_here _ _)) as Hne.
      unfold get_flag. now destruct (is_accessible e) as [[]|]. }
    now rewrite He. }
  assert (Hb : engines_dijkstra.build_adjacency_list db mode true
               = engines_dijkstra.build_adjacency_list db mode false).
  { unfold engines_dijkstra.build_adjacency_list.
    destruct (foldl add_intersection _ _) as [adj0 coords].
    now rewrite (Hall _ Hacc). }
  assert (Hadj : adjacency db mode true = adjacency db mode false)
    by (unfold adjacency; now rewrite Hb).
  assert (Hex : excluded_count db true = 0%nat).
  { pose proof (build_adjacency_list_eq db mode true) as E1.
    pose proof (build_adjacency_list_eq db mode false) as E2.
    rewrite Hb, E2 in E1. injection E1 as _ E1. rewrite <- E1.
    apply excluded_count_false. }
  rewrite !compute_route_eq, Hadj, Hex, excluded_count_false.
  destruct (find_path _ _ _) as [[p d]|e|]; [|done..].
  destruct (path_coordinates _ _) as [cs|e|]; [|done..].
  now destruct (d !! destination).
Qed.

Lemma ada_idle_on_accessible_store_witness :
  engines_dijkstra.compute_route (scenario true) "A" "D" safest true
  = match engines_dijkstra.compute_route (scenario true) "A" "D" safest false with
    | Returns r =>
        Returns {| engines_dijkstra.path := engines_dijkstra.path r;
                   engines_dijkstra.coordinates := engines_dijkstra.coordinates r;
                   engines_dijkstra.total_cost := engines_dijkstra.total_cost r;
                   engines_dijkstra.mode := safest;
                   engines_dijkstra.ada_required := true;
                   engines_dijkstra.hazards_bypassed := 0 |}
    | Raises e => Raises e
    | OutOfFuel => OutOfFuel
    end.
Proof.
  apply (ada_idle_on_accessible_store (scenario true) "A" "D" safest).
  intros edge Hin. simpl in Hin.
  repeat (apply elem_of_cons in Hin as [->|Hin]; [discriminate|]).
  now apply elem_of_nil in Hin.
Defined.

(** ** Hops and streets *)




(** ** The route endpoints *)


(** X11. The mode of [POST /api/route/safewalk] is not validated: every
    mode string other than "safest" is routed by [distance_m], exactly as
    "shortest", and is returned unchanged in the response. *)
Theorem unknown_mode_routes_by_distance (db : Store) (origin destination mode : string)
    (ada_required : bool) :
  mode <> "safest" ->
  main.route_safewalk db origin destination mode ada_required
  = match main.route_safewalk db origin destination "shortest" ada_required with
    | Responds body =>
        Responds {| main.path := main.path body;
                    main.coordinates := main.coordinates body;
                    main.total_cost := main.total_cost body;
                    main.mode := mode;
                    main.ada_required := main.ada_required body;
                    main.hazards_bypassed := main.hazards_bypassed body |}
    | other => other
    end.
Proof.
  intros Hne. unfold main.route_safewalk, main.mode_of_str.
  rewrite decide_False by done. rewrite (decide_False (P := "shortest" = "safest")) by done.
  now destruct (engines_dijkstra.compute_route _ _ _ _ _) as [r|[m|k]|].
Qed.

Lemma unknown_mode_routes_by_distance_witness :
  main.route_safewalk (scenario true) "A" "D" "Safest" false
  = match main.route_safewalk (scenario true) "A" "D" "shortest" false with
    | Responds body =>
        Responds {| main.path := main.path body;
                    main.coordinates := main.coordinates body;
                    main.total_cost := main.total_cost body;
                    main.mode := "Safest";
                    main.ada_required := main.ada_required body;
                    main.hazards_bypassed := main.hazards_bypassed body |}
    | other => other
    end.
Proof.
  apply (unknown_mode_routes_by_distance (scenario true) "A" "D" "Safest" false).
  discriminate.
Defined.

(** When every street ends at intersections, the keys of the adjacency map
    are the intersection ids. *)
Lemma endpoints_exist_adjacency db mode ada_required u :
  endpoints_exist db ->
  is_Some (adjacency db mode ada_required !! u) <-> is_node db u.
Proof.
  intros Hint. rewrite adjacency_is_Some. split; [|now left].
  intros [|(edge & Hin & _ & Harcs)]; [done|].
  destruct (Hint edge Hin) as [Hs He]. unfold arcs_from in Harcs.
  destruct (decide (start_intersection_id edge = u)) as [<-|]; [done|].
  destruct (get_flag _); [|done].
  destruct (decide (end_intersection_id edge = u)) as [<-|]; done.
Qed.

Lemma endpoints_exist_route db mode ada_required origin p v W :
  endpoints_exist db -> is_node db origin ->
  route (adjacency db mode ada_required) origin p v W ->
  forall k, k ∈ p -> is_node db k.
Proof.
  intros Hint Ho Hr k Hk.
  destruct (route_nodes _ _ _ _ _ Hr) as (_ & _ & Hall).
  destruct (Hall k Hk) as [->|(u & a & Ha & <-)]; [done|].
  destruct (adjacency_arc _ _ _ _ _ Ha) as (edge & Hin & _ & Hfrom).
  destruct (Hint edge Hin) as [Hs He].
  destruct (arcs_from_weight _ _ _ _ Hfrom) as (_ & _ & [[_ ->]|(_ & -> & _)]); done.
Qed.




Lemma mode_of_str_of_mode mode : main.mode_of_str (str_of_mode mode) = mode.
Proof. now destruct mode. Qed.

(** X13. With two well-formed ids, [GET /api/route] of [app/routers] and
    [POST /api/route/safewalk] of [main.py] without [ada_required] return
    the same path, coordinates and cost, and answer 404 in the same cases;
    where the cheapest path meets an id without an intersection document
    the former lets the [KeyError] through and the latter answers 500.
    With an ill-formed id the former answers 400 whatever the store
    holds. *)
Theorem route_endpoints_agree (is_valid : string -> bool) (db : Store)
    (start end_ : string) (mode : Mode) :
  (is_valid start = true -> is_valid end_ = true ->
   match routers_routing.get_safe_route is_valid db start end_ mode,
         main.route_safewalk db start end_ (str_of_mode mode) false with
   | Responds result, Responds body =>
       services_dijkstra.path result = main.path body
       /\ services_dijkstra.coordinates result = main.coordinates body
       /\ services_dijkstra.total_cost result = main.total_cost body
       /\ str_of_mode (services_dijkstra.mode result) = main.mode body
   | Fails exc, Fails exc' => status_code exc = 404%nat /\ status_code exc' = 404%nat
   | Propagates (KeyError _), Fails exc' => status_code exc' = 500%nat
   | _, _ => False
   end)
  /\ (is_valid start = false \/ is_valid end_ = false ->
      routers_routing.get_safe_route is_valid db start end_ mode
      = Fails {| status_code := 400; detail := "Invalid ObjectId format" |}).
Proof.
  split.
  - intros Hs He. unfold routers_routing.get_safe_route, main.route_safewalk.
    rewrite Hs, He. cbn [negb orb].
    rewrite dijkstra_compute_route, mode_of_str_of_mode.
    pose proof (compute_route_cases db start end_ mode false) as Hc.
    destruct (engines_dijkstra.compute_route _ _ _ _ _) as [r|[msg|k]|]; try done.
    cbn. destruct Hc as (_ & _ & _ & _ & -> & _). done.
  - intros [H|H]; unfold routers_routing.get_safe_route; rewrite H; [done|].
    now rewrite orb_true_r.
Qed.

Lemma route_endpoints_agree_witness :
  match routers_routing.get_safe_route (fun _ => true) (scenario true) "A" "D" safest,
        main.route_safewalk (scenario true) "A" "D" (str_of_mode safest) false with
  | Responds result, Responds body =>
      services_dijkstra.path result = main.path body
      /\ services_dijkstra.coordinates result = main.coordinates body
      /\ services_dijkstra.total_cost result = main.total_cost body
      /\ str_of_mode (services_dijkstra.mode result) = main.mode body
  | Fails exc, Fails exc' => status_code exc = 404%nat /\ status_code exc' = 404%nat
  | Propagates (KeyError _), Fails exc' => status_code exc' = 500%nat
  | _, _ => False
  end.
Proof.
  apply (proj1 (route_endpoints_agree (fun _ => true) (scenario true) "A" "D" safest));
    reflexivity.
Defined.

(** ** Fenced answers *)

Module py_str_facts.
Import services_gemini py_str.

Lemma append_String c s t : String c s +:+ t = String c (s +:+ t).
Proof. reflexivity. Qed.

Lemma append_nil t : EmptyString +:+ t = t.
Proof. reflexivity. Qed.

Lemma lstrip_spaces ws s : all_space ws = true -> lstrip (ws +:+ s) = lstrip s.
Proof.
  induction ws as [|c ws IH]; [done|]. simpl. intros [Hc Hws]%andb_true_iff.
  rewrite ?append_String. cbn [lstrip]. rewrite Hc. now apply IH.
Qed.

Lemma rstrip_spaces ws : all_space ws = true -> rstrip ws = EmptyString.
Proof.
  induction ws as [|c ws IH]; [done|]. simpl. intros [Hc Hws]%andb_true_iff.
  now rewrite IH, Hc.
Qed.

Lemma rstrip_spaces_r s ws : all_space ws = true -> rstrip (s +:+ ws) = rstrip s.
Proof.
  intros Hws. induction s as [|c s IH].
  - rewrite ?append_nil. now apply rstrip_spaces.
  - rewrite ?append_String. cbn [rstrip]. now rewrite IH.
Qed.

(** A text that ends with a character that is not white space is its own
    right strip. *)
Lemma rstrip_ends s c :
  isspace c = false -> rstrip (s +:+ String c EmptyString) = s +:+ String c EmptyString.
Proof.
  intros Hc. induction s as [|a s IH].
  - rewrite ?append_nil. cbn [rstrip]. now rewrite Hc.
  - rewrite ?append_String. cbn [rstrip]. rewrite IH.
    destruct s; [rewrite ?append_nil|rewrite ?append_String]; reflexivity.
Qed.

Lemma starts_with_refl p s : starts_with p (p +:+ s) = true.
Proof.
  induction p as [|c p IH]; [now destruct s|].
  rewrite ?append_String. cbn [starts_with]. now rewrite bool_decide_eq_true_2, IH.
Qed.

Lemma contains_app_r p s t : contains p t = true -> contains p (s +:+ t) = true.
Proof.
  intros Ht. induction s as [|c s IH]; [done|].
  rewrite ?append_String. cbn [contains]. rewrite IH. apply orb_true_r.
Qed.

Lemma contains_here p s : starts_with p s = true -> contains p s = true.
Proof. intros H. destruct s; cbn [contains]; now rewrite H. Qed.

Lemma drop_length p s : drop (String.length p) (p +:+ s) = s.
Proof. induction p as [|c p IH]; [now destruct s|]. exact IH. Qed.

(** Cutting at the first occurrence of a one-character separator. *)
Lemma split1_char c a b :
  contains (String c EmptyString) a = false ->
  split1 (String c EmptyString) (a +:+ String c b) = [a; b].
Proof.
  induction a as [|x a IH]; intros Hno.
  - rewrite ?append_nil. cbn [split1 starts_with].
    rewrite bool_decide_eq_true_2 by done. now destruct b.
  - cbn [contains starts_with] in Hno.
    apply orb_false_iff in Hno as [Hx Ha].
    rewrite ?append_String. cbn [split1 starts_with].
    destruct (bool_decide (c = x)) eqn:E.
    + destruct a; simpl in Hx; discriminate.
    + cbn [andb]. now rewrite (IH Ha).
Qed.

Lemma split1_absent c s :
  contains (String c EmptyString) s = false -> split1 (String c EmptyString) s = [s].
Proof.
  induction s as [|x s IH]; intros Hno; [done|].
  cbn [contains] in Hno. apply orb_false_iff in Hno as [Hx Hs].
  cbn [split1]. rewrite Hx. now rewrite (IH Hs).
Qed.

(** Cutting at the last occurrence: a text that ends with the separator
    is cut before it. *)
Lemma rsplit1_closing body :
  rsplit1 "```" (body +:+ "```") = [body; EmptyString].
Proof.
  induction body as [|c body IH]; [reflexivity|].
  rewrite ?append_String. cbn [rsplit1].
  rewrite contains_app_r by reflexivity. now rewrite IH.
Qed.

Lemma rsplit1_absent sep s :
  contains sep s = false -> rsplit1 sep s = [s].
Proof.
  destruct s as [|c s]; [done|]. intros Hno. cbn [contains] in Hno.
  apply orb_false_iff in Hno as [Hc Hs]. cbn [rsplit1]. now rewrite Hs, Hc.
Qed.

End py_str_facts.

Section fenced_answers.
Import services_gemini py_str py_str_facts.

Lemma append_assoc (a b c : string) : (a +:+ b) +:+ c = a +:+ (b +:+ c).
Proof. induction a as [|x a IH]; [done|]. rewrite !append_String. now f_equal. Qed.

(** Stripping a text that starts and ends with characters that are not
    white space removes the white space around it and nothing else. *)
Lemma strip_framed ws1 ws2 c s d :
  all_space ws1 = true -> all_space ws2 = true ->
  isspace c = false -> isspace d = false ->
  strip (ws1 +:+ String c (s +:+ String d EmptyString) +:+ ws2)
  = String c (s +:+ String d EmptyString).
Proof.
  intros H1 H2 Hc Hd. unfold strip. rewrite lstrip_spaces by done.
  rewrite ?append_String. cbn [lstrip]. rewrite Hc.
  rewrite <- append_String, rstrip_spaces_r by done.
  change (String c (s +:+ String d EmptyString))
    with (String c s +:+ String d EmptyString).
  now apply rstrip_ends.
Qed.

Lemma strip_fences_closed ws1 tag body ws2 :
  all_space ws1 = true -> all_space ws2 = true ->
  contains newline tag = false ->
  strip_fences (ws1 +:+ "```" +:+ tag +:+ newline +:+ body +:+ "```" +:+ ws2)
  = Some (strip body).
Proof.
  intros H1 H2 Htag. unfold strip_fences.
  assert (Hstrip : strip (ws1 +:+ "```" +:+ tag +:+ newline +:+ body +:+ "```" +:+ ws2)
                   = "```" +:+ tag +:+ newline +:+ body +:+ "```").
  { pose proof (strip_framed ws1 ws2 "`" ("``" +:+ tag +:+ newline +:+ body +:+ "``") "`"
                  H1 H2 eq_refl eq_refl) as Hs.
    repeat (rewrite !append_assoc in Hs || rewrite !append_String in Hs
            || rewrite !append_nil in Hs).
    repeat (rewrite !append_assoc || rewrite !append_String || rewrite !append_nil).
    exact Hs. }
  rewrite Hstrip. cbv zeta. rewrite starts_with_refl.
  assert (Hsplit : split1 newline ("```" +:+ tag +:+ newline +:+ body +:+ "```")
                   = ["```" +:+ tag; body +:+ "```"]).
  { rewrite <- (append_assoc "```" tag). apply (split1_char _ ("```" +:+ tag)).
    unfold newline in *. rewrite !append_String, append_nil.
    cbn [contains starts_with]. rewrite !bool_decide_eq_false_2 by done.
    exact Htag. }
  rewrite Hsplit. cbn [lookup list_lookup mbind option_bind].
  now rewrite rsplit1_closing.
Qed.

Lemma strip_fences_plain text :
  starts_with "```" (strip text) = false -> strip_fences text = Some (strip text).
Proof. intros H. unfold strip_fences. cbv zeta. now rewrite H. Qed.

Lemma strip_fences_no_newline text :
  starts_with "```" (strip text) = true -> contains newline (strip text) = false ->
  strip_fences text = None.
Proof.
  intros Hf Hn. unfold strip_fences. cbv zeta. rewrite Hf.
  unfold newline in *. now rewrite (split1_absent _ _ Hn).
Qed.

(** X14. An answer wrapped in a fence, with or without a language tag on
    the fence line and white space around, is read as its body: both
    parsers hand the stripped body to [json.loads], and [parse_incident]
    returns what it returns on the body alone. *)
Theorem fenced_answer_is_its_body (json_loads : string -> Json + string)
    (int_of_str : string -> Z + string) (gemini_api_key ws1 tag body ws2 : string) :
  all_space ws1 = true -> all_space ws2 = true -> contains newline tag = false ->
  let text := ws1 +:+ "```" +:+ tag +:+ newline +:+ body +:+ "```" +:+ ws2 in
  strip_fences text = Some (strip body)
  /\ engines_ai_triage._parse_json_response json_loads text
     = match json_loads (strip body) with
       | inl parsed => inl parsed
       | inr message => inr (engines_ai_triage.JSONDecodeError message)
       end
  /\ (starts_with "```" (strip body) = false ->
      incidents.parse_incident json_loads int_of_str gemini_api_key text
      = incidents.parse_incident json_loads int_of_str gemini_api_key body).
Proof.
  intros H1 H2 Htag text.
  pose proof (strip_fences_closed ws1 tag body ws2 H1 H2 Htag) as Hs. fold text in Hs.
  split_and!; [done| |].
  - unfold engines_ai_triage._parse_json_response. now rewrite Hs.
  - intros Hplain. unfold incidents.parse_incident.
    now rewrite Hs, (strip_fences_plain body Hplain).
Qed.

Lemma fenced_answer_is_its_body_witness :
  let text := " " +:+ "```" +:+ "json" +:+ newline +:+ "{}" +:+ "```" +:+ newline in
  strip_fences text = Some (strip "{}")
  /\ engines_ai_triage._parse_json_response (fun _ => inl (JObject [])) text
     = match (fun _ : string => @inl Json string (JObject [])) (strip "{}") with
       | inl parsed => inl parsed
       | inr message => inr (engines_ai_triage.JSONDecodeError message)
       end
  /\ (starts_with "```" (strip "{}") = false ->
      incidents.parse_incident (fun _ => inl (JObject [])) (fun _ => inl 0%Z) "key" text
      = incidents.parse_incident (fun _ => inl (JObject [])) (fun _ => inl 0%Z) "key" "{}").
Proof.
  apply (fenced_answer_is_its_body (fun _ => inl (JObject [])) (fun _ => inl 0%Z)
           "key" " " "json" "{}" newline); reflexivity.
Defined.

(** X15. A fenced answer with nothing after its fence line fails: the
    index into the split raises [IndexError], [_parse_json_response] lets
    it out, [parse_incident] turns it into its [ValueError], and
    [POST /api/incidents] answers 502 without storing anything. *)
Theorem fence_without_body_fails (json_loads : string -> Json + string)
    (int_of_str : string -> Z + string) (gemini_api_key text : string) :
  starts_with "```" (strip text) = true -> contains newline (strip text) = false ->
  gemini_api_key <> EmptyString ->
  engines_ai_triage._parse_json_response json_loads text
    = inr engines_ai_triage.IndexError
  /\ incidents.parse_incident json_loads int_of_str gemini_api_key text
     = incidents.Raise (incidents.ValueError
         "Failed to parse Gemini response: list index out of range")
  /\ forall now inserted_id incidents streets raw_text longitude latitude,
       incidents.report_incident json_loads int_of_str gemini_api_key text
         now inserted_id incidents streets raw_text longitude latitude
       = (incidents, streets,
          Fails {| status_code := 502;
                   detail := "Failed to parse Gemini response: list index out of range" |}).
Proof.
  intros Hf Hn Hkey. pose proof (strip_fences_no_newline text Hf Hn) as Hs.
  assert (Hp : incidents.parse_incident json_loads int_of_str gemini_api_key text
               = incidents.Raise (incidents.ValueError
                   "Failed to parse Gemini response: list index out of range")).
  { unfold incidents.parse_incident. rewrite decide_False by done. now rewrite Hs. }
  split_and!; [|done|].
  - unfold engines_ai_triage._parse_json_response. now rewrite Hs.
  - intros. unfold incidents.report_incident, incidents.ingest_incident.
    now rewrite Hp.
Qed.

Lemma fence_without_body_fails_witness :
  engines_ai_triage._parse_json_response (fun _ => inl JNull) ("```json" +:+ newline)
    = inr engines_ai_triage.IndexError
  /\ incidents.parse_incident (fun _ => inl JNull) (fun _ => inl 0%Z) "key"
       ("```json" +:+ newline)
     = incidents.Raise (incidents.ValueError
         "Failed to parse Gemini response: list index out of range")
  /\ forall now inserted_id incidents streets raw_text longitude latitude,
       incidents.report_incident (fun _ => inl JNull) (fun _ => inl 0%Z) "key"
         ("```json" +:+ newline)
         now inserted_id incidents streets raw_text longitude latitude
       = (incidents, streets,
          Fails {| status_code := 502;
                   detail := "Failed to parse Gemini response: list index out of range" |}).
Proof.
  apply (fence_without_body_fails (fun _ => inl JNull) (fun _ => inl 0%Z) "key"
           ("```json" +:+ newline)); [reflexivity|reflexivity|discriminate].
Defined.

End fenced_answers.

(** ** Severity and ingestion *)

Section incidents_facts.
Import incidents.

Variable json_loads : string -> Json + string.
Variable int_of_str : string -> Z + string.

Lemma parse_incident_Ok gemini_api_key text street sev cat :
  parse_incident json_loads int_of_str gemini_api_key text = Ok (street, sev, cat) ->
  gemini_api_key <> EmptyString
  /\ exists cleaned members n,
       strip_fences text = Some cleaned
       /\ json_loads cleaned = inl (JObject members)
       /\ int int_of_str (dict_get members "severity" (JInt 50)) = Ok n
       /\ street = dict_get members "street" JNull
       /\ sev = Z.max 1 (Z.min 100 n)
       /\ cat = dict_get members "category" (JString "other").
Proof.
  unfold parse_incident. destruct (decide _) as [|Hkey]; [done|].
  destruct (strip_fences text) as [cleaned|]; [|done].
  destruct (json_loads cleaned) as [parsed|message] eqn:Hj; [|done].
  destruct parsed; try done. cbn [as_dict mbind result_mbind result_bind].
  destruct (int _ _) as [n| |] eqn:Hn; try done.
  cbn [result_bind]. intros [= <- <- <-]. split; [done|].
  now exists cleaned, members, n.
Qed.


End incidents_facts.





Section ingestion.
Import incidents.

Lemma dict_get_absent members key default :
  key ∉ members.*1 -> dict_get members key default = default.
Proof.
  induction members as [|[k v] members IH]; [done|].
  rewrite fmap_cons, not_elem_of_cons. intros [Hne Hrest]. cbn [dict_get].
  rewrite decide_False by done. now apply IH.
Qed.

(** X16. The severity [parse_incident] returns is always between 1 and
    100, whatever the answer holds; an answer without a severity gives 50;
    and a severity of [null] raises a [TypeError], which neither
    [parse_incident] nor [POST /api/incidents] catches. *)
Theorem parsed_severity_in_range (json_loads : string -> Json + string)
    (int_of_str : string -> Z + string) (gemini_api_key text cleaned : string)
    (members : list (string * Json)) :
  gemini_api_key <> EmptyString ->
  strip_fences text = Some cleaned ->
  json_loads cleaned = inl (JObject members) ->
  (forall street sev cat,
     parse_incident json_loads int_of_str gemini_api_key text = Ok (street, sev, cat) ->
     (1 <= sev <= 100)%Z)
  /\ ("severity" ∉ members.*1 ->
      parse_incident json_loads int_of_str gemini_api_key text
      = Ok (dict_get members "street" JNull, 50%Z,
            dict_get members "category" (JString "other")))
  /\ (forall n, dict_get members "severity" (JInt 50) = JInt n ->
      parse_incident json_loads int_of_str gemini_api_key text
      = Ok (dict_get members "street" JNull, Z.max 1 (Z.min 100 n),
            dict_get members "category" (JString "other")))
  /\ (dict_get members "severity" (JInt 50) = JNull ->
      parse_incident json_loads int_of_str gemini_api_key text = Raise TypeError
      /\ forall now inserted_id incidents streets raw_text longitude latitude,
           report_incident json_loads int_of_str gemini_api_key text
             now inserted_id incidents streets raw_text longitude latitude
           = (incidents, streets, Propagates TypeError)).
Proof.
  intros Hkey Hs Hj.
  assert (Hparse : parse_incident json_loads int_of_str gemini_api_key text
                   = (n ← int int_of_str (dict_get members "severity" (JInt 50));
                      Ok (dict_get members "street" JNull, Z.max 1 (Z.min 100 n),
                          dict_get members "category" (JString "other")))).
  { unfold parse_incident. rewrite decide_False by done. now rewrite Hs, Hj. }
  split_and!.
  - intros street sev cat (_ & _ & _ & n & _ & _ & _ & _ & -> & _)%parse_incident_Ok. lia.
  - intros Habs. rewrite Hparse, (dict_get_absent members "severity" (JInt 50) Habs).
    reflexivity.
  - intros n Hn. now rewrite Hparse, Hn.
  - intros Hnull.
    assert (Hp : parse_incident json_loads int_of_str gemini_api_key text = Raise TypeError)
      by now rewrite Hparse, Hnull.
    split; [done|]. intros. unfold report_incident, ingest_incident. now rewrite Hp.
Qed.

Lemma parsed_severity_in_range_witness :
  let json_loads := fun _ : string =>
    @inl Json string (JObject [("street", JString "5th Ave"); ("severity", JInt 250)]) in
  let int_of_str := fun _ : string => @inl Z string 0%Z in
  let members := [("street", JString "5th Ave"); ("severity", JInt 250)] in
  (forall street sev cat,
     parse_incident json_loads int_of_str "key" "{}" = Ok (street, sev, cat) ->
     (1 <= sev <= 100)%Z)
  /\ ("severity" ∉ members.*1 ->
      parse_incident json_loads int_of_str "key" "{}"
      = Ok (dict_get members "street" JNull, 50%Z,
            dict_get members "category" (JString "other")))
  /\ (forall n, dict_get members "severity" (JInt 50) = JInt n ->
      parse_incident json_loads int_of_str "key" "{}"
      = Ok (dict_get members "street" JNull, Z.max 1 (Z.min 100 n),
            dict_get members "category" (JString "other")))
  /\ (dict_get members "severity" (JInt 50) = JNull ->
      parse_incident json_loads int_of_str "key" "{}" = Raise TypeError
      /\ forall now inserted_id incidents streets raw_text longitude latitude,
           report_incident json_loads int_of_str "key" "{}"
             now inserted_id incidents streets raw_text longitude latitude
           = (incidents, streets, Propagates TypeError)).
Proof.
  intros json_loads int_of_str members.
  apply (parsed_severity_in_range json_loads int_of_str "key" "{}" "{}" members);
    [discriminate|reflexivity|reflexivity].
Defined.






End ingestion.

(** ** Incidents and routes *)





Lemma Forall2_filter_rel {A} (R : A -> A -> Prop) (P Q : A -> Prop)
    `{!forall x, Decision (P x)} `{!forall x, Decision (Q x)} (l l' : list A) :
  (forall x y, R x y -> (P x <-> Q y)) ->
  Forall2 R l l' -> Forall2 R (filter P l) (filter Q l').
Proof.
  intros HPQ. induction 1 as [|x y l l' Hxy _ IH]; [constructor|].
  destruct (decide (P x)) as [HP|HP].
  - rewrite (filter_cons_True P) by done.
    rewrite (filter_cons_True Q) by (now apply (HPQ x y Hxy)). now constructor.
  - rewrite (filter_cons_False P) by done.
    rewrite (filter_cons_False Q); [done|]. intros HQ. now apply HP, (HPQ x y Hxy).
Qed.

Lemma Forall2_flat_map_rel {A B} (R : A -> A -> Prop) (S : B -> B -> Prop)
    (f g : A -> list B) (l l' : list A) :
  (forall x y, R x y -> Forall2 S (f x) (g y)) ->
  Forall2 R l l' -> Forall2 S (flat_map f l) (flat_map g l').
Proof.
  intros Hfg. induction 1 as [|x y l l' Hxy _ IH]; [constructor|].
  simpl. apply Forall2_app; auto.
Qed.

Lemma included_same_but_score ada_required e e' :
  same_but_score e e' -> included ada_required e' = included ada_required e.
Proof. intros (_ & _ & _ & _ & _ & Hacc & _). unfold included. now rewrite Hacc. Qed.











(** ** Scores and safest routes *)

Lemma py_max_mono a b c : a <= b -> py_max a c <= py_max b c.
Proof.
  intros Hab. unfold py_max.
  destruct (Qltb a c) eqn:E1, (Qltb b c) eqn:E2;
    try apply Qltb_lt in E1; try apply Qltb_lt in E2;
    try apply Qltb_ge in E1; try apply Qltb_ge in E2; lra.
Qed.

Lemma arcs_from_raised e e' u :
  same_but_score e e' -> danger_score e <= danger_score e' ->
  Forall2 arc_le (arcs_from safest u e) (arcs_from safest u e').
Proof.
  intros (_ & _ & Hs & He & Hd & _ & Hb) Hle. unfold arcs_from.
  rewrite Hs, He, Hb.
  assert (Hw : edge_weight safest e <= edge_weight safest e')
    by now apply py_max_mono.
  destruct (decide _), (get_flag _); try destruct (decide _);
    repeat constructor; done.
Qed.

Lemma adjacency_raised db streets' ada_required u :
  scores_raised (streets db) streets' ->
  Forall2 arc_le (adj_get (adjacency db safest ada_required) u)
    (adj_get (adjacency (with_streets db streets') safest ada_required) u).
Proof.
  intros Hall. rewrite !adjacency_get.
  apply (Forall2_flat_map_rel
           (fun e e' => same_but_score e e' /\ danger_score e <= danger_score e')).
  { intros e e' [Hsame Hle]. now apply arcs_from_raised. }
  unfold included_streets. apply Forall2_filter_rel; [|done].
  intros e e' [He _]. now rewrite (included_same_but_score _ _ _ He).
Qed.

Lemma route_raised adj adj' origin p v W' :
  (forall u, Forall2 arc_le (adj_get adj u) (adj_get adj' u)) ->
  route adj' origin p v W' -> exists W, route adj origin p v W /\ W <= W'.
Proof.
  intros Hle. induction 1 as [|p u a' W' Hr (W & IH & HW) Ha'].
  - exists 0. split; [apply route_origin|lra].
  - apply list_elem_of_lookup in Ha' as [i Hi].
    destruct (Forall2_lookup_r _ _ _ _ _ (Hle u) Hi) as (a & Ha & Hn & Hw).
    exists (W + arc_weight a). split; [|lra].
    rewrite <- Hn. apply (route_arc _ _ _ u a W IH).
    eapply list_elem_of_lookup_2, Ha.
Qed.

(** Raising scores never makes a safest route cheaper. *)
Lemma safest_raised db streets' origin destination ada_required r r' :
  scores_raised (streets db) streets' ->
  engines_dijkstra.compute_route db origin destination safest ada_required = Returns r ->
  engines_dijkstra.compute_route (with_streets db streets') origin destination
    safest ada_required = Returns r' ->
  engines_dijkstra.total_cost r <= engines_dijkstra.total_cost r'.
Proof.
  intros Hall Hr Hr'.
  pose proof (compute_route_cases db origin destination safest ada_required) as C.
  rewrite Hr in C. destruct C as (_ & _ & (W & _ & Hmin & ->) & _).
  pose proof (compute_route_cases (with_streets db streets') origin destination
                safest ada_required) as C'.
  rewrite Hr' in C'. destruct C' as (_ & _ & (W' & Hroute' & _ & ->) & _).
  destruct (route_raised _ _ _ _ _ _
              (fun u => adjacency_raised db streets' ada_required u Hall) Hroute')
    as (W0 & Hroute0 & HW0).
  pose proof (Hmin _ _ Hroute0). apply py_round_mono. lra.
Qed.

Lemma with_streets_streets db : with_streets db (streets db) = db.
Proof. now destruct db. Qed.

Lemma scores_raised_map (f : Street -> Street) col :
  (forall e, e ∈ col -> same_but_score e (f e) /\ danger_score e <= danger_score (f e)) ->
  scores_raised col (map f col).
Proof.
  intros H. unfold scores_raised. apply Forall2_fmap_r.
  apply Forall2_same_length_lookup_2; [done|].
  intros i e e' H1 H2. rewrite H1 in H2. injection H2 as <-.
  apply H. eapply list_elem_of_lookup_2, H1.
Qed.

Lemma scores_lowered_map (f : Street -> Street) col :
  (forall e, e ∈ col -> same_but_score e (f e) /\ danger_score (f e) <= danger_score e) ->
  scores_raised (map f col) col.
Proof.
  intros H. unfold scores_raised. apply Forall2_fmap_l.
  apply Forall2_same_length_lookup_2; [done|].
  intros i e e' H1 H2. rewrite H1 in H2. injection H2 as <-.
  destruct (H e) as [Hs Hle]; [eapply list_elem_of_lookup_2, H1|].
  split; [|done]. unfold same_but_score in *. intuition congruence.
Qed.

Lemma same_but_score_blend pattern severity e :
  same_but_score e (blend_if_matching pattern severity e).
Proof.
  unfold blend_if_matching. destruct (name_matches pattern e);
    unfold same_but_score; cbn; tauto.
Qed.

(** X20. What an observation does to safest routes.  On a collection with
    distinct ids, scores of at most two decimals and a literal pattern:
    when the severity is at least the score of every matching street (and
    those scores are at most 100), no request in mode "safest" returns a
    lower total cost after [_update_danger_scores] than before; when the
    severity is at most the score of every matching street, none returns
    a higher one, so reporting a mild incident on a dangerous street makes
    routes through it cheaper. *)
Theorem observation_moves_safest_costs (db : Store) (pattern : string) (severity : Z)
    (origin destination : string) (ada_required : bool) :
  services_gemini.literal_pattern pattern = true ->
  NoDup (street_id <$> streets db) ->
  (forall e, e ∈ streets db -> name_matches pattern e = true -> on_grid (danger_score e)) ->
  match services_gemini._update_danger_scores (streets db) pattern severity with
  | Some (streets', _) =>
      match engines_dijkstra.compute_route db origin destination safest ada_required,
            engines_dijkstra.compute_route (with_streets db streets') origin destination
              safest ada_required with
      | Returns r, Returns r' =>
          ((forall e, e ∈ streets db -> name_matches pattern e = true ->
              danger_score e <= inject_Z severity /\ danger_score e <= 100) ->
           engines_dijkstra.total_cost r <= engines_dijkstra.total_cost r')
          /\ ((forall e, e ∈ streets db -> name_matches pattern e = true ->
                 inject_Z severity <= danger_score e) ->
              engines_dijkstra.total_cost r' <= engines_dijkstra.total_cost r)
      | _, _ => True
      end
  | None => False
  end.
Proof.
  intros Hlit Hnodup Hgrid.
  rewrite (gemini_facts.update_danger_scores_eq _ _ severity Hlit Hnodup).
  set (streets' := map (blend_if_matching pattern severity) (streets db)).
  destruct (engines_dijkstra.compute_route db _ _ _ _) as [r| |] eqn:Hr; [|done..].
  destruct (engines_dijkstra.compute_route (with_streets db streets') _ _ _ _)
    as [r'| |] eqn:Hr'; [|done..].
  split.
  - intros Hup. apply (safest_raised db streets' origin destination ada_required);
      [|done..].
    apply scores_raised_map. intros e He. split; [apply same_but_score_blend|].
    unfold blend_if_matching. destruct (name_matches pattern e) eqn:Hm; [|lra].
    cbn. destruct (Hup e He Hm). apply blend_grid_up; auto.
  - intros Hdown.
    pose proof (safest_raised (with_streets db streets') (streets db)
                  origin destination ada_required r' r) as Hmono.
    replace (with_streets (with_streets db streets') (streets db)) with db in Hmono
      by (now destruct db).
    apply Hmono; [|done..].
    apply scores_lowered_map. intros e He. split; [apply same_but_score_blend|].
    unfold blend_if_matching. destruct (name_matches pattern e) eqn:Hm; [|lra].
    cbn. apply blend_grid_down; auto.
Qed.

Lemma observation_moves_safest_costs_witness :
  match services_gemini._update_danger_scores (streets (scenario true)) "a-c" 90 with
  | Some (streets', _) =>
      match engines_dijkstra.compute_route (scenario true) "A" "D" safest false,
            engines_dijkstra.compute_route (with_streets (scenario true) streets')
              "A" "D" safest false with
      | Returns r, Returns r' =>
          ((forall e, e ∈ streets (scenario true) -> name_matches "a-c" e = true ->
              danger_score e <= inject_Z 90 /\ danger_score e <= 100) ->
           engines_dijkstra.total_cost r <= engines_dijkstra.total_cost r')
          /\ ((forall e, e ∈ streets (scenario true) -> name_matches "a-c" e = true ->
                 inject_Z 90 <= danger_score e) ->
              engines_dijkstra.total_cost r' <= engines_dijkstra.total_cost r)
      | _, _ => True
      end
  | None => False
  end.
Proof.
  apply (observation_moves_safest_costs (scenario true) "a-c" 90 "A" "D" false).
  - reflexivity.
  - vm_compute. repeat constructor; set_solver.
  - intros e He _. simpl in He.
    repeat (apply elem_of_cons in He as [->|He]; [exact (on_grid_Z _)|]).
    now apply elem_of_nil in He.
Defined.

(** ** The ledger *)

Section ledger.
Import engines_blockchain.

Variable sha256_hex : string -> string.
Variable isoformat : Z -> string.
Variable stored : Z -> Z.

Lemma find_newest_None col : find_newest col = None <-> col = [].
Proof.
  destruct col as [|d col]; [done|]. simpl.
  destruct (find_newest col) as [d'|]; [|done]. now destruct (_ <? _)%Z.
Qed.

(** The document found has a greatest timestamp. *)
Lemma find_newest_max col d :
  find_newest col = Some d ->
  d ∈ col /\ forall d', d' ∈ col -> (timestamp d' <= timestamp d)%Z.
Proof.
  revert d. induction col as [|x col IH]; intros d; [done|]. simpl.
  destruct (find_newest col) as [d'|] eqn:Hn.
  - destruct (IH d' eq_refl) as [Hin Hmax].
    destruct (Z.ltb_spec (timestamp x) (timestamp d')); intros [= <-].
    + split; [now apply list_elem_of_further|].
      intros y [->|Hy]%elem_of_cons; [lia|auto].
    + split; [apply list_elem_of_here|].
      intros y [->|Hy]%elem_of_cons; [lia|]. specialize (Hmax y Hy). lia.
  - apply find_newest_None in Hn as ->. intros [= <-].
    split; [apply list_elem_of_here|]. intros y [->|Hy]%elem_of_cons; [lia|].
    now apply elem_of_nil in Hy.
Qed.


(** A document earlier than the one found does not replace it. *)
Lemma find_newest_snoc_earlier col d x :
  find_newest col = Some d -> (timestamp x < timestamp d)%Z ->
  find_newest (col ++ [x]) = Some d.
Proof.
  revert d. induction col as [|y col IH]; intros d; [done|]. simpl.
  destruct (find_newest col) as [d'|] eqn:Hn.
  - destruct (Z.ltb_spec (timestamp y) (timestamp d')); intros [= <-] Hx.
    + rewrite (IH d' eq_refl Hx).
      destruct (Z.ltb_spec (timestamp y) (timestamp d')); [done|lia].
    + destruct (find_newest_max _ _ Hn) as [_ Hmax].
      destruct (find_newest (col ++ [x])) as [e|] eqn:He; [|done].
      destruct (find_newest_max _ _ He) as [[Hin| ->%list_elem_of_singleton]%elem_of_app _].
      * specialize (Hmax e Hin).
        destruct (Z.ltb_spec (timestamp y) (timestamp e)); [lia|done].
      * destruct (Z.ltb_spec (timestamp y) (timestamp x)); [lia|done].
  - apply find_newest_None in Hn as ->. intros [= <-] Hx. simpl.
    destruct (Z.ltb_spec (timestamp y) (timestamp x)); [lia|done].
Qed.



(** X23. When the clock reads earlier than the newest document of the
    ledger, [log_entry] still links the record to that document, and so
    does the next call: the two records share their predecessor. *)
Theorem clock_regression_forks (col : list LedgerDoc) (newest : LedgerDoc) (h : string)
    (now1 now2 : Z) (id1 id2 type1 type2 text1 text2 module1 module2 : string)
    (data1 data2 : option (list (string * Json))) :
  find_newest col = Some newest -> tx_hash newest = Some h ->
  (stored now1 < timestamp newest)%Z -> (stored now2 < timestamp newest)%Z ->
  let (col1, record1) :=
    log_entry sha256_hex isoformat stored col now1 id1 type1 text1 module1 data1 in
  let (col2, record2) :=
    log_entry sha256_hex isoformat stored col1 now2 id2 type2 text2 module2 data2 in
  prev_hash record1 = h /\ prev_hash record2 = h
  /\ col2 !! length col = Some
       {| _id := id1; timestamp := stored now1; entry_type := type1;
          description := text1; source_module := module1; data := default [] data1;
          tx_hash := tx_hash record1; prev_hash := h |}
  /\ col2 !! S (length col) = Some
       {| _id := id2; timestamp := stored now2; entry_type := type2;
          description := text2; source_module := module2; data := default [] data2;
          tx_hash := tx_hash record2; prev_hash := h |}.
Proof.
  intros Hnew Hh H1 H2. unfold log_entry. cbn [prev_hash tx_hash].
  assert (Hp1 : _get_prev_hash col = h).
  { unfold _get_prev_hash. now rewrite Hnew, Hh. }
  set (doc1 := {| _id := id1; timestamp := stored now1 |}).
  assert (Hp2 : _get_prev_hash (col ++ [doc1]) = h).
  { unfold _get_prev_hash.
    rewrite (find_newest_snoc_earlier col newest doc1 Hnew) by done.
    now rewrite Hh. }
  rewrite Hp2. subst doc1. rewrite Hp1. split_and!; [done|done| |].
  - rewrite lookup_app_l by (rewrite length_app; simpl; lia).
    rewrite lookup_app_r by lia. now rewrite Nat.sub_diag.
  - rewrite lookup_app_r by (rewrite length_app; simpl; lia).
    rewrite length_app. simpl.
    now replace (S (length col) - (length col + 1))%nat with 0%nat by lia.
Qed.

(** X24. The hash of a record covers the text [entry_type|description]
    as a whole, the link and the text of the clock reading, and nothing
    else: two calls on the same ledger at the same reading give the same
    hash whenever their [entry_type + "|" + description] agree, whatever
    the source modules and the payloads are, and wherever the bar between
    type and description lies. *)
Theorem hash_covers_joined_text (col : list LedgerDoc) (now : Z)
    (id1 id2 type1 type2 text1 text2 module1 module2 : string)
    (data1 data2 : option (list (string * Json))) :
  type1 +:+ "|" +:+ text1 = type2 +:+ "|" +:+ text2 ->
  tx_hash (log_entry sha256_hex isoformat stored col now id1 type1 text1 module1 data1).2
  = tx_hash (log_entry sha256_hex isoformat stored col now id2 type2 text2 module2 data2).2.
Proof.
  intros Heq. unfold log_entry, _compute_hash. cbn [snd tx_hash]. do 2 f_equal.
  set (rest := "|" +:+ _get_prev_hash col +:+ "|" +:+ isoformat now).
  assert (Hassoc : forall a b : string, a +:+ "|" +:+ b +:+ rest = (a +:+ "|" +:+ b) +:+ rest).
  { intros a b. now rewrite !append_assoc. }
  now rewrite !Hassoc, Heq.
Qed.

End ledger.

Section ledger_examples.
Import engines_blockchain.


Lemma clock_regression_forks_witness :
  let (col1, record1) :=
    log_entry (fun s => "#" +:+ s) (fun _ => "T") (fun now => now) one_entry_ledger
      5 "id1" "ALERT_LOGGED" "second" "Test" None in
  let (col2, record2) :=
    log_entry (fun s => "#" +:+ s) (fun _ => "T") (fun now => now) col1 7 "id2"
      "ALERT_LOGGED" "third" "Test" None in
  prev_hash record1 = "h0" /\ prev_hash record2 = "h0"
  /\ col2 !! 1%nat = Some
       {| _id := "id1"; timestamp := 5; entry_type := "ALERT_LOGGED";
          description := "second"; source_module := "Test"; data := [];
          tx_hash := tx_hash record1; prev_hash := "h0" |}
  /\ col2 !! 2%nat = Some
       {| _id := "id2"; timestamp := 7; entry_type := "ALERT_LOGGED";
          description := "third"; source_module := "Test"; data := [];
          tx_hash := tx_hash record2; prev_hash := "h0" |}.
Proof.
  apply (clock_regression_forks (fun s => "#" +:+ s) (fun _ => "T") (fun now => now)
           one_entry_ledger
           {| _id := "id0"; timestamp := 10; entry_type := "RECORD_LOGGED";
              description := "first"; source_module := "Test"; data := [];
              tx_hash := Some "h0"; prev_hash := repeat_str "0" 64 |}
           "h0" 5 7 "id1" "id2"
           "ALERT_LOGGED" "ALERT_LOGGED" "second" "third" "Test" "Test" None None);
    vm_compute; reflexivity.
Defined.

Lemma hash_covers_joined_text_witness :
  tx_hash (log_entry (fun s => "#" +:+ s) (fun _ => "T") (fun now => now) [] 5 "id1"
             "A|B" "C" "Sensors" None).2
  = tx_hash (log_entry (fun s => "#" +:+ s) (fun _ => "T") (fun now => now) [] 5 "id2"
               "A" "B|C" "Billing" (Some [("paid", JBool true)])).2.
Proof.
  apply (hash_covers_joined_text (fun s => "#" +:+ s) (fun _ => "T") (fun now => now)
           [] 5 "id1" "id2" "A|B" "A" "C" "B|C" "Sensors" "Billing" None
           (Some [("paid", JBool true)])).
  reflexivity.
Defined.

End ledger_examples.

(** ** The seeded graph *)

(** An included street is a hop from its start to its end. *)
Lemma street_hop db mode ada_required edge :
  edge ∈ streets db -> included ada_required edge = true ->
  exists a, a ∈ adj_get (adjacency db mode ada_required) (start_intersection_id edge)
    /\ arc_neighbour a = end_intersection_id edge.
Proof.
  intros Hin Hinc. exists (end_intersection_id edge, edge_weight mode edge, edge).
  split; [|done]. apply (adjacency_elem _ _ _ _ _ edge Hin Hinc).
  unfold arcs_from. rewrite decide_True by done. apply elem_of_app. left.
  apply list_elem_of_here.
Qed.

(** Walks extend along included streets. *)
Lemma route_street db mode ada_required origin p W edge :
  edge ∈ streets db -> included ada_required edge = true ->
  route (adjacency db mode ada_required) origin p (start_intersection_id edge) W ->
  exists p' W',
    route (adjacency db mode ada_required) origin p' (end_intersection_id edge) W'.
Proof.
  intros Hin Hinc Hr.
  destruct (street_hop db mode ada_required edge Hin Hinc) as (a & Ha & <-).
  eexists _, _. exact (route_arc _ _ _ _ a _ Hr Ha).
Qed.

(** On a store whose streets are bidirectional and join intersections,
    the requests between nodes that a walk links to a common root all
    return. *)
Lemma connected_requests_return db mode ada_required root (nodes : list string) :
  endpoints_exist db ->
  (forall edge, edge ∈ streets db -> get_flag (bidirectional edge) = true) ->
  (forall n, n ∈ nodes ->
     is_node db n /\ exists p W, route (adjacency db mode ada_required) root p n W) ->
  forall origin destination, origin ∈ nodes -> destination ∈ nodes ->
    exists r,
      engines_dijkstra.compute_route db origin destination mode ada_required = Returns r
      /\ engines_dijkstra.hazards_bypassed r = excluded_count db ada_required.
Proof.
  intros Hint Hbi Hnodes origin destination Ho Hd.
  destruct (Hnodes origin Ho) as (Hno & po & Wo & Hro).
  destruct (Hnodes destination Hd) as (Hnd & pd & Wd & Hrd).
  destruct (route_reverse _ _ _ _ _ _ _ Hbi Hro) as (Wo' & Hro' & _).
  destruct (route_app _ _ _ _ _ Hro' _ _ _ Hrd) as (W & Hr & _).
  pose proof (compute_route_cases db origin destination mode ada_required) as Hc.
  pose proof (endpoints_exist_adjacency db mode ada_required origin Hint) as Hio.
  pose proof (endpoints_exist_adjacency db mode ada_required destination Hint) as Hid.
  destruct (engines_dijkstra.compute_route _ _ _ _ _)
    as [r|[[o|d|o d]|k]|]; try done.
  - exists r. split; [done|]. apply Hc.
  - destruct Hc as (_ & Hnone). apply Hio in Hno. rewrite Hnone in Hno.
    now destruct Hno.
  - destruct Hc as (_ & _ & Hnone). apply Hid in Hnd. rewrite Hnone in Hnd.
    now destruct Hnd.
  - destruct Hc as (_ & _ & _ & _ & Hno_route). now destruct (Hno_route _ _ Hr).
  - destruct Hc as (Hk & _ & _ & p & W' & Hin & Hr' & _).
    destruct Hk. exact (endpoints_exist_route _ _ _ _ _ _ _ Hint Hno Hr' k Hin).
Qed.

#[local] Ltac in_list :=
  repeat first [apply list_elem_of_here | apply list_elem_of_further].

#[local] Ltac along street k :=
  let e := eval cbv in street in
  match e with Some ?edge => k edge end.

(** The intersections of a store are the ids of its documents. *)
Lemma is_node_ids db u : is_node db u <-> u ∈ map intersection_id (intersections db).
Proof.
  unfold is_node. rewrite list_elem_of_fmap. naive_solver.
Qed.

(** X25. On the store seeded by [seed.py] every request between two of
    the six intersections returns a route, in both modes and with or
    without [ada_required]: the graph stays connected when the two
    inaccessible streets are left out, and [hazards_bypassed] is then 2. *)
Theorem seeded_requests_return (ids street_ids : list string)
    (origin destination : string) (mode : Mode) (ada_required : bool) :
  length ids = 6%nat -> length street_ids = 7%nat ->
  origin ∈ ids -> destination ∈ ids ->
  exists db,
    seed_py.seed ids street_ids = Some db
    /\ exists r,
         engines_dijkstra.compute_route db origin destination mode ada_required
         = Returns r
         /\ engines_dijkstra.hazards_bypassed r = (if ada_required then 2 else 0)%nat.
Proof.
  intros Hids Hsids Ho Hd.
  destruct ids as [|i0 [|i1 [|i2 [|i3 [|i4 [|i5 [|]]]]]]]; try discriminate.
  destruct street_ids as [|s0 [|s1 [|s2 [|s3 [|s4 [|s5 [|s6 [|]]]]]]]]; try discriminate.
  eexists. split; [reflexivity|].
  match goal with
  | |- context [engines_dijkstra.compute_route ?store _ _ _ _] => set (db := store)
  end.
  assert (Hint : endpoints_exist db).
  { intros edge Hin. rewrite !is_node_ids. simpl in Hin. simpl.
    repeat (apply elem_of_cons in Hin as [->|Hin]); [..|now apply elem_of_nil in Hin];
      simpl; split; in_list. }
  assert (Hbi : forall edge, edge ∈ streets db -> get_flag (bidirectional edge) = true).
  { intros edge Hin. simpl in Hin.
    repeat (apply elem_of_cons in Hin as [->|Hin]); [..|now apply elem_of_nil in Hin];
      reflexivity. }
  set (adj := adjacency db mode ada_required).
  assert (Hstep : forall edge p W,
            edge ∈ streets db -> is_accessible edge = Some true ->
            route adj i0 p (start_intersection_id edge) W ->
            exists p' W', route adj i0 p' (end_intersection_id edge) W').
  { intros edge p W Hin Hacc Hr.
    apply (route_street db mode ada_required i0 p W edge Hin); [|done].
    unfold included. rewrite Hacc. now destruct ada_required. }
  assert (H0 : exists p W, route adj i0 p i0 W) by (eexists _, _; apply route_origin).
  assert (H1 : exists p W, route adj i0 p i1 W).
  { destruct H0 as (p & W & Hr).
    along (streets db !! 0%nat) ltac:(fun edge => refine (Hstep edge p W _ eq_refl Hr)).
    simpl. in_list. }
  assert (H2 : exists p W, route adj i0 p i2 W).
  { destruct H0 as (p & W & Hr).
    along (streets db !! 1%nat) ltac:(fun edge => refine (Hstep edge p W _ eq_refl Hr)).
    simpl. in_list. }
  assert (H3 : exists p W, route adj i0 p i3 W).
  { destruct H2 as (p & W & Hr).
    along (streets db !! 3%nat) ltac:(fun edge => refine (Hstep edge p W _ eq_refl Hr)).
    simpl. in_list. }
  assert (H4 : exists p W, route adj i0 p i4 W).
  { destruct H2 as (p & W & Hr).
    along (streets db !! 4%nat) ltac:(fun edge => refine (Hstep edge p W _ eq_refl Hr)).
    simpl. in_list. }
  assert (H5 : exists p W, route adj i0 p i5 W).
  { destruct H4 as (p & W & Hr).
    along (streets db !! 6%nat) ltac:(fun edge => refine (Hstep edge p W _ eq_refl Hr)).
    simpl. in_list. }
  destruct (connected_requests_return db mode ada_required i0 [i0; i1; i2; i3; i4; i5]
              Hint Hbi) with (origin := origin) (destination := destination)
    as (r & Hrun & Hcount); [|done|done|].
  - intros n Hn. rewrite is_node_ids. split; [exact Hn|].
    repeat (apply elem_of_cons in Hn as [->|Hn]); [..|now apply elem_of_nil in Hn]; done.
  - exists r. split; [done|]. rewrite Hcount. now destruct ada_required.
Qed.

Lemma seeded_requests_return_witness :
  exists db,
    seed_py.seed ["i0"; "i1"; "i2"; "i3"; "i4"; "i5"]
      ["s0"; "s1"; "s2"; "s3"; "s4"; "s5"; "s6"] = Some db
    /\ exists r,
         engines_dijkstra.compute_route db "i1" "i5" safest true = Returns r
         /\ engines_dijkstra.hazards_bypassed r = 2%nat.
Proof.
  apply (seeded_requests_return ["i0"; "i1"; "i2"; "i3"; "i4"; "i5"]
           ["s0"; "s1"; "s2"; "s3"; "s4"; "s5"; "s6"] "i1" "i5" safest true);
    [reflexivity|reflexivity|in_list|in_list].
Defined.

(** ** The triage endpoints *)

Lemma dict_get_set members key v k default :
  dict_get (dict_set members key v) k default
  = if decide (k = key) then v else dict_get members k default.
Proof.
  induction members as [|[k' x] members IH]; simpl.
  - destruct (decide (key = k)) as [->|]; [now rewrite decide_True|].
    now rewrite decide_False by congruence.
  - destruct (decide (k' = key)) as [->|Hne]; simpl.
    + destruct (decide (key = k)) as [->|]; [now rewrite decide_True|].
      now rewrite decide_False by congruence.
    + destruct (decide (k' = k)) as [->|]; [now rewrite decide_False|]. exact IH.
Qed.

Section triage_facts.
Import incidents triage.

(** X26. [POST /api/vision/analyze] and [POST /api/voice/intake] answer
    the same way to the same answer of the language model: 503 exactly
    when the API key is not set; otherwise 502 when the answer has a fence
    without a line break or is not JSON; an [AttributeError] escapes when
    the answer is JSON but not an object; and else they return the parsed
    object, the vision handler with the key ["sam3_result"] set to the
    stub segmentation when an image URL was sent and every other key
    unchanged. *)
Theorem triage_endpoints_status (json_loads : string -> Json + string)
    (gemini_api_key response_text : string) (image_url : option string) :
  match vision_analyze json_loads gemini_api_key response_text image_url with
  | Responds body =>
      gemini_api_key <> EmptyString
      /\ exists cleaned members members',
           strip_fences response_text = Some cleaned
           /\ json_loads cleaned = inl (JObject members)
           /\ voice_intake json_loads gemini_api_key response_text
              = Responds (JObject members)
           /\ body = JObject members'
           /\ match image_url with
              | Some (String _ _ as url) =>
                  forall key default,
                    dict_get members' key default
                    = if decide (key = "sam3_result") then sam3_segment url
                      else dict_get members key default
              | _ => members' = members
              end
  | Fails exc =>
      voice_intake json_loads gemini_api_key response_text = Fails exc
      /\ ((gemini_api_key = EmptyString
           /\ exc = {| status_code := 503; detail := "GEMINI_API_KEY is not set" |})
          \/ (gemini_api_key <> EmptyString /\ status_code exc = 502%nat
              /\ (strip_fences response_text = None
                  \/ exists cleaned message,
                       strip_fences response_text = Some cleaned
                       /\ json_loads cleaned = inr message)))
  | Propagates e =>
      voice_intake json_loads gemini_api_key response_text = Propagates e
      /\ e = AttributeError /\ gemini_api_key <> EmptyString
      /\ exists cleaned parsed,
           strip_fences response_text = Some cleaned
           /\ json_loads cleaned = inl parsed
           /\ forall members, parsed <> JObject members
  | NoAnswer => False
  end.
Proof.
  unfold vision_analyze, voice_intake, triage_vision, triage_voice, parse_answer,
    engines_ai_triage._parse_json_response.
  destruct (decide (gemini_api_key = EmptyString)) as [Hk|Hk]; simpl.
  { split; [done|]. left. done. }
  destruct (strip_fences response_text) as [cleaned|] eqn:Hs; simpl.
  2:{ split; [done|]. right. split_and!; [done|done|now left]. }
  destruct (json_loads cleaned) as [parsed|message] eqn:Hj; simpl.
  2:{ split; [done|]. right. split_and!; [done|done|]. right. eauto. }
  destruct parsed as [| | | | | | | |members]; simpl;
    try (split_and!; try done; exists cleaned; eexists; split_and!; done).
  destruct image_url as [[|c url]|]; simpl.
  - split; [done|]. exists cleaned, members, members. done.
  - split; [done|]. eexists cleaned, members, _. split_and!; try done.
    intros key default. apply dict_get_set.
  - split; [done|]. exists cleaned, members, members. done.
Qed.

End triage_facts.
